(** * LinkedIn insights agent: run pipeline, analysis and aggregation

    A shallow embedding of the parts of the repository that carry the
    run lifecycle (worker [processRunJob]), the two-pass analysis
    ([ClaudeService]), the keyword fallback ([InsightAnalyzer]), the
    cross-expert aggregation ([AggregationFormatter]) and the chunker
    ([TokenUtils]), with the properties of each stated and proved next
    to the definitions they are about.

    Conventions.
    - JavaScript numbers that carry scores and confidences are modelled
      as rationals [Q]; the code only compares, adds and clamps them.
    - Text handled by [TokenUtils] is a list of UTF-16 code units, so the
      chunker is modelled on every JavaScript string.  Text handled by
      the aggregation and analysis code is a Rocq [string], read as a
      string whose code units are below 256 (Latin-1), on which
      [toLowerCase] and [trim] are written out in full.
    - Asynchronous functions are modelled sequentially, in the order in
      which their awaits complete; thrown exceptions are explicit
      results. *)

From Stdlib Require Import ZArith QArith Qminmax Qround Lia Lqa List Ascii String.
From Stdlib Require Import Sorting.Sorted Permutation.
From stdpp Require Import gmap strings list pretty.

Open Scope Z_scope.

(* ===================================================================== *)
(** ** src/token-utils.ts *)
(* ===================================================================== *)

Module TokenUtils.

(** A JavaScript string: its sequence of UTF-16 code units. *)
Definition jsstring := list N.

(** [Math.ceil(text.length / 4)] *)
Definition estimateTokens (text : jsstring) : Z :=
  (Z.of_nat (length text) + 3) / 4.

(** ECMAScript LineTerminator: LF, CR, LS, PS. *)
Definition isLineTerminator (c : N) : bool :=
  ((c =? 0x0A) || (c =? 0x0D) || (c =? 0x2028) || (c =? 0x2029))%N.

(** The character class [\s]: WhiteSpace and LineTerminator. *)
Definition isWhiteSpace (c : N) : bool :=
  ((c =? 0x09) || (c =? 0x0B) || (c =? 0x0C) || (c =? 0x20) || (c =? 0xA0)
   || (c =? 0x1680) || ((0x2000 <=? c) && (c <=? 0x200A))
   || (c =? 0x202F) || (c =? 0x205F) || (c =? 0x3000) || (c =? 0xFEFF))%N
  || isLineTerminator c.

Definition hash : N := 0x23%N.

(** Does [/(?=^##\s)/m] match at the position whose preceding code
    unit is [prev] ([None] at index 0) and whose remaining input is
    [rest]?  With the [m] flag [^] holds at index 0 and after a line
    terminator. *)
Definition sectionStartsAt (prev : option N) (rest : jsstring) : bool :=
  match prev with None => true | Some c => isLineTerminator c end
  && match rest with
     | a :: b :: s :: _ => (a =? hash)%N && (b =? hash)%N && isWhiteSpace s
     | _ => false
     end.

(** [text.split(/(?=^##\s)/m)]: the separator is an empty look-ahead
    match, so a piece ends in front of every matching position except
    the one the piece itself starts at; [cur] is the piece S[p..q)
    read so far.  The last piece is always pushed. *)
Fixpoint splitSections (prev : option N) (cur : jsstring) (rest : jsstring)
  : list jsstring :=
  match rest with
  | [] => [cur]
  | c :: rest' =>
      if sectionStartsAt prev rest && negb (bool_decide (cur = []))
      then cur :: splitSections (Some c) [c] rest'
      else splitSections (Some c) (cur ++ [c]) rest'
  end.

(** State of the packing loop of [splitByTokens]. *)
Record packer := Packer {
  chunks : list jsstring;
  currentChunk : jsstring;
  currentTokens : Z
}.

(** A string is truthy when it is not empty. *)
Definition truthy (s : jsstring) : bool := negb (bool_decide (s = [])).

(** One iteration of [for (const section of sections)]. *)
Definition packSection (maxTokens : Z) (st : packer) (section : jsstring) : packer :=
  let sectionTokens := estimateTokens section in
  if (maxTokens <? currentTokens st + sectionTokens) && truthy (currentChunk st)
  then Packer (chunks st ++ [currentChunk st]) section sectionTokens
  else Packer (chunks st) (currentChunk st ++ section)
              (currentTokens st + sectionTokens).

Definition splitByTokens (text : jsstring) (maxTokens : Z) : list jsstring :=
  let estimatedTokens := estimateTokens text in
  if estimatedTokens <=? maxTokens then [text]
  else
    let sections := splitSections None [] text in
    let st := fold_left (packSection maxTokens) sections (Packer [] [] 0) in
    if truthy (currentChunk st) then chunks st ++ [currentChunk st]
    else chunks st.

(** Everything the packer holds, in order. *)
Definition packed (st : packer) : jsstring :=
  concat (chunks st) ++ currentChunk st.

Lemma splitSections_concat rest : forall prev cur,
  concat (splitSections prev cur rest) = cur ++ rest.
Proof.
  induction rest as [|c rest IH]; intros prev cur; simpl.
  - by rewrite !app_nil_r.
  - destruct (sectionStartsAt prev (c :: rest) && negb (bool_decide (cur = []))).
    + simpl. by rewrite IH.
    + rewrite IH. by rewrite <- app_assoc.
Qed.

Lemma packSection_packed L st s :
  packed (packSection L st s) = packed st ++ s.
Proof.
  unfold packSection, packed.
  destruct ((L <? currentTokens st + estimateTokens s) && truthy (currentChunk st)); simpl.
  - rewrite concat_app. simpl. by rewrite app_nil_r.
  - by rewrite app_assoc.
Qed.

Lemma fold_packSection_packed L sections : forall st,
  packed (fold_left (packSection L) sections st) = packed st ++ concat sections.
Proof.
  induction sections as [|s sections IH]; intros st; simpl.
  - by rewrite app_nil_r.
  - rewrite IH, packSection_packed. by rewrite <- app_assoc.
Qed.

Lemma flush_packed st :
  concat (if truthy (currentChunk st) then chunks st ++ [currentChunk st]
          else chunks st) = packed st.
Proof.
  unfold packed, truthy.
  destruct (bool_decide_reflect (currentChunk st = [])) as [E|E]; simpl.
  - by rewrite E, app_nil_r.
  - rewrite concat_app. simpl. by rewrite app_nil_r.
Qed.

(** C9. For every text T and every limit L > 0 the chunks returned by
    [splitByTokens T L] concatenate to T again, and a text whose
    estimate is within the limit comes back as the one-element list
    [T]. *)
Theorem splitByTokens_roundtrip (T : jsstring) (L : Z) :
  0 < L ->
  concat (splitByTokens T L) = T
  /\ (estimateTokens T <= L -> splitByTokens T L = [T]).
Proof.
  intros _. split.
  - unfold splitByTokens.
    destruct (estimateTokens T <=? L).
    + simpl. by rewrite app_nil_r.
    + rewrite flush_packed, fold_packSection_packed, splitSections_concat.
      reflexivity.
  - intros Hle. unfold splitByTokens.
    destruct (Z.leb_spec (estimateTokens T) L); [reflexivity | lia].
Qed.

(** "## a\n## b\n## c\n" with a limit of 3 tokens: three sections of
    two tokens each, packed one per chunk. *)
Definition sample : jsstring :=
  [0x23; 0x23; 0x20; 0x61; 0x0A; 0x23; 0x23; 0x20; 0x62; 0x0A;
   0x23; 0x23; 0x20; 0x63; 0x0A]%N.

Lemma splitByTokens_roundtrip_witness :
  (0 < 3 /\ concat (splitByTokens sample 3) = sample)
  /\ (0 < 4 /\ estimateTokens sample <= 4 /\ splitByTokens sample 4 = [sample]).
Proof.
  split.
  - split; [lia | apply (splitByTokens_roundtrip sample 3); lia].
  - split; [lia | split; [vm_compute; discriminate |]].
    apply (splitByTokens_roundtrip sample 4); [lia | vm_compute; discriminate].
Defined.

Example splitByTokens_sample :
  splitByTokens sample 3 =
    [[0x23; 0x23; 0x20; 0x61; 0x0A]; [0x23; 0x23; 0x20; 0x62; 0x0A];
     [0x23; 0x23; 0x20; 0x63; 0x0A]]%N.
Proof. reflexivity. Qed.

End TokenUtils.

(* ===================================================================== *)
(** ** JavaScript built-ins used by the analysis and aggregation code *)
(* ===================================================================== *)

Module Js.

(** [String.prototype.toLowerCase] on code units below 256: A-Z and the
    Latin-1 capitals U+00C0..U+00DE (without the multiplication sign
    U+00D7) move up by 32. *)
Definition lowerChar (a : ascii) : ascii :=
  let n := N_of_ascii a in
  if ((65 <=? n) && (n <=? 90)
      || (192 <=? n) && (n <=? 222) && negb (n =? 215))%N
  then ascii_of_N (n + 32) else a.

Fixpoint toLowerCase (s : string) : string :=
  match s with
  | EmptyString => EmptyString
  | String a s' => String (lowerChar a) (toLowerCase s')
  end.

(** White space and line terminators below 256, the characters
    [String.prototype.trim] removes. *)
Definition isTrimmed (a : ascii) : bool :=
  let n := N_of_ascii a in
  ((9 <=? n) && (n <=? 13) || (n =? 32) || (n =? 160))%N.

Fixpoint trimStart (s : string) : string :=
  match s with
  | EmptyString => EmptyString
  | String a s' => if isTrimmed a then trimStart s' else s
  end.

Fixpoint trimEnd (s : string) : string :=
  match s with
  | EmptyString => EmptyString
  | String a s' =>
      match trimEnd s' with
      | EmptyString => if isTrimmed a then EmptyString else String a EmptyString
      | t => String a t
      end
  end.

Definition trim (s : string) : string := trimEnd (trimStart s).

(** [Array.prototype.includes] on an array of strings. *)
Definition includes (l : list string) (x : string) : bool :=
  bool_decide (x ∈ l).

(** [Array.prototype.sort(cmp)].  The sort is stable (ECMAScript 2019);
    [a] is kept in front of a later [b] when [cmp a b <= 0].  Written
    as the stable insertion sort. *)
Section Sort.
Context {A : Type} (cmp : A -> A -> Q).

Definition keepsOrder (a b : A) : bool := Qle_bool (cmp a b) 0.

Fixpoint insertSorted (x : A) (l : list A) : list A :=
  match l with
  | [] => [x]
  | y :: l' => if keepsOrder x y then x :: y :: l' else y :: insertSorted x l'
  end.

Definition sort (l : list A) : list A := foldr insertSorted [] l.
End Sort.

Example toLowerCase_ascii : toLowerCase "SMYKM Framework" = "smykm framework".
Proof. reflexivity. Qed.

Example trim_both :
  trim ("  Show me you know me" +:+ String (ascii_of_nat 10) " ")
  = "Show me you know me".
Proof. reflexivity. Qed.

End Js.

(* ===================================================================== *)
(** ** src/types.ts *)
(* ===================================================================== *)

Inductive SalesCategory :=
  | PROSPECTING | DISCOVERY | NURTURE | CLOSING | SALES_COMMS
  | CADENCES | STRATEGY | TEMPLATES | TACTICS.

Inductive ContentSourceType :=
  | CtPost | CtArticle | CtDocument | CtFeatured | CtExternal.

Record Engagement := {
  likes : Z;
  comments : Z;
  shares : Z
}.

Record LinkedInPost := {
  post_id : string;
  post_content : string;
  publishedAt : string;
  engagement : Engagement;
  post_url : string;
  author : string;
  contentType : option ContentSourceType;
  links : option (list string);
  imageUrls : option (list string)
}.

Record SalesInsight := {
  si_id : string;
  si_category : SalesCategory;
  si_insight : string;
  si_sourcePost : LinkedInPost;
  si_confidence : Q;
  si_extractedAt : string;
  si_actionableItems : list string;
  si_templates : option (list string)
}.

Record Methodology := {
  m_name : string;
  m_description : string;
  m_application : option string
}.

(** [InsightAnalysis], without the external-article enrichment fields. *)
Record InsightAnalysis := {
  ia_posts : list LinkedInPost;
  ia_insights : list SalesInsight;
  ia_summary : string;
  ia_actionableInstructions : list string;
  ia_templates : list string;
  ia_methodologies : option (list Methodology)
}.

Record ExpertConfig := {
  username : string;
  weight : option Q;
  ec_postLimit : option Z
}.

Record ExpertAnalysis := {
  expert : ExpertConfig;
  analysis : InsightAnalysis;
  outputPath : option string
}.

(** An element of [AggregatedAnalysis.combinedMethodologies]. *)
Record CombinedMethodology := {
  cm_name : string;
  cm_description : string;
  cm_application : option string;
  cm_sources : list string
}.

(** [x || []] for an optional array. *)
Definition orEmpty {A} (o : option (list A)) : list A := default [] o.

(* ===================================================================== *)
(** ** Lists with one element per key *)
(* ===================================================================== *)

Section FirstOccurrences.
Context {A : Type} (key : A -> string).

(** The elements of [l] whose key is carried by no earlier element,
    [earlier] being what precedes [l]. *)
Fixpoint firstOccurrencesFrom (earlier l : list A) : list A :=
  match l with
  | [] => []
  | x :: l' =>
      (if bool_decide (key x ∈ map key earlier) then [] else [x])
        ++ firstOccurrencesFrom (earlier ++ [x]) l'
  end.

Definition firstOccurrences (l : list A) : list A := firstOccurrencesFrom [] l.

Lemma firstOccurrencesFrom_snoc l : forall earlier x,
  firstOccurrencesFrom earlier (l ++ [x]) =
    firstOccurrencesFrom earlier l
      ++ (if bool_decide (key x ∈ map key (earlier ++ l)) then [] else [x]).
Proof.
  induction l as [|y l IH]; intros earlier x; simpl.
  - by rewrite !app_nil_r.
  - rewrite IH. rewrite <- !app_assoc. simpl. reflexivity.
Qed.

Lemma firstOccurrences_snoc l x :
  firstOccurrences (l ++ [x]) =
    firstOccurrences l ++ (if bool_decide (key x ∈ map key l) then [] else [x]).
Proof. unfold firstOccurrences. by rewrite firstOccurrencesFrom_snoc. Qed.

Lemma firstOccurrences_sub l x : x ∈ firstOccurrences l -> x ∈ l.
Proof.
  induction l as [|y l IH] using rev_ind; [done|].
  rewrite firstOccurrences_snoc. intros H.
  apply elem_of_app in H as [H|H]; apply elem_of_app.
  - left. auto.
  - right. by case_bool_decide; [inversion H|].
Qed.

(** Every key of the list is the key of one kept element. *)
Lemma firstOccurrences_keys l k :
  k ∈ map key (firstOccurrences l) <-> k ∈ map key l.
Proof.
  induction l as [|y l IH] using rev_ind; [done|].
  rewrite firstOccurrences_snoc, !map_app, !elem_of_app, IH.
  case_bool_decide as Hy; simpl.
  - split; [intros [H|H]; [by left | inversion H]|].
    intros [H|H]; [by left|]. left.
    apply list_elem_of_singleton in H. by subst.
  - reflexivity.
Qed.

Lemma firstOccurrences_NoDup l : NoDup (map key (firstOccurrences l)).
Proof.
  induction l as [|y l IH] using rev_ind; [constructor|].
  rewrite firstOccurrences_snoc, map_app.
  case_bool_decide as Hy; simpl; [by rewrite app_nil_r|].
  apply NoDup_app. split; [done|]. split; [|apply NoDup_singleton].
  intros k Hk Hk'. apply list_elem_of_singleton in Hk'. subst.
  by apply Hy, firstOccurrences_keys.
Qed.
(** A kept element is preceded by no element with its key. *)
Lemma firstOccurrences_first l x :
  x ∈ firstOccurrences l ->
  exists before after, l = before ++ x :: after /\ key x ∉ map key before.
Proof.
  induction l as [|y l IH] using rev_ind; [by intros H; inversion H|].
  rewrite firstOccurrences_snoc. intros H.
  apply elem_of_app in H as [H|H].
  - destruct (IH H) as (before & after & -> & Hk).
    exists before, (after ++ [y]). by rewrite <- app_assoc.
  - case_bool_decide as Hy; [inversion H|].
    apply list_elem_of_singleton in H. subst.
    exists l, []. done.
Qed.
End FirstOccurrences.

(* ===================================================================== *)
(** ** The stable sort: sorted, and a permutation of its input *)
(* ===================================================================== *)

Section SortFacts.
Context {A : Type} (score : A -> Q).

(** The comparator of both aggregation sorts, [(a, b) => b.x - a.x]. *)
Definition descending (a b : A) : Q := score b - score a.

Definition notBelow (a b : A) : Prop := (score b <= score a)%Q.

Lemma keepsOrder_descending a b :
  Js.keepsOrder descending a b = true <-> notBelow a b.
Proof.
  unfold Js.keepsOrder, descending, notBelow.
  rewrite Qle_bool_iff. split; intros H; lra.
Qed.

Lemma insertSorted_Permutation x l :
  Permutation (Js.insertSorted descending x l) (x :: l).
Proof.
  induction l as [|y l IH]; simpl; [done|].
  destruct (Js.keepsOrder descending x y); [done|].
  rewrite IH. apply perm_swap.
Qed.

Lemma sort_Permutation l : Permutation (Js.sort descending l) l.
Proof.
  induction l as [|x l IH]; simpl; [done|].
  rewrite insertSorted_Permutation. by constructor.
Qed.

Lemma insertSorted_sorted x l :
  StronglySorted notBelow l ->
  StronglySorted notBelow (Js.insertSorted descending x l).
Proof.
  induction 1 as [|y l Hl IH Hy]; simpl.
  - repeat constructor.
  - destruct (Js.keepsOrder descending x y) eqn:E.
    + apply keepsOrder_descending in E.
      constructor; [by constructor|].
      constructor; [done|].
      eapply Forall_impl; [exact Hy|].
      intros z Hz. unfold notBelow in *. lra.
    + constructor; [done|].
      rewrite insertSorted_Permutation. constructor; [|done].
      unfold notBelow.
      destruct (Qlt_le_dec (score y) (score x)) as [Hlt|Hle]; [|done].
      exfalso. apply Qlt_le_weak in Hlt.
      apply keepsOrder_descending in Hlt. congruence.
Qed.

Lemma sort_sorted l : StronglySorted notBelow (Js.sort descending l).
Proof.
  induction l as [|x l IH]; simpl; [constructor|].
  by apply insertSorted_sorted.
Qed.
End SortFacts.

(* ===================================================================== *)
(** ** src/aggregation-formatter.ts *)
(* ===================================================================== *)

Module AggregationFormatter.

(** *** deduplicateInsights *)

(** [insight.insight.toLowerCase().trim()] *)
Definition normalized (insight : SalesInsight) : string :=
  Js.trim (Js.toLowerCase (si_insight insight)).

(** The two locals of [deduplicateInsights]. *)
Record dedupState := DedupState {
  allInsights : list SalesInsight;
  seenInsights : gset string
}.

(** Body of the inner loop. *)
Definition visitInsight (st : dedupState) (insight : SalesInsight) : dedupState :=
  if bool_decide (normalized insight ∈ seenInsights st) then st
  else DedupState (allInsights st ++ [insight])
                  ({[normalized insight]} ∪ seenInsights st).

(** Body of the outer loop. *)
Definition visitExpert (st : dedupState) (expertAnalysis : ExpertAnalysis) : dedupState :=
  fold_left visitInsight (ia_insights (analysis expertAnalysis)) st.

Definition deduplicateInsights (expertAnalyses : list ExpertAnalysis)
  : list SalesInsight :=
  let st := fold_left visitExpert expertAnalyses (DedupState [] ∅) in
  Js.sort (descending si_confidence) (allInsights st).

(** The concatenation of all experts' insight lists. *)
Definition concatenatedInsights (expertAnalyses : list ExpertAnalysis)
  : list SalesInsight :=
  concat (map (fun ea => ia_insights (analysis ea)) expertAnalyses).

(** What the loops hold after the insights [done] have been visited. *)
Definition dedupAfter (done : list SalesInsight) : dedupState :=
  DedupState (firstOccurrences normalized done)
             (list_to_set (map normalized done)).

Lemma visitInsight_after done insight :
  visitInsight (dedupAfter done) insight = dedupAfter (done ++ [insight]).
Proof.
  unfold visitInsight, dedupAfter; simpl.
  rewrite firstOccurrences_snoc, map_app, list_to_set_app_L. simpl.
  assert (Hseen : normalized insight ∈
                    (list_to_set (map normalized done) : gset string)
                  <-> normalized insight ∈ map normalized done)
    by apply elem_of_list_to_set.
  destruct (decide (normalized insight ∈ map normalized done)) as [Hin|Hnin].
  - rewrite !bool_decide_eq_true_2 by tauto. rewrite app_nil_r. f_equal.
    apply Hseen in Hin. rewrite (right_id_L ∅ (∪)).
    symmetry. rewrite (comm_L (∪)).
    apply subseteq_union_1_L. by apply singleton_subseteq_l.
  - rewrite !bool_decide_eq_false_2 by tauto. f_equal.
    rewrite (right_id_L ∅ (∪)). apply (comm_L (∪)).
Qed.

Lemma visitInsights_after insights : forall done,
  fold_left visitInsight insights (dedupAfter done) = dedupAfter (done ++ insights).
Proof.
  induction insights as [|i insights IH]; intros done; simpl.
  - by rewrite app_nil_r.
  - rewrite visitInsight_after, IH. by rewrite <- app_assoc.
Qed.

Lemma visitExperts_after experts : forall done,
  fold_left visitExpert experts (dedupAfter done)
  = dedupAfter (done ++ concatenatedInsights experts).
Proof.
  induction experts as [|ea experts IH]; intros done; simpl.
  - unfold concatenatedInsights. simpl. by rewrite app_nil_r.
  - unfold visitExpert at 2. rewrite visitInsights_after, IH.
    unfold concatenatedInsights. simpl. by rewrite <- app_assoc.
Qed.

Lemma keys_distinct {A B} (f : A -> B) (l : list A) :
  NoDup (map f l) -> forall x y, x ∈ l -> y ∈ l -> f x = f y -> x = y.
Proof.
  induction l as [|a l IH]; intros Hnd x y Hx Hy E; [by inversion Hx|].
  simpl in Hnd. apply NoDup_cons in Hnd as [Ha Hnd].
  assert (Hin : forall z, z ∈ l -> f z ∈ map f l)
    by (intros z Hz; by apply list_elem_of_In, in_map, list_elem_of_In).
  apply elem_of_cons in Hx as [->|Hx]; apply elem_of_cons in Hy as [->|Hy].
  - reflexivity.
  - destruct Ha. rewrite E. by apply Hin.
  - destruct Ha. rewrite <- E. by apply Hin.
  - by apply IH.
Qed.

(** The comparison key in the words of the specification: the full
    text of the insight, lowercased and trimmed. *)
Definition lowercasedTrimmed (insight : SalesInsight) : string :=
  Js.trim (Js.toLowerCase (si_insight insight)).

(** An insight with this text and this confidence. *)
Definition insightOf (text : string) (confidence : Q) : SalesInsight :=
  {| si_id := text; si_category := TACTICS; si_insight := text;
     si_sourcePost :=
       {| post_id := "p"; post_content := text; publishedAt := "2025-01-01";
          engagement := {| likes := 0; comments := 0; shares := 0 |};
          post_url := ""; author := ""; contentType := None; links := None;
          imageUrls := None |};
     si_confidence := confidence; si_extractedAt := "2025-01-01T00:00:00.000Z";
     si_actionableItems := []; si_templates := None |}.

Definition expertSaying (user : string) (said : list SalesInsight) : ExpertAnalysis :=
  {| expert := {| username := user; weight := None; ec_postLimit := None |};
     analysis := {| ia_posts := []; ia_insights := said; ia_summary := "";
                    ia_actionableInstructions := []; ia_templates := [];
                    ia_methodologies := None |};
     outputPath := None |}.

(** C7. The aggregated insight list is the concatenation of all
    experts' insights, reduced to the first occurrence of each
    lowercased and trimmed insight text, and sorted by confidence in
    descending order (insights of equal confidence keep their order):
    it holds exactly those first occurrences, one per lowercased and
    trimmed text, each confidence at least the confidences after it.
    Expert A says "  Lead With Research " (0.7) and "Ask for referrals"
    (0.8), expert B says "lead with research" (0.9) and "ASK FOR
    REFERRALS" (0.5): the result is A's two insights, the one on
    referrals first; B's differ from them by case and surrounding
    space only and are dropped, whatever their confidence. *)
Theorem deduplicateInsights_first_occurrences_sorted
    (expertAnalyses : list ExpertAnalysis) :
  let kept := firstOccurrences lowercasedTrimmed
                (concatenatedInsights expertAnalyses) in
  let out := deduplicateInsights expertAnalyses in
  out = Js.sort (descending si_confidence) kept
  /\ Permutation out kept
  /\ NoDup (map lowercasedTrimmed out)
  /\ (forall i, i ∈ concatenatedInsights expertAnalyses ->
        lowercasedTrimmed i ∈ map lowercasedTrimmed out)
  /\ (forall i j, i ∈ out -> j ∈ out ->
        Js.trim (Js.toLowerCase (si_insight i)) = Js.trim (Js.toLowerCase (si_insight j)) ->
        i = j)
  /\ StronglySorted (fun a b => (si_confidence b <= si_confidence a)%Q) out
  /\ deduplicateInsights
       [ expertSaying "A" [ insightOf "  Lead With Research " (7 # 10);
                            insightOf "Ask for referrals" (8 # 10) ];
         expertSaying "B" [ insightOf "lead with research" (9 # 10);
                            insightOf "ASK FOR REFERRALS" (1 # 2) ] ]
     = [ insightOf "Ask for referrals" (8 # 10);
         insightOf "  Lead With Research " (7 # 10) ].
Proof.
  intros kept out.
  assert (Hkey : lowercasedTrimmed = normalized) by reflexivity.
  assert (Hout : out = Js.sort (descending si_confidence) kept).
  { unfold out, kept, deduplicateInsights. rewrite Hkey.
    change (DedupState [] ∅) with (dedupAfter []).
    by rewrite visitExperts_after. }
  assert (Hperm : Permutation out kept)
    by (rewrite Hout; apply sort_Permutation).
  assert (Hnd : NoDup (map lowercasedTrimmed out))
    by (rewrite Hperm; apply firstOccurrences_NoDup).
  split; [exact Hout|]. split; [exact Hperm|]. split; [exact Hnd|].
  split; [|split; [|split; [|by vm_compute]]].
  - intros i Hi. rewrite Hperm. apply firstOccurrences_keys.
    apply list_elem_of_In, in_map, list_elem_of_In, Hi.
  - intros i j Hi Hj Hsame.
    exact (keys_distinct lowercasedTrimmed out Hnd i j Hi Hj Hsame).
  - rewrite Hout. apply (sort_sorted si_confidence).
Qed.

(** *** combineMethodologies *)

(** [methodologyMap]: a JavaScript [Map] iterates in insertion order,
    so it is kept as the list of its entries in that order. *)
Definition methodologyMap := list (string * CombinedMethodology).

(** [methodologyMap.has(key)] *)
Definition mapHas (m : methodologyMap) (key : string) : bool :=
  bool_decide (key ∈ map fst m).

(** [if (!existing.sources.includes(u)) existing.sources.push(u)] *)
Definition addSource (user : string) (existing : CombinedMethodology)
  : CombinedMethodology :=
  if Js.includes (cm_sources existing) user then existing
  else {| cm_name := cm_name existing;
          cm_description := cm_description existing;
          cm_application := cm_application existing;
          cm_sources := cm_sources existing ++ [user] |}.

(** The entry under [key] is updated in place. *)
Fixpoint updateExisting (key user : string) (m : methodologyMap) : methodologyMap :=
  match m with
  | [] => []
  | (k, existing) :: m' =>
      if bool_decide (k = key) then (k, addSource user existing) :: m'
      else (k, existing) :: updateExisting key user m'
  end.

(** Body of the inner loop, for the expert [user]. *)
Definition visitMethodology (user : string) (m : methodologyMap)
    (methodology : Methodology) : methodologyMap :=
  let key := Js.toLowerCase (m_name methodology) in
  if mapHas m key then updateExisting key user m
  else m ++ [(key, {| cm_name := m_name methodology;
                      cm_description := m_description methodology;
                      cm_application := m_application methodology;
                      cm_sources := [user] |})].

Definition visitExpertMethodologies (m : methodologyMap)
    (expertAnalysis : ExpertAnalysis) : methodologyMap :=
  fold_left (visitMethodology (username (expert expertAnalysis)))
            (orEmpty (ia_methodologies (analysis expertAnalysis))) m.

Definition combineMethodologies (expertAnalyses : list ExpertAnalysis)
  : list CombinedMethodology :=
  map snd (fold_left visitExpertMethodologies expertAnalyses []).

(** **** The merge in the words of the specification *)

(** One report: the reporting expert and the methodology. *)
Definition report := (string * Methodology)%type.

Definition reportsOf (expertAnalysis : ExpertAnalysis) : list report :=
  map (pair (username (expert expertAnalysis)))
      (orEmpty (ia_methodologies (analysis expertAnalysis))).

(** All reports, expert after expert. *)
Definition reports (expertAnalyses : list ExpertAnalysis) : list report :=
  concat (map reportsOf expertAnalyses).

(** The merge key: the lowercased name. *)
Definition keyOf (r : report) : string := Js.toLowerCase (m_name (snd r)).

(** The experts reporting under [key], each once, in order of first
    report. *)
Definition sourcesFor (rs : list report) (key : string) : list string :=
  firstOccurrences (fun u => u) (map fst (filter (fun r => keyOf r = key) rs)).

(** First occurrence's content, every contributing expert as source. *)
Definition mergedEntry (rs : list report) (r : report) : CombinedMethodology :=
  {| cm_name := m_name (snd r);
     cm_description := m_description (snd r);
     cm_application := m_application (snd r);
     cm_sources := sourcesFor rs (keyOf r) |}.

Definition mergedMethodologies (rs : list report) : list CombinedMethodology :=
  map (mergedEntry rs) (firstOccurrences keyOf rs).

(** What [methodologyMap] holds after the reports [rs]. *)
Definition mapAfter (rs : list report) : methodologyMap :=
  map (fun r => (keyOf r, mergedEntry rs r)) (firstOccurrences keyOf rs).

Lemma mapAfter_keys rs : map fst (mapAfter rs) = map keyOf (firstOccurrences keyOf rs).
Proof. unfold mapAfter. rewrite map_map. reflexivity. Qed.

Lemma mapHas_after rs key :
  mapHas (mapAfter rs) key = bool_decide (key ∈ map keyOf rs).
Proof.
  unfold mapHas. rewrite mapAfter_keys.
  apply bool_decide_ext, firstOccurrences_keys.
Qed.

Lemma elem_of_sourcesFor rs key u :
  u ∈ sourcesFor rs key <-> u ∈ map fst (filter (fun r => keyOf r = key) rs).
Proof.
  unfold sourcesFor.
  pose proof (firstOccurrences_keys (fun u : string => u)
                (map fst (filter (fun r => keyOf r = key) rs)) u) as H.
  by rewrite !map_id in H.
Qed.

Lemma sourcesFor_snoc_same rs u methodology :
  sourcesFor (rs ++ [(u, methodology)]) (keyOf (u, methodology)) =
    sourcesFor rs (keyOf (u, methodology))
      ++ (if Js.includes (sourcesFor rs (keyOf (u, methodology))) u
          then [] else [u]).
Proof.
  unfold sourcesFor at 1. rewrite filter_app, filter_cons_True by done.
  rewrite filter_nil, map_app. simpl. rewrite firstOccurrences_snoc, map_id.
  fold (sourcesFor rs (keyOf (u, methodology))).
  unfold Js.includes. f_equal.
  rewrite (bool_decide_ext _ _ (elem_of_sourcesFor rs (keyOf (u, methodology)) u)).
  reflexivity.
Qed.

Lemma sourcesFor_snoc_other rs r key :
  keyOf r ≠ key -> sourcesFor (rs ++ [r]) key = sourcesFor rs key.
Proof.
  intros Hne. unfold sourcesFor.
  rewrite filter_app, filter_cons_False by done.
  by rewrite filter_nil, app_nil_r.
Qed.

Lemma sourcesFor_fresh rs key : key ∉ map keyOf rs -> sourcesFor rs key = [].
Proof.
  intros Hk. unfold sourcesFor.
  replace (filter (fun r => keyOf r = key) rs) with (@nil report); [done|].
  symmetry. induction rs as [|r rs IH]; [done|].
  rewrite filter_cons_False.
  - apply IH. intros H. apply Hk. simpl. by apply elem_of_cons; right.
  - intros H. apply Hk. simpl. apply elem_of_cons. by left.
Qed.

Lemma mergedEntry_snoc_other rs r x :
  keyOf r ≠ keyOf x -> mergedEntry (rs ++ [x]) r = mergedEntry rs r.
Proof.
  intros Hne. unfold mergedEntry. f_equal.
  apply sourcesFor_snoc_other. congruence.
Qed.

Lemma addSource_mergedEntry rs r u methodology :
  keyOf r = keyOf (u, methodology) ->
  addSource u (mergedEntry rs r) = mergedEntry (rs ++ [(u, methodology)]) r.
Proof.
  intros Hk. unfold addSource, mergedEntry. simpl.
  rewrite Hk, sourcesFor_snoc_same.
  destruct (Js.includes _ u); [by rewrite app_nil_r | done].
Qed.

Lemma map_mergedEntry_snoc_other rs x (l : list report) :
  keyOf x ∉ map keyOf l ->
  map (fun r => (keyOf r, mergedEntry (rs ++ [x]) r)) l
  = map (fun r => (keyOf r, mergedEntry rs r)) l.
Proof.
  intros Hk. apply map_ext_in. intros r Hr.
  rewrite mergedEntry_snoc_other; [done|].
  intros E. apply Hk. rewrite <- E.
  apply list_elem_of_In, in_map, Hr.
Qed.

Lemma updateExisting_after rs u methodology (l : list report) :
  NoDup (map keyOf l) ->
  updateExisting (keyOf (u, methodology)) u
    (map (fun r => (keyOf r, mergedEntry rs r)) l)
  = map (fun r => (keyOf r, mergedEntry (rs ++ [(u, methodology)]) r)) l.
Proof.
  induction l as [|r l IH]; intros Hnd; [done|].
  simpl in Hnd. apply NoDup_cons in Hnd as [Hr Hl].
  cbn [map updateExisting]. case_bool_decide as Hk.
  - rewrite (addSource_mergedEntry _ _ _ _ Hk).
    rewrite map_mergedEntry_snoc_other; [done | by rewrite <- Hk].
  - rewrite mergedEntry_snoc_other by done. by rewrite IH.
Qed.

Lemma visitMethodology_after rs u methodology :
  visitMethodology u (mapAfter rs) methodology = mapAfter (rs ++ [(u, methodology)]).
Proof.
  unfold visitMethodology. rewrite mapHas_after.
  change (Js.toLowerCase (m_name methodology)) with (keyOf (u, methodology)).
  unfold mapAfter. rewrite firstOccurrences_snoc.
  case_bool_decide as Hk.
  - rewrite app_nil_r. apply updateExisting_after, firstOccurrences_NoDup.
  - rewrite map_app, map_mergedEntry_snoc_other
      by (by rewrite firstOccurrences_keys).
    simpl. unfold mergedEntry at 3.
    rewrite sourcesFor_snoc_same, (sourcesFor_fresh _ _ Hk). reflexivity.
Qed.

Lemma visitMethodologies_after u methodologies : forall rs,
  fold_left (visitMethodology u) methodologies (mapAfter rs)
  = mapAfter (rs ++ map (pair u) methodologies).
Proof.
  induction methodologies as [|m ms IH]; intros rs; simpl.
  - by rewrite app_nil_r.
  - rewrite visitMethodology_after, IH. by rewrite <- app_assoc.
Qed.

Lemma visitExpertsMethodologies_after experts : forall rs,
  fold_left visitExpertMethodologies experts (mapAfter rs)
  = mapAfter (rs ++ reports experts).
Proof.
  induction experts as [|ea experts IH]; intros rs; simpl.
  - unfold reports. simpl. by rewrite app_nil_r.
  - unfold visitExpertMethodologies at 2.
    rewrite visitMethodologies_after, IH.
    unfold reports, reportsOf. simpl. by rewrite <- app_assoc.
Qed.

Lemma combineMethodologies_merged experts :
  combineMethodologies experts = mergedMethodologies (reports experts).
Proof.
  unfold combineMethodologies. change (@nil (string * CombinedMethodology)) with (mapAfter []).
  rewrite visitExpertsMethodologies_after. simpl.
  unfold mapAfter, mergedMethodologies. by rewrite map_map.
Qed.

(** The lowercased name of an aggregated methodology. *)
Definition nameKey (e : CombinedMethodology) : string :=
  Js.toLowerCase (cm_name e).

(** Two experts report "SMYKM" in different case, with their own
    descriptions. *)
Definition expertWith (user : string) (ms : list Methodology) : ExpertAnalysis :=
  {| expert := {| username := user; weight := None; ec_postLimit := None |};
     analysis := {| ia_posts := []; ia_insights := []; ia_summary := "";
                    ia_actionableInstructions := []; ia_templates := [];
                    ia_methodologies := Some ms |};
     outputPath := None |}.

Definition smykmOfA : Methodology :=
  {| m_name := "SMYKM"; m_description := "Show Me You Know Me";
     m_application := Some "Cold outreach" |}.

Definition smykmOfB : Methodology :=
  {| m_name := "Smykm"; m_description := "A personalised first line";
     m_application := None |}.

(** C8. Methodologies whose names differ only by case are merged: the
    aggregated output holds exactly one methodology per lowercased
    name; it carries the name, description and application of the
    first report of that name, and its sources are the usernames of
    the experts that reported it, each exactly once, in the order of
    their first report.  Two experts A and B reporting "SMYKM" and
    "Smykm" give one methodology with A's description and sources
    [A, B]. *)
Theorem combineMethodologies_one_per_name (expertAnalyses : list ExpertAnalysis) :
  let rs := reports expertAnalyses in
  let out := combineMethodologies expertAnalyses in
  NoDup (map nameKey out)
  /\ (forall key, key ∈ map nameKey out <-> key ∈ map keyOf rs)
  /\ (forall e, e ∈ out ->
        (exists before u m after,
            rs = before ++ (u, m) :: after
            /\ (nameKey e ∉ map keyOf before)
            /\ Js.toLowerCase (m_name m) = nameKey e
            /\ cm_name e = m_name m
            /\ cm_description e = m_description m
            /\ cm_application e = m_application m)
        /\ NoDup (cm_sources e)
        /\ (forall u, u ∈ cm_sources e <->
               exists m, (u, m) ∈ rs /\ Js.toLowerCase (m_name m) = nameKey e)
        /\ cm_sources e = sourcesFor rs (nameKey e))
  /\ out = mergedMethodologies rs
  /\ combineMethodologies [expertWith "A" [smykmOfA]; expertWith "B" [smykmOfB]]
     = [ {| cm_name := "SMYKM"; cm_description := "Show Me You Know Me";
            cm_application := Some "Cold outreach";
            cm_sources := ["A"; "B"] |} ].
Proof.
  intros rs out.
  assert (Hout : out = mergedMethodologies rs)
    by apply combineMethodologies_merged.
  assert (Hkeys : map nameKey out = map keyOf (firstOccurrences keyOf rs)).
  { rewrite Hout. unfold mergedMethodologies. by rewrite map_map. }
  split; [rewrite Hkeys; apply firstOccurrences_NoDup|].
  split; [intros key; rewrite Hkeys; apply firstOccurrences_keys|].
  split; [|split; [exact Hout | by vm_compute]].
  intros e He. rewrite Hout in He. unfold mergedMethodologies in He.
  apply list_elem_of_In, in_map_iff in He as (r & <- & Hr).
  apply list_elem_of_In in Hr.
  destruct (firstOccurrences_first keyOf rs r Hr) as (before & after & Hrs & Hk).
  destruct r as [u m].
  split; [by exists before, u, m, after|]. split; [|split; [|done]].
  - simpl. unfold sourcesFor.
    pose proof (firstOccurrences_NoDup (fun u : string => u)
      (map fst (filter (fun r => keyOf r = keyOf (u, m)) rs))) as H.
    by rewrite map_id in H.
  - intros u'. simpl. rewrite elem_of_sourcesFor.
    rewrite list_elem_of_In, in_map_iff. split.
    + intros ([u1 m1] & <- & H1). apply list_elem_of_In, list_elem_of_filter in H1.
      destruct H1 as [H1 H2]. exists m1. split; [exact H2 | exact H1].
    + intros (m1 & H1 & H2). exists (u', m1). split; [done|].
      apply list_elem_of_In, list_elem_of_filter. split; [exact H2 | exact H1].
Qed.

End AggregationFormatter.

(* ===================================================================== *)
(** ** Asynchronous code: state, exceptions, and calls that never settle *)
(* ===================================================================== *)

Module Eff.

(** A thrown JavaScript value, as far as the code looks at it:
    [error.code] and [error.message]. *)
Record JsError := {
  err_code : option string;
  err_message : option string
}.

(** [new Error(message)] *)
Definition Error (message : string) : JsError :=
  {| err_code := None; err_message := Some message |}.

(** Reading a property of [undefined]. *)
Definition TypeError : JsError := Error "Cannot read properties of undefined".

(** How a call ends: it returns, it throws (the promise rejects), or
    it never settles. *)
Inductive outcome (A : Type) : Type :=
| Returned (a : A)
| Thrown (e : JsError)
| Diverged.
Arguments Returned {A} a.
Arguments Thrown {A} e.
Arguments Diverged {A}.

(** A promise handed back by a collaborator, once settled. *)
Inductive settled (A : Type) : Type :=
| Resolves (a : A)
| Rejects (e : JsError).
Arguments Resolves {A} a.
Arguments Rejects {A} e.

(** A computation over the state [S] of everything outside the
    function: stores, logs of the calls made. *)
Definition M (S A : Type) : Type := S -> outcome A * S.

Definition ret {S A} (a : A) : M S A := fun s => (Returned a, s).

Definition bind {S A B} (m : M S A) (k : A -> M S B) : M S B :=
  fun s =>
    match m s with
    | (Returned a, s') => k a s'
    | (Thrown e, s') => (Thrown e, s')
    | (Diverged, s') => (Diverged, s')
    end.

Definition throw {S A} (e : JsError) : M S A := fun s => (Thrown e, s).

(** [await promise] *)
Definition await {S A} (promise : settled A) : M S A :=
  fun s => match promise with
           | Resolves a => (Returned a, s)
           | Rejects e => (Thrown e, s)
           end.
Definition diverge {S A} : M S A := fun s => (Diverged, s).
Definition gets {S A} (f : S -> A) : M S A := fun s => (Returned (f s), s).
Definition modify {S} (f : S -> S) : M S unit := fun s => (Returned tt, f s).

(** [try { body } catch (error) { handler }] *)
Definition tryCatch {S A} (body : M S A) (handler : JsError -> M S A) : M S A :=
  fun s =>
    match body s with
    | (Thrown e, s') => handler e s'
    | r => r
    end.

(** [try { body } finally { cleanup }]: the cleanup runs after a
    return and after a throw; its own exception replaces the result. *)
Definition tryFinally {S A} (body : M S A) (cleanup : M S unit) : M S A :=
  fun s =>
    match body s with
    | (Diverged, s') => (Diverged, s')
    | (r, s') =>
        match cleanup s' with
        | (Returned _, s'') => (r, s'')
        | (Thrown e, s'') => (Thrown e, s'')
        | (Diverged, s'') => (Diverged, s'')
        end
    end.

(** [for (const x of xs) { body }], results collected in order. *)
Fixpoint forEach {S A B} (body : A -> M S B) (xs : list A) : M S (list B) :=
  match xs with
  | [] => ret []
  | x :: xs' => bind (body x) (fun b => bind (forEach body xs') (fun bs => ret (b :: bs)))
  end.

#[global] Instance M_ret {S} : MRet (M S) := @ret S.
#[global] Instance M_bind {S} : MBind (M S) := fun A B k m => bind m k.

End Eff.
Import Eff.

(* ===================================================================== *)
(** ** src/claude-service.ts *)
(* ===================================================================== *)

Module ClaudeService.

(** The result of analysing posts. *)
Record AnalysisResult := {
  insights : list SalesInsight;
  templates : list string;
  actionableItems : list string;
  methodologies : list Methodology
}.

Definition emptyResult : AnalysisResult :=
  {| insights := []; templates := []; actionableItems := []; methodologies := [] |}.

(** An image block of a message: media type and base64 data. *)
Record ImageBlock := {
  media_type : string;
  data : string
}.

(** A request to [anthropic.messages.create]. *)
Record Request := {
  model : string;
  max_tokens : Z;
  text : string;
  images : list ImageBlock
}.

Inductive ContentBlock :=
| TextBlock (text : string)
| OtherBlock.

(** [response.content] *)
Definition Response := list ContentBlock.

(** An element of [parsed.insights], for an answer that follows the
    schema of the prompt: [category] and [insight] are strings,
    [confidence] is a number or is missing.  Answers whose elements are
    of another shape are outside of this record. *)
Record RawInsight := {
  ri_category : string;
  ri_insight : string;
  ri_confidence : option Q
}.

(** The payload of an extraction response after [JSON.parse], read at
    the schema the prompt asks for; every field may be missing. *)
Record ParsedAnalysis := {
  pa_insights : option (list RawInsight);
  pa_templates : option (list string);
  pa_actionableItems : option (list string);
  pa_methodologies : option (list Methodology)
}.

(** What lies outside the class.  The outcome of a network call may
    depend on how many calls were made before it. *)
Record Collaborators := {
  (** [this.anthropic.messages.create] *)
  messagesCreate : nat -> Request -> settled Response;
  (** [downloadImageAsBase64]: catches its own errors, [None] is null *)
  downloadImageAsBase64 : nat -> string -> option ImageBlock;
  (** [parseJsonResponse<any>]: extraction, [JSON.parse], repair *)
  parseAnalysisJson : string -> option ParsedAnalysis;
  (** [parseJsonResponse<{relevance}>]; the inner option is
      [typeof parsed.relevance === 'number'] *)
  parseRelevanceJson : string -> option (option Q);
  (** the two prompt templates *)
  buildAnalysisPrompt : LinkedInPost -> option (list string) -> string;
  buildRelevancePrompt : LinkedInPost -> option (list string) -> string;
  (** [new Date().toISOString()] *)
  now : nat -> string
}.

(** The calls made so far: their number, the requests sent to the
    model, and the pauses taken. *)
Record Session := {
  calls : nat;
  sent : list Request;
  slept : list Z
}.

Definition haiku : string := "claude-3-haiku-20240307".
Definition sonnet : string := "claude-sonnet-4-5".

Section Service.
Variable env : Collaborators.

Definition create (request : Request) : M Session Response :=
  n ← gets calls;
  modify (fun s => {| calls := S (calls s); sent := sent s ++ [request];
                      slept := slept s |});;
  await (messagesCreate env n request).

Definition download (imageUrl : string) : M Session (option ImageBlock) :=
  fun s =>
    (Returned (downloadImageAsBase64 env (calls s) imageUrl),
     {| calls := S (calls s); sent := sent s; slept := slept s |}).

(** [await new Promise(resolve => setTimeout(resolve, ms))] *)
Definition sleep (ms : Z) : M Session unit :=
  modify (fun s => {| calls := calls s; sent := sent s; slept := slept s ++ [ms] |}).

(** [response.content[0]] *)
Definition firstBlock (response : Response) : M Session ContentBlock :=
  match response with
  | [] => throw TypeError
  | content :: _ => ret content
  end.

(** [categoryMap[category] || SalesCategory.GENERAL], for the keys of
    the object literal; a name that [Object.prototype] supplies, such
    as ['constructor'], is not among the strings considered. *)
Definition mapCategory (category : string) : SalesCategory :=
  if bool_decide (category = "PROSPECTING") then PROSPECTING
  else if bool_decide (category = "DISCOVERY") then DISCOVERY
  else if bool_decide (category = "NURTURE") then NURTURE
  else if bool_decide (category = "CLOSING") then CLOSING
  else if bool_decide (category = "SALES_COMMS") then SALES_COMMS
  else if bool_decide (category = "CADENCES") then CADENCES
  else if bool_decide (category = "STRATEGY") then STRATEGY
  else if bool_decide (category = "TEMPLATES") then TEMPLATES
  else TACTICS.

(** [insight.confidence || 0.5]: a missing value and 0 are falsy. *)
Definition confidenceOr (confidence : option Q) : Q :=
  match confidence with
  | Some q => if Qeq_bool q 0 then 1 # 2 else q
  | None => 1 # 2
  end.

(** The callback of [(parsed.insights || []).map(...)]. *)
Definition toInsight (post : LinkedInPost) (parsed : ParsedAnalysis)
    (extractedAt : string) (index : nat) (insight : RawInsight) : SalesInsight :=
  {| si_id := post_id post +:+ "-ai-" +:+ pretty index;
     si_category := mapCategory (ri_category insight);
     si_insight := ri_insight insight;
     si_sourcePost := post;
     si_confidence := confidenceOr (ri_confidence insight);
     si_extractedAt := extractedAt;
     si_actionableItems := orEmpty (pa_actionableItems parsed);
     si_templates := Some (orEmpty (pa_templates parsed)) |}.

(** [parseAnalysisResponse]: its own try/catch turns a payload that
    does not parse into the empty result. *)
Definition parseAnalysisResponse (response : string) (post : LinkedInPost)
  : M Session AnalysisResult :=
  tryCatch
    (match parseAnalysisJson env response with
     | None => throw (Error "No JSON found in Claude response")
     | Some parsed =>
         extractedAt ← gets (fun s => now env (calls s));
         mret {| insights := imap (toInsight post parsed extractedAt)
                                  (orEmpty (pa_insights parsed));
                 templates := orEmpty (pa_templates parsed);
                 actionableItems := orEmpty (pa_actionableItems parsed);
                 methodologies := orEmpty (pa_methodologies parsed) |}
     end)
    (fun _ => mret emptyResult).

(** The loop over [post.imageUrls.slice(0, 5)]: a download that
    fails is skipped.  Nothing in the loop throws, and
    [imageContent] is declared in front of the [try], so the loop is
    written in front of it. *)
Fixpoint downloadEach (imageUrls : list string) : M Session (list ImageBlock) :=
  match imageUrls with
  | [] => mret []
  | imageUrl :: rest =>
      imageData ← download imageUrl;
      more ← downloadEach rest;
      mret (match imageData with
            | Some image => image :: more
            | None => more
            end)
  end.

Definition downloadImages (post : LinkedInPost) : M Session (list ImageBlock) :=
  downloadEach (take 5 (orEmpty (imageUrls post))).

Definition extractionRequest (prompt : string) (imageContent : list ImageBlock)
  : Request :=
  {| model := sonnet; max_tokens := 2000; text := prompt; images := imageContent |}.

(** [error.message && error.message.includes('image')] *)
Definition mentionsImage (error : JsError) : bool :=
  match err_message error with
  | Some message => bool_decide (is_Some (String.index 0 "image" message))
  | None => false
  end.

(** [imageContent.length > 0] *)
Definition hasImages (imageContent : list ImageBlock) : bool :=
  match imageContent with [] => false | _ => true end.

(** The body of the outer [try]: the request with the images. *)
Definition firstAttempt (prompt : string) (imageContent : list ImageBlock)
    (post : LinkedInPost) : M Session AnalysisResult :=
  response ← create (extractionRequest prompt imageContent);
  content ← firstBlock response;
  match content with
  | TextBlock text => parseAnalysisResponse text post
  | OtherBlock => throw (Error "Unexpected response type from Claude")
  end.

(** The inner [try]/[catch]: the request without images.  [None] is
    falling through to the final [return] of the handler. *)
Definition retryAttempt (prompt : string) (post : LinkedInPost)
  : M Session (option AnalysisResult) :=
  tryCatch
    (response ← create (extractionRequest prompt []);
     content ← firstBlock response;
     match content with
     | TextBlock text =>
         result ← parseAnalysisResponse text post;
         mret (Some result)
     | OtherBlock => mret None
     end)
    (fun retryError => mret None).

Definition analyzePost (post : LinkedInPost) (focusTopics : option (list string))
  : M Session AnalysisResult :=
  let prompt := buildAnalysisPrompt env post focusTopics in
  imageContent ← downloadImages post;
  tryCatch
    (firstAttempt prompt imageContent post)
    (fun error =>
       retried ←
         (if hasImages imageContent && mentionsImage error
          then retryAttempt prompt post
          else mret None);
       mret (default emptyResult retried)).

(** [Math.max(0, Math.min(1, relevance))] *)
Definition clamp01 (relevance : Q) : Q := Qmax 0 (Qmin 1 relevance).

Definition relevanceRequest (prompt : string) : Request :=
  {| model := haiku; max_tokens := 100; text := prompt; images := [] |}.

Definition scorePostRelevance (post : LinkedInPost)
    (focusTopics : option (list string)) : M Session Q :=
  let prompt := buildRelevancePrompt env post focusTopics in
  tryCatch
    (response ← create (relevanceRequest prompt);
     content ← firstBlock response;
     match content with
     | TextBlock text =>
         match parseRelevanceJson env text with
         | Some (Some relevance) => mret (clamp01 relevance)
         | _ => mret 0%Q
         end
     | OtherBlock => mret 0%Q
     end)
    (fun _ => mret (1 # 2)).

(** The value of a [SalesCategory] member. *)
Definition categoryValue (c : SalesCategory) : string :=
  match c with
  | PROSPECTING => "prospecting" | DISCOVERY => "discovery"
  | NURTURE => "nurture" | CLOSING => "closing"
  | SALES_COMMS => "sales_comms" | CADENCES => "cadences"
  | STRATEGY => "strategy" | TEMPLATES => "templates"
  | TACTICS => "tactics"
  end.

(** [xs.filter(x => { if (seen.has(key)) return false; seen.add(key);
    return true; })] *)
Fixpoint filterUnseen {A} (key : A -> string) (seen : gset string) (xs : list A)
  : list A :=
  match xs with
  | [] => []
  | x :: xs' =>
      if bool_decide (key x ∈ seen) then filterUnseen key seen xs'
      else x :: filterUnseen key ({[key x]} ∪ seen) xs'
  end.

Definition deduplicateInsights (all : list SalesInsight) : list SalesInsight :=
  filterUnseen
    (fun insight => categoryValue (si_category insight) +:+ "-"
                    +:+ String.substring 0 50 (si_insight insight))
    ∅ all.

(** [[...new Set(items.filter(item => item && item.trim().length > 0))]] *)
Definition deduplicateStrings (items : list string) : list string :=
  filterUnseen (fun item => item) ∅
    (filter (fun item => Js.trim item ≠ "") items).

Definition deduplicateMethodologies (all : list Methodology) : list Methodology :=
  filterUnseen m_name ∅ all.

(** [xs.slice(i, j)] for [i <= j] *)
Definition slice {A} (i j : nat) (xs : list A) : list A :=
  take (j - i) (drop i xs).

(** [async post => ({ post, score: await this.scorePostRelevance(...) })] *)
Definition scoreOne (focusTopics : option (list string)) (post : LinkedInPost)
  : M Session (LinkedInPost * Q) :=
  score ← scorePostRelevance post focusTopics;
  mret (post, score).

(** Pass 1, the loop [for (let i = 0; i < posts.length; i += batchSize)].
    The requests of a batch are issued in the order of its posts.
    [fuel] bounds the iterations; a loop that outlives it does not
    terminate. *)
Fixpoint scoringPass (fuel i : nat) (posts : list LinkedInPost) (batchSize : nat)
    (focusTopics : option (list string))
    (relevanceScores : list (LinkedInPost * Q))
  : M Session (list (LinkedInPost * Q)) :=
  if (i <? length posts)%nat then
    match fuel with
    | O => diverge
    | S fuel' =>
        let batch := slice i (i + batchSize) posts in
        batchScores ← forEach (scoreOne focusTopics) batch;
        (if (i + batchSize <? length posts)%nat then sleep 7000 else mret tt);;
        scoringPass fuel' (i + batchSize) posts batchSize focusTopics
                    (relevanceScores ++ batchScores)
    end
  else mret relevanceScores.

(** [allInsights.push(...result.insights)] and its three siblings. *)
Definition pushResult (all result : AnalysisResult) : AnalysisResult :=
  {| insights := insights all ++ insights result;
     templates := templates all ++ templates result;
     actionableItems := actionableItems all ++ actionableItems result;
     methodologies := methodologies all ++ methodologies result |}.

(** Pass 2, the loop over [relevantPosts].  The posts of a batch are
    analysed by [Promise.all]; their requests are taken in the order of
    the batch. *)
Fixpoint extractionPass (fuel i : nat) (relevantPosts : list LinkedInPost)
    (batchSize : nat) (focusTopics : option (list string)) (all : AnalysisResult)
  : M Session AnalysisResult :=
  if (i <? length relevantPosts)%nat then
    match fuel with
    | O => diverge
    | S fuel' =>
        let batch := slice i (i + batchSize) relevantPosts in
        batchResults ← forEach (fun post => analyzePost post focusTopics) batch;
        (if (i + batchSize <? length relevantPosts)%nat then sleep 2000
         else mret tt);;
        extractionPass fuel' (i + batchSize) relevantPosts batchSize focusTopics
                       (fold_left pushResult batchResults all)
    end
  else mret all.

(** [score > 0.6] *)
Definition isRelevant (scored : LinkedInPost * Q) : bool :=
  negb (Qle_bool (snd scored) (6 # 10)).

(** Each loop advances by [batchSize] posts, so with a positive batch
    size it runs at most once per post. *)
Definition batchAnalyzePosts (posts : list LinkedInPost) (batchSize : nat)
    (focusTopics : option (list string)) : M Session AnalysisResult :=
  relevanceScores ← scoringPass (length posts) 0 posts batchSize focusTopics [];
  let relevantPosts := map fst (List.filter isRelevant relevanceScores) in
  if bool_decide (length relevantPosts = 0%nat) then mret emptyResult
  else
    all ← extractionPass (length relevantPosts) 0 relevantPosts batchSize
                         focusTopics emptyResult;
    mret {| insights := deduplicateInsights (insights all);
            templates := deduplicateStrings (templates all);
            actionableItems := deduplicateStrings (actionableItems all);
            methodologies := deduplicateMethodologies (methodologies all) |}.

End Service.

(** Unfolds the monadic operations in the goal and the hypotheses. *)
Ltac eff :=
  unfold mbind, mret, M_bind, M_ret, Eff.bind, Eff.ret, Eff.throw, Eff.await,
    Eff.tryCatch, Eff.gets, Eff.modify, Eff.diverge in *;
  simpl in *.

Section ServiceFacts.
Variable env : Collaborators.

Lemma downloadEach_returns urls : forall s,
  exists imageContent s',
    downloadEach env urls s = (Returned imageContent, s')
    /\ sent s' = sent s /\ (length imageContent <= length urls)%nat.
Proof.
  induction urls as [|u urls IH]; intros s; simpl.
  - by exists [], s.
  - unfold download. eff.
    destruct (IH {| calls := S (calls s); sent := sent s; slept := slept s |})
      as (more & s' & -> & Hs & Hl).
    eexists _, s'. split; [reflexivity|]. split; [done|].
    destruct (downloadImageAsBase64 env (calls s) u); simpl; lia.
Qed.

Lemma downloadImages_returns post s :
  exists imageContent s1,
    downloadImages env post s = (Returned imageContent, s1)
    /\ sent s1 = sent s /\ (length imageContent <= 5)%nat.
Proof.
  unfold downloadImages.
  destruct (downloadEach_returns (take 5 (orEmpty (imageUrls post))) s)
    as (imageContent & s' & E & Hs & Hl).
  exists imageContent, s'. split; [done|]. split; [done|].
  rewrite length_take in Hl. lia.
Qed.

Lemma parseAnalysisResponse_returns response post s :
  exists result, parseAnalysisResponse env response post s = (Returned result, s).
Proof.
  unfold parseAnalysisResponse. eff.
  destruct (parseAnalysisJson env response); eauto.
Qed.

Lemma firstAttempt_sent prompt imageContent post s outcome s' :
  firstAttempt env prompt imageContent post s = (outcome, s') ->
  sent s' = sent s ++ [extractionRequest prompt imageContent]
  /\ outcome <> Diverged.
Proof.
  unfold firstAttempt, create, firstBlock. eff.
  destruct (messagesCreate env (calls s) _) as [[|[text|] rest]|e]; eff.
  - intros [= <- <-]. done.
  - destruct (parseAnalysisResponse_returns text post
      {| calls := S (calls s);
         sent := sent s ++ [extractionRequest prompt imageContent];
         slept := slept s |}) as [r ->].
    intros [= <- <-]. done.
  - intros [= <- <-]. done.
  - intros [= <- <-]. done.
Qed.

Lemma retryAttempt_returns prompt post s :
  exists retried s',
    retryAttempt env prompt post s = (Returned retried, s')
    /\ sent s' = sent s ++ [extractionRequest prompt []].
Proof.
  unfold retryAttempt, create, firstBlock. eff.
  destruct (messagesCreate env (calls s) _) as [[|[text|] rest]|e]; eff;
    try (eexists _, _; split; [reflexivity | done]).
  destruct (parseAnalysisResponse_returns text post
      {| calls := S (calls s);
         sent := sent s ++ [extractionRequest prompt []];
         slept := slept s |}) as [r ->].
  eexists _, _; split; [reflexivity | done].
Qed.

(** C4, as the code has it.  [analyzePost] never throws and always
    returns.  It sends the extraction request once, with the images
    it could download (at most five).  When that attempt fails, the
    request is sent a second time, without images, exactly when
    images were attached and the error message contains "image"; a
    failure of any other kind is not retried.  Whenever the last
    attempt made fails, the result is the empty one. *)
Theorem analyzePost_retries_image_errors_only
    (post : LinkedInPost) (focusTopics : option (list string)) (s : Session) :
  exists imageContent s1 result s',
    downloadImages env post s = (Returned imageContent, s1)
    /\ (length imageContent <= 5)%nat
    /\ analyzePost env post focusTopics s = (Returned result, s')
    /\ let prompt := buildAnalysisPrompt env post focusTopics in
       let first := extractionRequest prompt imageContent in
       let second := extractionRequest prompt [] in
       match firstAttempt env prompt imageContent post s1 with
       | (Returned extracted, _) =>
           result = extracted /\ sent s' = sent s ++ [first]
       | (Thrown error, s2) =>
           if hasImages imageContent && mentionsImage error then
             sent s' = sent s ++ [first; second]
             /\ match retryAttempt env prompt post s2 with
                | (Returned (Some extracted), _) => result = extracted
                | _ => result = emptyResult
                end
           else
             sent s' = sent s ++ [first] /\ result = emptyResult
       | (Diverged, _) => False
       end.
Proof.
  destruct (downloadImages_returns post s) as (imageContent & s1 & Hd & Hs1 & Hlen).
  exists imageContent, s1.
  unfold analyzePost. unfold mbind at 1, M_bind, Eff.bind at 1. rewrite Hd.
  unfold Eff.tryCatch at 1. cbv zeta.
  destruct (firstAttempt env _ imageContent post s1) as [[extracted|error|] s2] eqn:E1;
    destruct (firstAttempt_sent _ _ _ _ _ _ E1) as [Hs2 Hnd]; [| |done].
  - exists extracted, s2. repeat split; [done|]. by rewrite Hs2, Hs1.
  - destruct (hasImages imageContent && mentionsImage error) eqn:Hretry.
    + unfold mbind, M_bind, Eff.bind.
      destruct (retryAttempt_returns (buildAnalysisPrompt env post focusTopics) post s2)
        as (retried & s3 & E2 & Hs3).
      rewrite E2. eff. exists (default emptyResult retried), s3.
      split; [done|]. split; [done|]. split; [done|]. split.
      * rewrite Hs3, Hs2, Hs1. by rewrite <- app_assoc.
      * by destruct retried.
    + eff. exists emptyResult, s2. repeat split; [done|]. by rewrite Hs2, Hs1.
Qed.

End ServiceFacts.

(** *** A failure that is not retried *)

(** The model answers every request with a rate-limit error. *)
Definition rateLimited : Collaborators :=
  {| messagesCreate := fun _ _ => Rejects (Error "429 rate limit exceeded");
     downloadImageAsBase64 := fun _ _ => None;
     parseAnalysisJson := fun _ => None;
     parseRelevanceJson := fun _ => None;
     buildAnalysisPrompt := fun post _ => post_content post;
     buildRelevancePrompt := fun post _ => post_content post;
     now := fun _ => "2025-01-01T00:00:00.000Z" |}.

(** A post without images. *)
Definition textPost : LinkedInPost :=
  {| post_id := "p1"; post_content := "Three rules for a first call";
     publishedAt := "2025-01-01"; engagement := {| likes := 12; comments := 3; shares := 1 |};
     post_url := "https://www.linkedin.com/posts/p1"; author := "A";
     contentType := None; links := None; imageUrls := None |}.

Definition freshSession : Session := {| calls := 0; sent := []; slept := [] |}.

(** The property as the specification words it: a post whose
    extraction request fails has the request sent a second time. *)
Definition failureIsRetried (env : Collaborators) (post : LinkedInPost)
    (focusTopics : option (list string)) (s : Session) : Prop :=
  forall imageContent s1 error s2,
    downloadImages env post s = (Returned imageContent, s1) ->
    firstAttempt env (buildAnalysisPrompt env post focusTopics) imageContent post s1
      = (Thrown error, s2) ->
    exists first second,
      sent (snd (analyzePost env post focusTopics s)) = sent s ++ [first; second]
      /\ images second = [].

(** C4, counterexample.  The extraction request for a post without
    images fails with a rate-limit error: one request is sent, none
    follows, and the result is empty. *)
Lemma analyzePost_failure_not_retried :
  ~ failureIsRetried rateLimited textPost None freshSession.
Proof.
  intros H.
  destruct (H [] freshSession (Error "429 rate limit exceeded")
              {| calls := 1;
                 sent := [extractionRequest "Three rules for a first call" []];
                 slept := [] |} eq_refl eq_refl)
    as (first & second & Hsent & _).
  vm_compute in Hsent. discriminate Hsent.
Qed.

(** *** Nothing relevant: pass 2 is skipped *)

Section RelevanceFacts.
Variable env : Collaborators.
Variable focusTopics : option (list string).

(** Every score the scoring request can give this post is at most 0.6. *)
Definition scoresAtMostThreshold (post : LinkedInPost) : Prop :=
  forall s score s',
    scorePostRelevance env post focusTopics s = (Returned score, s') ->
    (score <= 6 # 10)%Q.

(** New requests, all of them to the scoring model. *)
Definition onlyScoring (s s' : Session) : Prop :=
  exists scoring, sent s' = sent s ++ scoring
                  /\ Forall (fun request => model request = haiku) scoring.

Lemma onlyScoring_refl s : onlyScoring s s.
Proof. exists []. by rewrite app_nil_r. Qed.

Lemma onlyScoring_trans s1 s2 s3 :
  onlyScoring s1 s2 -> onlyScoring s2 s3 -> onlyScoring s1 s3.
Proof.
  intros (a & Ha & Fa) (b & Hb & Fb). exists (a ++ b).
  split; [by rewrite Hb, Ha, <- app_assoc | by apply Forall_app].
Qed.

Lemma scorePostRelevance_returns post s :
  exists score s',
    scorePostRelevance env post focusTopics s = (Returned score, s')
    /\ onlyScoring s s'.
Proof.
  unfold scorePostRelevance, create, firstBlock. eff.
  assert (Hone : onlyScoring s
            {| calls := S (calls s);
               sent := sent s ++ [relevanceRequest
                                    (buildRelevancePrompt env post focusTopics)];
               slept := slept s |})
    by (eexists [_]; split; [reflexivity | by repeat constructor]).
  destruct (messagesCreate env (calls s) _) as [[|[text|] rest]|e]; eff;
    try (eexists _, _; split; [reflexivity | exact Hone]).
  destruct (parseRelevanceJson env text) as [[relevance|]|]; eff;
    eexists _, _; (split; [reflexivity | exact Hone]).
Qed.

Lemma scoreBatch_returns batch : forall s,
  Forall scoresAtMostThreshold batch ->
  exists batchScores s',
    forEach (scoreOne env focusTopics) batch s = (Returned batchScores, s')
    /\ Forall (fun scored => isRelevant scored = false) batchScores
    /\ onlyScoring s s'.
Proof.
  induction batch as [|post batch IH]; intros s Hall; simpl.
  - exists [], s. split; [done|]. split; [constructor | apply onlyScoring_refl].
  - apply Forall_cons in Hall as [Hpost Hall].
    destruct (scorePostRelevance_returns post s) as (score & s1 & E1 & H1).
    destruct (IH s1 Hall) as (rest & s2 & E2 & Hrest & H2).
    unfold Eff.bind at 1. unfold scoreOne at 1. eff. rewrite E1.
    unfold Eff.bind. rewrite E2. eff.
    exists ((post, score) :: rest), s2. split; [done|]. split.
    + constructor; [|done]. unfold isRelevant. simpl.
      apply negb_false_iff, Qle_bool_iff. by eapply Hpost.
    + by eapply onlyScoring_trans.
Qed.

Lemma scoringPass_returns posts batchSize :
  (0 < batchSize)%nat ->
  Forall scoresAtMostThreshold posts ->
  forall fuel i relevanceScores s,
    (length posts - i <= fuel)%nat ->
    Forall (fun scored => isRelevant scored = false) relevanceScores ->
    exists scores s',
      scoringPass env fuel i posts batchSize focusTopics relevanceScores s
        = (Returned scores, s')
      /\ Forall (fun scored => isRelevant scored = false) scores
      /\ onlyScoring s s'.
Proof.
  intros Hbs Hall. induction fuel as [|fuel IH]; intros i acc s Hfuel Hacc.
  - simpl. destruct (Nat.ltb_spec i (length posts)); [lia|].
    exists acc, s. split; [done|]. split; [done | apply onlyScoring_refl].
  - simpl. destruct (Nat.ltb_spec i (length posts)) as [Hi|Hi].
    + assert (Hbatch : Forall scoresAtMostThreshold (slice i (i + batchSize) posts))
        by (by apply Forall_take, Forall_drop).
      destruct (scoreBatch_returns _ s Hbatch) as (batchScores & s1 & E1 & Hb & H1).
      unfold mbind at 1, M_bind, Eff.bind at 1.
      rewrite E1.
      set (pause := if (i + batchSize <? length posts)%nat then sleep 7000 else mret tt).
      assert (Hpause : exists s2, pause s1 = (Returned tt, s2) /\ sent s2 = sent s1).
      { unfold pause, sleep. destruct (i + batchSize <? length posts)%nat; eff; eauto. }
      destruct Hpause as (s2 & E2 & Hs2).
      unfold mbind, M_bind, Eff.bind. rewrite E2.
      destruct (IH (i + batchSize)%nat (acc ++ batchScores) s2)
        as (scores & s3 & E3 & Hscores & H3); [lia | by apply Forall_app |].
      exists scores, s3. split; [done|]. split; [done|].
      eapply onlyScoring_trans; [exact H1|].
      destruct H3 as (new & Hnew & Fnew). exists new. by rewrite Hnew, Hs2.
    + exists acc, s. split; [done|]. split; [done | apply onlyScoring_refl].
Qed.

(** C5. When every post scores at most 0.6, [batchAnalyzePosts]
    returns no insights, no templates, no actionable items and no
    methodologies, and the extraction pass is not invoked: every
    request sent goes to the scoring model. *)
Theorem batchAnalyzePosts_nothing_relevant
    (posts : list LinkedInPost) (batchSize : nat) (s : Session) :
  (0 < batchSize)%nat ->
  Forall scoresAtMostThreshold posts ->
  exists s',
    batchAnalyzePosts env posts batchSize focusTopics s = (Returned emptyResult, s')
    /\ exists scoring,
         sent s' = sent s ++ scoring
         /\ Forall (fun request => model request = haiku
                                   /\ model request <> sonnet) scoring.
Proof.
  intros Hbs Hall.
  destruct (scoringPass_returns posts batchSize Hbs Hall (length posts) 0 [] s)
    as (scores & s' & E & Hscores & (scoring & Hsent & Hmodel)); [lia | constructor |].
  unfold batchAnalyzePosts. unfold mbind at 1, M_bind, Eff.bind at 1. rewrite E.
  assert (Hnone : List.filter isRelevant scores = []).
  { clear E. induction scores as [|x scores IH]; [done|].
    apply Forall_cons in Hscores as [Hx Hscores]. simpl. rewrite Hx. auto. }
  rewrite Hnone. simpl. exists s'. split; [done|].
  exists scoring. split; [done|].
  eapply Forall_impl; [exact Hmodel|]. intros request ->. by split.
Qed.

(** With a batch size of 0 the loop of pass 1 never advances: on a
    non-empty list of posts the call does not return. *)
Lemma scoringPass_zero_batch posts : forall fuel i relevanceScores s,
  (i < length posts)%nat ->
  fst (scoringPass env fuel i posts 0 focusTopics relevanceScores s) = Diverged.
Proof.
  induction fuel as [|fuel IH]; intros i acc s Hi; simpl;
    destruct (Nat.ltb_spec i (length posts)); try lia; [done|].
  rewrite Nat.add_0_r. unfold slice. rewrite Nat.sub_diag, take_0. simpl.
  destruct (Nat.ltb_spec i (length posts)); [|lia].
  unfold sleep. eff. rewrite app_nil_r. by apply IH.
Qed.

Lemma batchAnalyzePosts_zero_batch post posts s :
  fst (batchAnalyzePosts env (post :: posts) 0 focusTopics s) = Diverged.
Proof.
  unfold batchAnalyzePosts. unfold mbind at 1, M_bind, Eff.bind at 1.
  assert (H : fst (scoringPass env (length (post :: posts)) 0 (post :: posts) 0
                               focusTopics [] s) = Diverged)
    by (apply scoringPass_zero_batch; simpl; lia).
  destruct (scoringPass env _ 0 (post :: posts) 0 focusTopics [] s) as [[?|?|] ?];
    simpl in H; [discriminate H | discriminate H | done].
Qed.

End RelevanceFacts.

(** The scoring model rates every post 0.3. *)
Definition lukewarm : Collaborators :=
  {| messagesCreate := fun _ _ => Resolves [TextBlock "relevance: 0.3"];
     downloadImageAsBase64 := fun _ _ => None;
     parseAnalysisJson := fun _ => None;
     parseRelevanceJson := fun _ => Some (Some (3 # 10));
     buildAnalysisPrompt := fun post _ => post_content post;
     buildRelevancePrompt := fun post _ => post_content post;
     now := fun _ => "2025-01-01T00:00:00.000Z" |}.

Lemma lukewarm_scores post : scoresAtMostThreshold lukewarm None post.
Proof. intros s score s'. vm_compute. intros [= <- _]. discriminate. Qed.

Lemma batchAnalyzePosts_nothing_relevant_witness :
  (0 < 5)%nat
  /\ Forall (scoresAtMostThreshold lukewarm None) [textPost; textPost]
  /\ exists s',
       batchAnalyzePosts lukewarm [textPost; textPost] 5 None freshSession
         = (Returned emptyResult, s')
       /\ exists scoring,
            sent s' = sent freshSession ++ scoring
            /\ Forall (fun request => model request = haiku
                                      /\ model request <> sonnet) scoring.
Proof.
  assert (H : Forall (scoresAtMostThreshold lukewarm None) [textPost; textPost])
    by (repeat constructor; apply lukewarm_scores).
  split; [lia|]. split; [exact H|].
  apply (batchAnalyzePosts_nothing_relevant lukewarm None
           [textPost; textPost] 5 freshSession); [lia | exact H].
Defined.

End ClaudeService.

(* ===================================================================== *)
(** ** src/analyzer.ts: the keyword fallback *)
(* ===================================================================== *)

Module InsightAnalyzer.

Definition calculateConfidence (post : LinkedInPost) (keywordMatches : nat) : Q :=
  (* Base confidence on keyword matches *)
  let confidence := Qmin (inject_Z (Z.of_nat keywordMatches) * (2 # 10)) (8 # 10) in
  (* Boost confidence based on engagement *)
  let totalEngagement :=
    likes (engagement post) + comments (engagement post) + shares (engagement post) in
  let confidence :=
    if 100 <? totalEngagement then (confidence + (1 # 10))%Q else confidence in
  let confidence :=
    if 500 <? totalEngagement then (confidence + (1 # 10))%Q else confidence in
  (* Ensure confidence is between 0 and 1 *)
  Qmin (Qmax confidence (1 # 10)) 1.

(** The extraction model rates a post as relevant and reports an
    insight with confidence 1.5. *)
Definition overconfident : ClaudeService.Collaborators :=
  {| ClaudeService.messagesCreate :=
       fun _ _ => Resolves [ClaudeService.TextBlock "one insight, confidence 1.5"];
     ClaudeService.downloadImageAsBase64 := fun _ _ => None;
     ClaudeService.parseAnalysisJson := fun _ =>
       Some {| ClaudeService.pa_insights :=
                 Some [ {| ClaudeService.ri_category := "TACTICS";
                           ClaudeService.ri_insight := "Lead with research";
                           ClaudeService.ri_confidence := Some (15 # 10) |} ];
               ClaudeService.pa_templates := None;
               ClaudeService.pa_actionableItems := None;
               ClaudeService.pa_methodologies := None |};
     ClaudeService.parseRelevanceJson := fun _ => Some (Some (9 # 10));
     ClaudeService.buildAnalysisPrompt := fun post _ => post_content post;
     ClaudeService.buildRelevancePrompt := fun post _ => post_content post;
     ClaudeService.now := fun _ => "2025-01-01T00:00:00.000Z" |}.

(** The confidences of the insights a call returned. *)
Definition confidencesOf (r : outcome ClaudeService.AnalysisResult * ClaudeService.Session)
  : list Q :=
  match fst r with
  | Returned result => map si_confidence (ClaudeService.insights result)
  | _ => []
  end.

(** C6.  The keyword fallback clamps: every confidence it computes lies
    in [0.1, 1.0].  The extraction path does not: the confidence of an
    insight is the number found in the model's answer ([0.5] when it is
    missing or zero), so an answer carrying 1.5 yields an insight of
    confidence 1.5, from [parseAnalysisResponse] up to
    [batchAnalyzePosts]. *)
Theorem confidence_clamped_by_keyword_path_only :
  (forall post keywordMatches,
      (1 # 10 <= calculateConfidence post keywordMatches <= 1)%Q)
  /\ (forall confidence : Q,
        ClaudeService.confidenceOr (Some confidence)
        = if Qeq_bool confidence 0 then 1 # 2 else confidence)
  /\ confidencesOf
       (ClaudeService.parseAnalysisResponse overconfident
          "one insight, confidence 1.5" ClaudeService.textPost
          ClaudeService.freshSession) = [15 # 10]
  /\ confidencesOf
       (ClaudeService.batchAnalyzePosts overconfident [ClaudeService.textPost] 5
          None ClaudeService.freshSession) = [15 # 10]
  /\ ~ (15 # 10 <= 1)%Q.
Proof.
  split; [|split; [|split; [|split]]].
  - intros post k. unfold calculateConfidence. split.
    + apply Q.min_glb; [apply Q.le_max_r | discriminate].
    + apply Q.le_min_r.
  - reflexivity.
  - by vm_compute.
  - by vm_compute.
  - intros H. by vm_compute in H.
Qed.

End InsightAnalyzer.

(* ===================================================================== *)
(** ** services/worker/src/run-processor.js *)
(* ===================================================================== *)

Module RunProcessor.

(** *** The relational store, the queue and the scraper *)

(** [runs.status] *)
Inductive RunStatus := queued | needs_login | running | completed | failed.

#[global] Instance RunStatus_eq_dec : EqDecision RunStatus.
Proof. solve_decision. Defined.

Inductive OutputFormat := ai_ready | briefing.

(** [runs.config] *)
Record RunConfig := {
  profileUrls : list string;
  topics : list string;
  outputFormat : OutputFormat;
  postLimit : option Z
}.

(** A row of [runs]. *)
Record Run := {
  run_id : string;
  user_id : string;
  status : RunStatus;
  config : RunConfig;
  needs_login_url : option string;
  started_at : option string;
  completed_at : option string;
  failure_reason : option string;
  token_estimate : option Z;
  cost_estimate : option Q
}.

Definition Cookie := string.

(** What [createSession] hands back. *)
Record BrowserlessSession := {
  sessionId : string;
  connectUrl : string;
  wsEndpoint : string;
  expiresAt : option string
}.

(** Event type and payload of a row of [run_events]. *)
Inductive EventBody :=
| NeedsLogin (session : BrowserlessSession) (userId : string)
| StatusChange (status : RunStatus) (reason : option string)
| Completed (tokensUsed : Z) (expertsAnalyzed postsAnalyzed : nat).

Record RunEvent := {
  ev_run_id : string;
  ev_body : EventBody
}.

Definition statusName (s : RunStatus) : string :=
  match s with
  | queued => "queued" | needs_login => "needs_login" | running => "running"
  | completed => "completed" | failed => "failed"
  end.

(** [run_events.event_type] *)
Definition event_type (e : RunEvent) : string :=
  match ev_body e with
  | NeedsLogin _ _ => "needs_login"
  | StatusChange s _ => "status_" +:+ statusName s
  | Completed _ _ _ => "completed"
  end.

(** A row of [linked_sessions]; rows are kept in the order of
    [created_at]. *)
Record LinkedSession := {
  ls_id : string;
  ls_user_id : string;
  encrypted_payload : string;
  ls_expires_at : option string;
  is_active : bool
}.

(** A row of [usage_counters], keyed by user and period start. *)
Record UsageCounter := {
  runs_used : Z;
  tokens_used : Z
}.

(** A row of [run_artifacts]. *)
Record Artifact := {
  art_run_id : string;
  artifact_type : string;
  storage_path : string;
  content_sha256 : string;
  bytes : nat
}.

Record RunJobData := {
  runId : string;
  userId : string
}.

(** A job handed to [requeueQueue.add]. *)
Record QueuedJob := {
  job_name : string;
  job_data : RunJobData;
  job_delay : Z
}.

(** An [UPDATE runs SET status = ...] sent to the store, and whether
    the store applied it. *)
Record StatusUpdate := {
  upd_run : string;
  upd_status : RunStatus;
  upd_reason : option string;
  upd_applied : bool
}.

(** Everything outside the worker process.  [tick] counts the calls
    made to the outside; [journal] lists the status updates sent to
    the store, oldest first; [closed] counts the calls of
    [scraper.close()]. *)
Record World := {
  tick : nat;
  runs : gmap string Run;
  run_events : list RunEvent;
  linked_sessions : list LinkedSession;
  usage_counters : gmap (string * string) UsageCounter;
  run_artifacts : list Artifact;
  queue : list QueuedJob;
  closed : nat;
  journal : list StatusUpdate
}.

Definition withTick (f : nat -> nat) (w : World) : World :=
  {| tick := f (tick w); runs := runs w; run_events := run_events w;
     linked_sessions := linked_sessions w; usage_counters := usage_counters w;
     run_artifacts := run_artifacts w; queue := queue w; closed := closed w;
     journal := journal w |}.

Definition withRuns (f : gmap string Run -> gmap string Run) (w : World) : World :=
  {| tick := tick w; runs := f (runs w); run_events := run_events w;
     linked_sessions := linked_sessions w; usage_counters := usage_counters w;
     run_artifacts := run_artifacts w; queue := queue w; closed := closed w;
     journal := journal w |}.

Definition withEvents (f : list RunEvent -> list RunEvent) (w : World) : World :=
  {| tick := tick w; runs := runs w; run_events := f (run_events w);
     linked_sessions := linked_sessions w; usage_counters := usage_counters w;
     run_artifacts := run_artifacts w; queue := queue w; closed := closed w;
     journal := journal w |}.

Definition withSessions (f : list LinkedSession -> list LinkedSession) (w : World)
  : World :=
  {| tick := tick w; runs := runs w; run_events := run_events w;
     linked_sessions := f (linked_sessions w); usage_counters := usage_counters w;
     run_artifacts := run_artifacts w; queue := queue w; closed := closed w;
     journal := journal w |}.

Definition withUsage
    (f : gmap (string * string) UsageCounter -> gmap (string * string) UsageCounter)
    (w : World) : World :=
  {| tick := tick w; runs := runs w; run_events := run_events w;
     linked_sessions := linked_sessions w; usage_counters := f (usage_counters w);
     run_artifacts := run_artifacts w; queue := queue w; closed := closed w;
     journal := journal w |}.

Definition withArtifacts (f : list Artifact -> list Artifact) (w : World) : World :=
  {| tick := tick w; runs := runs w; run_events := run_events w;
     linked_sessions := linked_sessions w; usage_counters := usage_counters w;
     run_artifacts := f (run_artifacts w); queue := queue w; closed := closed w;
     journal := journal w |}.

Definition withQueue (f : list QueuedJob -> list QueuedJob) (w : World) : World :=
  {| tick := tick w; runs := runs w; run_events := run_events w;
     linked_sessions := linked_sessions w; usage_counters := usage_counters w;
     run_artifacts := run_artifacts w; queue := f (queue w); closed := closed w;
     journal := journal w |}.

Definition withClosed (f : nat -> nat) (w : World) : World :=
  {| tick := tick w; runs := runs w; run_events := run_events w;
     linked_sessions := linked_sessions w; usage_counters := usage_counters w;
     run_artifacts := run_artifacts w; queue := queue w; closed := f (closed w);
     journal := journal w |}.

Definition withJournal (f : list StatusUpdate -> list StatusUpdate) (w : World)
  : World :=
  {| tick := tick w; runs := runs w; run_events := run_events w;
     linked_sessions := linked_sessions w; usage_counters := usage_counters w;
     run_artifacts := run_artifacts w; queue := queue w; closed := closed w;
     journal := f (journal w) |}.

(** *** Collaborators *)

(** The session the worker scrapes with. *)
Record Session := {
  sess_id : string;
  cookies : list Cookie;
  sess_expiresAt : option string
}.

(** [scrapeProfiles] result; [byExpert] holds the entries of the
    object in the order [Object.entries] lists them. *)
Record ScrapeResult := {
  allPosts : list LinkedInPost;
  byExpert : list (string * list LinkedInPost)
}.

(** What the worker reads of an analysis. *)
Record Analysis := {
  tokenUsage : option Z;
  body : InsightAnalysis
}.

Inductive AnalyzerFormat := instructions | markdown.

Record ScrapingConfig := {
  linkedinUsername : string;
  sc_postLimit : option Z;
  focusTopics : list string;
  sc_outputFormat : AnalyzerFormat
}.

Record ExpertFile := {
  ef_username : string;
  ef_content : string
}.

Record KnowledgeBundle := {
  instructionsMarkdown : string;
  expertMarkdownFiles : list ExpertFile
}.

(** The configuration and the collaborators of the worker.  The
    outcome of a call may depend on the number of calls made before
    it. *)
Record Collaborators := {
  requeueDelayMs : Z;
  costPerMillionTokens : Q;
  (** the error PostgREST answers a statement with, if any *)
  dbError : nat -> option JsError;
  (** [new Date().toISOString()] *)
  now : nat -> string;
  (** [gen_random_uuid()] *)
  newId : nat -> string;
  createSession : nat -> settled BrowserlessSession;
  captureCookiesFromSession : nat -> BrowserlessSession -> settled (list Cookie);
  encryptCookies : nat -> list Cookie -> string;
  decryptCookies : string -> settled (list Cookie);
  (** [requeueQueue.add] rejecting *)
  queueAddError : nat -> option JsError;
  scraperInit : nat -> list Cookie -> settled unit;
  scrapeProfiles : nat -> list string -> option Z -> list string -> settled ScrapeResult;
  exportCookies : nat -> settled (list Cookie);
  scraperClose : nat -> settled unit;
  loadInsightAnalyzerCtor : nat -> settled unit;
  analyzeInsights : nat -> list LinkedInPost -> ScrapingConfig -> settled Analysis;
  loadFormatterInstance : nat -> settled unit;
  buildKnowledgeBundle :
    nat -> Analysis -> list (string * Analysis) -> list string -> option Z
    -> settled KnowledgeBundle;
  (** [supabase.storage.from(bucket).upload] answering with an error *)
  uploadError : nat -> option JsError;
  sha256 : string -> string
}.

(** The answer of [.single()] on an empty result. *)
Definition PGRST116 : JsError :=
  {| err_code := Some "PGRST116";
     err_message := Some "JSON object requested, multiple (or no) rows returned" |}.

(** [error.code !== 'PGRST116'] *)
Definition isNotFound (error : JsError) : bool :=
  bool_decide (err_code error = Some "PGRST116").

(** [Number(x.toFixed(4))], rounding to the nearest ten-thousandth, in
    exact arithmetic; the code rounds the floating-point product, which
    can differ from the exact one in the last digit when the product is
    half a ten-thousandth away from the next. *)
Definition toFixed4 (x : Q) : Q :=
  Qmake (Qfloor (x * 10000 + (1 # 2))) 10000.

Section Processor.
Variable env : Collaborators.

(** A call to the outside: it gets the next number. *)
Definition outside : M World nat :=
  n ← gets tick;
  modify (withTick S);;
  mret n.

(** A statement sent to the store, answered with [error]. *)
Definition statement : M World (option JsError) :=
  n ← outside;
  mret (dbError env n).

(** A [select ... .single()]: [{ data, error }]. *)
Definition single {A} (row : World -> option A)
  : M World (option A * option JsError) :=
  error ← statement;
  match error with
  | Some e => mret (None, Some e)
  | None =>
      data ← gets row;
      mret (data, match data with Some _ => None | None => Some PGRST116 end)
  end.

(** [if (error && error.code !== 'PGRST116') throw error] *)
Definition throwUnlessNotFound (error : option JsError) : M World unit :=
  match error with
  | Some e => if isNotFound e then mret tt else throw e
  | None => mret tt
  end.

(** [if (error) throw error] *)
Definition throwIf (error : option JsError) : M World unit :=
  match error with
  | Some e => throw e
  | None => mret tt
  end.

Definition fetchRun (runId : string) : M World (option Run) :=
  '(data, error) ← single (fun w => runs w !! runId);
  throwUnlessNotFound error;;
  mret data.

(** The newest row of [linked_sessions] that is active for the user. *)
Definition activeRow (userId : string) (w : World) : option LinkedSession :=
  last (filter (fun row => ls_user_id row = userId /\ is_active row = true)
               (linked_sessions w)).

Definition getActiveSession (userId : string) : M World (option Session) :=
  '(data, error) ← single (activeRow userId);
  throwUnlessNotFound error;;
  match data with
  | None => mret None
  | Some row =>
      decrypted ← await (decryptCookies env (encrypted_payload row));
      mret (Some {| sess_id := ls_id row; cookies := decrypted;
                    sess_expiresAt := ls_expires_at row |})
  end.

(** The payload of the newest [needs_login] event of the run. *)
Definition latestLogin (runId : string) (w : World)
  : option (BrowserlessSession * string) :=
  last (omap (fun e => match ev_body e with
                       | NeedsLogin session userId =>
                           if bool_decide (ev_run_id e = runId)
                           then Some (session, userId) else None
                       | _ => None
                       end) (run_events w)).

Definition getLatestLoginEvent (runId : string)
  : M World (option (BrowserlessSession * string)) :=
  '(data, error) ← single (latestLogin runId);
  throwUnlessNotFound error;;
  mret data.

Definition deactivate (userId : string) (row : LinkedSession) : LinkedSession :=
  if bool_decide (ls_user_id row = userId)
  then {| ls_id := ls_id row; ls_user_id := ls_user_id row;
          encrypted_payload := encrypted_payload row;
          ls_expires_at := ls_expires_at row; is_active := false |}
  else row.

Definition saveSession (userId : string) (cookies : list Cookie)
    (expiresAt : option string) : M World unit :=
  n ← gets tick;
  let payload := encryptCookies env n cookies in
  (* the answer of the update is not looked at *)
  ignored ← statement;
  (if ignored is None then modify (withSessions (map (deactivate userId)))
   else mret tt);;
  n ← gets tick;
  error ← statement;
  throwIf error;;
  modify (withSessions (fun rows =>
    rows ++ [{| ls_id := newId env n; ls_user_id := userId;
                encrypted_payload := payload; ls_expires_at := expiresAt;
                is_active := true |}])).

(** The [updates] of [updateRunStatus], applied to a row. *)
Definition statusUpdates (status : RunStatus) (reason : option string)
    (nowIso : string) (r : Run) : Run :=
  {| run_id := run_id r; user_id := user_id r; status := status; config := config r;
     needs_login_url := needs_login_url r;
     started_at := if decide (status = running) then Some nowIso else started_at r;
     completed_at := if decide (status = completed) then Some nowIso
                     else completed_at r;
     failure_reason := if decide (status = failed)
                       then Some (default "unknown" reason)
                       else failure_reason r;
     token_estimate := token_estimate r; cost_estimate := cost_estimate r |}.

(** An [update] of [runs] for one id: sent, noted in the journal,
    applied when the store accepts it. *)
Definition updateRun (runId : string) (status : RunStatus) (reason : option string)
    (change : Run -> Run) : M World (option JsError) :=
  error ← statement;
  modify (withJournal (fun j =>
    j ++ [{| upd_run := runId; upd_status := status; upd_reason := reason;
             upd_applied := if error is None then true else false |}]));;
  (if error is None then modify (withRuns (alter change runId)) else mret tt);;
  mret error.

(** An [insert] into [run_events]. *)
Definition insertEvent (runId : string) (body : EventBody)
  : M World (option JsError) :=
  error ← statement;
  (if error is None
   then modify (withEvents (fun es => es ++ [{| ev_run_id := runId; ev_body := body |}]))
   else mret tt);;
  mret error.

(** [payload] is [{}] ([None]) or [{ reason }]. *)
Definition updateRunStatus (runId : string) (status : RunStatus)
    (payload : option string) : M World unit :=
  n ← gets tick;
  let reason := if decide (status = failed) then Some (default "unknown" payload)
                else None in
  error ← updateRun runId status reason (statusUpdates status payload (now env n));
  throwIf error;;
  eventError ← insertEvent runId (StatusChange status payload);
  throwIf eventError.

(** [`${new Date().toISOString().slice(0, 7)}-01`] *)
Definition periodStart (nowIso : string) : string :=
  String.substring 0 7 nowIso +:+ "-01".

(** The [select] of [incrementTokenUsage]: the counters read, 0 for a
    missing row. *)
Definition readUsage (userId period : string) : M World (Z * Z) :=
  '(data, error) ← single (fun w => usage_counters w !! (userId, period));
  throwUnlessNotFound error;;
  let runsUsed := default 0 (runs_used <$> data) in
  let tokensUsed := default 0 (tokens_used <$> data) in
  mret (runsUsed, tokensUsed).

(** Its [upsert] on [user_id, period_start]. *)
Definition writeUsage (userId period : string) (runsUsed tokensTotal : Z)
  : M World unit :=
  upsertError ← statement;
  (if upsertError is None
   then modify (withUsage (insert (userId, period)
                  {| runs_used := runsUsed; tokens_used := tokensTotal |}))
   else mret tt);;
  throwIf upsertError.

Definition incrementTokenUsage (userId : string) (tokens : Z) : M World unit :=
  n ← gets tick;
  let period := periodStart (now env n) in
  '(runsUsed, tokensUsed) ← readUsage userId period;
  writeUsage userId period runsUsed (tokensUsed + tokens).

(** The function [increment_run_usage] of the schema, which the API
    calls through [supabase.rpc]: one statement,
    [INSERT ... ON CONFLICT DO UPDATE SET runs_used = runs_used + 1]. *)
Definition increment_run_usage (userId period : string) : M World unit :=
  error ← statement;
  (if error is None
   then modify (withUsage (fun counters =>
          match counters !! (userId, period) with
          | Some c => <[(userId, period) :=
                         {| runs_used := runs_used c + 1;
                            tokens_used := tokens_used c |}]> counters
          | None => <[(userId, period) :=
                       {| runs_used := 1; tokens_used := 0 |}]> counters
          end))
   else mret tt);;
  throwIf error.

(** Two calls of [incrementTokenUsage] on two workers, the store
    answering the two selects before the two upserts. *)
Definition incrementTokenUsageInterleaved (userId : string) (tokensA tokensB : Z)
  : M World unit :=
  n ← gets tick;
  let period := periodStart (now env n) in
  a ← readUsage userId period;
  b ← readUsage userId period;
  writeUsage userId period (fst a) (snd a + tokensA);;
  writeUsage userId period (fst b) (snd b + tokensB).

(** services/worker/src/browser-login.ts *)
Definition ensureLoginSession (runId userId : string) : M World unit :=
  n ← outside;
  session ← await (createSession env n);
  updateError ← updateRun runId needs_login None (fun r =>
    {| run_id := run_id r; user_id := user_id r; status := needs_login;
       config := config r; needs_login_url := Some (connectUrl session);
       started_at := started_at r; completed_at := completed_at r;
       failure_reason := failure_reason r; token_estimate := token_estimate r;
       cost_estimate := cost_estimate r |});
  throwIf updateError;;
  insertError ← insertEvent runId (NeedsLogin session userId);
  throwIf insertError.

(** services/worker/src/storage.ts *)
Definition storeArtifact (runId artifactType content : string) : M World unit :=
  let path := runId +:+ "/" +:+ artifactType +:+ ".md" in
  n ← outside;
  throwIf (uploadError env n);;
  insertError ← statement;
  throwIf insertError;;
  modify (withArtifacts (fun rows =>
    rows ++ [{| art_run_id := runId; artifact_type := artifactType;
                storage_path := path; content_sha256 := sha256 env content;
                bytes := String.length content |}])).

(** [requeueQueue.add('run', data, { delay: config.requeueDelayMs })] *)
Definition requeue (data : RunJobData) : M World unit :=
  n ← outside;
  throwIf (queueAddError env n);;
  modify (withQueue (fun jobs =>
    jobs ++ [{| job_name := "run"; job_data := data;
                job_delay := requeueDelayMs env |}])).

(** How the login block of [processRunJob] ends: the job was put
    back on the queue and the function returns, or a session is at
    hand. *)
Inductive LoginStep :=
| Requeued
| Proceed (session : Session).

(** The [try]/[catch] around the cookie capture. *)
Definition awaitLogin (data : RunJobData) (run : Run)
    (pending : BrowserlessSession * string) : M World LoginStep :=
  let handle := fst pending in
  tryCatch
    (n ← outside;
     captured ← await (captureCookiesFromSession env n handle);
     if captured is [] then
       requeue data;;
       mret Requeued
     else
       saveSession (user_id run) captured (expiresAt handle);;
       mret (Proceed {| sess_id := "captured"; cookies := captured;
                        sess_expiresAt := expiresAt handle |}))
    (fun error =>
       requeue data;;
       mret Requeued).

Definition analyzerConfig (run : Run) (username : string) (format : AnalyzerFormat)
  : ScrapingConfig :=
  {| linkedinUsername := username; sc_postLimit := postLimit (config run);
     focusTopics := topics (config run); sc_outputFormat := format |}.

Definition analyzeExpert (run : Run) (entry : string * list LinkedInPost)
  : M World (string * Analysis) :=
  n ← outside;
  analysed ← await (analyzeInsights env n (snd entry)
                      (analyzerConfig run (fst entry) instructions));
  mret (fst entry, analysed).

Definition storeExpertFile (run : Run) (expertFile : ExpertFile) : M World unit :=
  storeArtifact (run_id run) ("expert-" +:+ ef_username expertFile)
                (ef_content expertFile).

(** From the scrape to the usage counters. *)
Definition scrapeAndPersist (run : Run) (session : Session)
  : M World (ScrapeResult * Z) :=
  n ← outside;
  scrapeResult ← await (scrapeProfiles env n (profileUrls (config run))
                          (postLimit (config run)) (topics (config run)));
  n ← outside;
  await (loadInsightAnalyzerCtor env n);;
  n ← outside;
  aggregateAnalysis ←
    await (analyzeInsights env n (allPosts scrapeResult)
             (analyzerConfig run ""
                (if outputFormat (config run) is ai_ready
                 then instructions else markdown)));
  perExpertAnalysis ← forEach (analyzeExpert run) (byExpert scrapeResult);
  n ← outside;
  await (loadFormatterInstance env n);;
  n ← outside;
  bundle ← await (buildKnowledgeBundle env n aggregateAnalysis perExpertAnalysis
                    (topics (config run)) (postLimit (config run)));
  storeArtifact (run_id run) "instructions" (instructionsMarkdown bundle);;
  forEach (storeExpertFile run) (expertMarkdownFiles bundle);;
  n ← outside;
  refreshedCookies ← await (exportCookies env n);
  (if refreshedCookies is [] then mret tt
   else saveSession (user_id run) refreshedCookies (sess_expiresAt session));;
  let tokensUsed := default 0 (tokenUsage aggregateAnalysis) in
  incrementTokenUsage (user_id run) tokensUsed;;
  mret (scrapeResult, tokensUsed).

(** The last two statements of the [try]; their answers are not
    looked at. *)
Definition markCompleted (run : Run) (scrapeResult : ScrapeResult) (tokensUsed : Z)
  : M World unit :=
  n ← gets tick;
  updateRun (run_id run) completed None (fun r =>
    {| run_id := run_id r; user_id := user_id r; status := completed;
       config := config r; needs_login_url := needs_login_url r;
       started_at := started_at r; completed_at := Some (now env n);
       failure_reason := failure_reason r;
       token_estimate := Some tokensUsed;
       cost_estimate :=
         Some (toFixed4 (inject_Z tokensUsed / 1000000
                         * costPerMillionTokens env)) |});;
  insertEvent (run_id run)
    (Completed tokensUsed (length (byExpert scrapeResult))
               (length (allPosts scrapeResult)));;
  mret tt.

(** The body of the [try]. *)
Definition processing (run : Run) (session : Session) : M World unit :=
  n ← outside;
  await (scraperInit env n (cookies session));;
  updateRunStatus (run_id run) running None;;
  '(scrapeResult, tokensUsed) ← scrapeAndPersist run session;
  markCompleted run scrapeResult tokensUsed.

(** [error?.message ?? 'unknown_error'] *)
Definition reasonOf (error : JsError) : string :=
  default "unknown_error" (err_message error).

(** The [catch]. *)
Definition recordFailure (run : Run) (error : JsError) : M World unit :=
  updateRunStatus (run_id run) failed (Some (reasonOf error));;
  throw error.

(** [await scraper.close()] *)
Definition close : M World unit :=
  modify (withClosed S);;
  n ← outside;
  await (scraperClose env n).

(** [try { ... } catch (error) { ... } finally { await scraper.close() }] *)
Definition processWithScraper (run : Run) (session : Session) : M World unit :=
  tryFinally (tryCatch (processing run session) (recordFailure run)) close.

Definition resolveSession (data : RunJobData) (run : Run) : M World LoginStep :=
  active ← getActiveSession (user_id run);
  match active with
  | Some session => mret (Proceed session)
  | None =>
      pending ← getLatestLoginEvent (run_id run);
      match pending with
      | None =>
          ensureLoginSession (run_id run) (user_id run);;
          requeue data;;
          mret Requeued
      | Some pending => awaitLogin data run pending
      end
  end.

Definition processRunJob (data : RunJobData) : M World unit :=
  found ← fetchRun (runId data);
  match found with
  | None => mret tt
  | Some run =>
      step ← resolveSession data run;
      match step with
      | Requeued => mret tt
      | Proceed session => processWithScraper run session
      end
  end.

End Processor.

(** *** Reasoning about the worker's computations *)

Lemma bind_inv {A B} (m : M World A) (k : A -> M World B) w o w' :
  (m ≫= k) w = (o, w') ->
  (exists a w1, m w = (Returned a, w1) /\ k a w1 = (o, w'))
  \/ (exists e, m w = (Thrown e, w') /\ o = Thrown e)
  \/ (m w = (Diverged, w') /\ o = Diverged).
Proof.
  unfold mbind, M_bind, Eff.bind.
  destruct (m w) as [[a|e|] w1]; intros H.
  - left. by exists a, w1.
  - right. left. exists e. by inversion H.
  - right. right. by inversion H.
Qed.

Lemma ret_inv {A} (a : A) (w : World) o w' :
  (mret a : M World A) w = (o, w') -> o = Returned a /\ w' = w.
Proof. by intros [= <- <-]. Qed.

(** Steps a hypothesis [H : (x ← m; k) w = (o, w')] through [m]. *)
Ltac step H a w1 H1 :=
  apply bind_inv in H as [(a & w1 & H1 & H) | [(? & H1 & ->) | (H1 & ->)]].

(** The same, for an outcome that is already known. *)
Ltac step_known H a w1 H1 :=
  apply bind_inv in H as [(a & w1 & H1 & H) | [(? & H1 & H) | (H1 & H)]].

(** What the parts of the job that do not write [runs], [run_events]
    or the queue leave alone. *)
Definition sameRunState (w w' : World) : Prop :=
  runs w' = runs w /\ run_events w' = run_events w /\ journal w' = journal w
  /\ queue w' = queue w /\ closed w' = closed w.

Lemma sameRunState_refl w : sameRunState w w.
Proof. by repeat split. Qed.

Lemma sameRunState_trans w1 w2 w3 :
  sameRunState w1 w2 -> sameRunState w2 w3 -> sameRunState w1 w3.
Proof.
  intros (a1 & a2 & a3 & a4 & a5) (b1 & b2 & b3 & b4 & b5).
  repeat split; congruence.
Qed.

(** The computation settles and keeps the run state. *)
Definition Quiet {A} (m : M World A) : Prop :=
  forall w o w', m w = (o, w') -> sameRunState w w' /\ o <> Diverged.

Lemma Quiet_ret {A} (a : A) : Quiet (mret a).
Proof. intros w o w' [= <- <-]. split; [apply sameRunState_refl | done]. Qed.

Lemma Quiet_throw {A} e : Quiet (@throw World A e).
Proof. intros w o w' [= <- <-]. split; [apply sameRunState_refl | done]. Qed.

Lemma Quiet_await {A} (p : settled A) : Quiet (@await World A p).
Proof.
  intros w o w'. unfold await. destruct p; intros [= <- <-];
    (split; [apply sameRunState_refl | done]).
Qed.

Lemma Quiet_gets {A} (f : World -> A) : Quiet (gets f).
Proof. intros w o w' [= <- <-]. split; [apply sameRunState_refl | done]. Qed.

Lemma Quiet_modify (f : World -> World) :
  (forall w, sameRunState w (f w)) -> Quiet (modify f).
Proof. intros Hf w o w' [= <- <-]. split; [apply Hf | done]. Qed.

Lemma Quiet_bind {A B} (m : M World A) (k : A -> M World B) :
  Quiet m -> (forall a, Quiet (k a)) -> Quiet (m ≫= k).
Proof.
  intros Hm Hk w o w' H.
  apply bind_inv in H as [(a & w1 & H1 & H) | [(e & H1 & ->) | (H1 & ->)]].
  - destruct (Hm _ _ _ H1) as [R1 _]. destruct (Hk a _ _ _ H) as [R2 Ho].
    split; [by eapply sameRunState_trans | done].
  - destruct (Hm _ _ _ H1) as [R1 _]. by split.
  - by destruct (Hm _ _ _ H1) as [_ ?].
Qed.

Lemma Quiet_tryCatch {A} (m : M World A) (h : JsError -> M World A) :
  Quiet m -> (forall e, Quiet (h e)) -> Quiet (tryCatch m h).
Proof.
  intros Hm Hh w o w'. unfold tryCatch.
  destruct (m w) as [[a|e|] w1] eqn:E; intros H;
    destruct (Hm _ _ _ E) as [R1 Hd]; [| |done].
  - inversion H; subst. by split.
  - destruct (Hh e _ _ _ H) as [R2 Ho].
    split; [by eapply sameRunState_trans | done].
Qed.

Lemma Quiet_forEach {A B} (f : A -> M World B) (xs : list A) :
  (forall x, Quiet (f x)) -> Quiet (forEach f xs).
Proof.
  intros Hf. induction xs as [|x xs IH]; simpl.
  - apply (Quiet_ret []).
  - apply (Quiet_bind (f x)); [apply Hf|]. intros b.
    apply (Quiet_bind (forEach f xs)); [apply IH|]. intros bs.
    apply (Quiet_ret (b :: bs)).
Qed.

Create HintDb quiet.
#[local] Hint Resolve Quiet_ret Quiet_throw Quiet_await Quiet_gets
  Quiet_bind Quiet_tryCatch Quiet_forEach sameRunState_refl : quiet.

(** Takes a computation apart along its binds and case distinctions. *)
Ltac quiet :=
  repeat first
    [ apply Quiet_ret | apply Quiet_throw | apply Quiet_await | apply Quiet_gets
    | apply Quiet_modify; intros ?; by repeat split
    | apply Quiet_bind; [|intros ?]
    | apply Quiet_tryCatch; [|intros ?]
    | apply Quiet_forEach; intros ?
    | progress cbv zeta
    | match goal with
      | |- Quiet (match ?x with _ => _ end) => destruct x
      | |- Quiet (let '(_, _) := ?x in _) => destruct x
      end
    | solve [eauto with quiet] ].

Section QuietParts.
Variable env : Collaborators.

Lemma Quiet_outside : Quiet outside.
Proof. unfold outside. quiet. Qed.

Lemma Quiet_statement : Quiet (statement env).
Proof. unfold statement. pose proof Quiet_outside. quiet. Qed.

Lemma Quiet_throwIf error : Quiet (throwIf error).
Proof. unfold throwIf. quiet. Qed.

Lemma Quiet_throwUnlessNotFound error : Quiet (throwUnlessNotFound error).
Proof. unfold throwUnlessNotFound. quiet. Qed.

Lemma Quiet_single {A} (row : World -> option A) : Quiet (single env row).
Proof. unfold single. pose proof Quiet_statement. quiet. Qed.

Hint Resolve Quiet_outside Quiet_statement Quiet_throwIf
  Quiet_throwUnlessNotFound Quiet_single : quiet.

Lemma Quiet_fetchRun runId : Quiet (fetchRun env runId).
Proof. unfold fetchRun. quiet. Qed.

Lemma Quiet_getActiveSession userId : Quiet (getActiveSession env userId).
Proof. unfold getActiveSession. quiet. Qed.

Lemma Quiet_getLatestLoginEvent runId : Quiet (getLatestLoginEvent env runId).
Proof. unfold getLatestLoginEvent. quiet. Qed.

Lemma Quiet_saveSession userId captured expires :
  Quiet (saveSession env userId captured expires).
Proof. unfold saveSession. quiet. Qed.

Lemma Quiet_incrementTokenUsage userId tokens :
  Quiet (incrementTokenUsage env userId tokens).
Proof. unfold incrementTokenUsage, readUsage, writeUsage. quiet. Qed.

Lemma Quiet_storeArtifact runId artifactType content :
  Quiet (storeArtifact env runId artifactType content).
Proof. unfold storeArtifact. quiet. Qed.

Hint Resolve Quiet_fetchRun Quiet_getActiveSession Quiet_getLatestLoginEvent
  Quiet_saveSession Quiet_incrementTokenUsage Quiet_storeArtifact : quiet.

Lemma Quiet_scrapeAndPersist run session : Quiet (scrapeAndPersist env run session).
Proof. unfold scrapeAndPersist, analyzeExpert, storeExpertFile. quiet. Qed.

End QuietParts.

(** Unfolds the monadic operations and the two ways to call outside. *)
Ltac run :=
  unfold statement, outside, throwIf in *;
  unfold mbind, mret, M_bind, M_ret, Eff.bind, Eff.ret, Eff.throw, Eff.await,
    Eff.tryCatch, Eff.gets, Eff.modify in *;
  simpl in *.

Lemma bind_returned {A B} (m : M World A) (k : A -> M World B) w a w1 :
  m w = (Returned a, w1) -> (m ≫= k) w = k a w1.
Proof. intros H. unfold mbind, M_bind, Eff.bind. by rewrite H. Qed.

Lemma bind_thrown {A B} (m : M World A) (k : A -> M World B) w e w1 :
  m w = (Thrown e, w1) -> (m ≫= k) w = (Thrown e, w1).
Proof. intros H. unfold mbind, M_bind, Eff.bind. by rewrite H. Qed.

(** A bind whose first part is quiet: it goes on, or it throws. *)
Lemma bind_quiet_inv {A B} (m : M World A) (k : A -> M World B) w o w' :
  Quiet m ->
  (m ≫= k) w = (o, w') ->
  (exists a w1, sameRunState w w1 /\ k a w1 = (o, w'))
  \/ (exists e, o = Thrown e /\ sameRunState w w').
Proof.
  intros Hm H.
  apply bind_inv in H as [(a & w1 & H1 & H) | [(e & H1 & ->) | (H1 & ->)]].
  - left. exists a, w1. split; [by apply (Hm _ _ _ H1) | done].
  - right. exists e. split; [done | by apply (Hm _ _ _ H1)].
  - by destruct (Hm _ _ _ H1).
Qed.

Section WritingParts.
Variable env : Collaborators.

(** The job [requeue] puts on the queue. *)
Definition followUp (data : RunJobData) : QueuedJob :=
  {| job_name := "run"; job_data := data; job_delay := requeueDelayMs env |}.

Lemma requeue_inv data w o w' :
  requeue env data w = (o, w') ->
  runs w' = runs w /\ run_events w' = run_events w /\ journal w' = journal w
  /\ closed w' = closed w /\ tick w' = S (tick w)
  /\ match queueAddError env (tick w) with
     | None => o = Returned tt /\ queue w' = queue w ++ [followUp data]
     | Some e => o = Thrown e /\ queue w' = queue w
     end.
Proof.
  unfold requeue. run. destruct (queueAddError env (tick w)); run;
    intros [= <- <-]; by repeat split.
Qed.

(** The journal entry of an update. *)
Definition journalEntry (runId : string) (status : RunStatus)
    (reason : option string) (error : option JsError) : StatusUpdate :=
  {| upd_run := runId; upd_status := status; upd_reason := reason;
     upd_applied := if error is None then true else false |}.

Lemma updateRun_inv runId status reason change w o w' :
  updateRun env runId status reason change w = (o, w') ->
  o = Returned (dbError env (tick w))
  /\ tick w' = S (tick w)
  /\ journal w' = journal w
                    ++ [journalEntry runId status reason (dbError env (tick w))]
  /\ runs w' = (if dbError env (tick w) is None
                then alter change runId (runs w) else runs w)
  /\ run_events w' = run_events w /\ queue w' = queue w /\ closed w' = closed w.
Proof.
  unfold updateRun, journalEntry. run. destruct (dbError env (tick w)); run;
    intros [= <- <-]; by repeat split.
Qed.

Lemma insertEvent_inv runId body w o w' :
  insertEvent env runId body w = (o, w') ->
  o = Returned (dbError env (tick w))
  /\ tick w' = S (tick w)
  /\ journal w' = journal w /\ runs w' = runs w
  /\ run_events w' = (if dbError env (tick w) is None
                      then run_events w ++ [{| ev_run_id := runId; ev_body := body |}]
                      else run_events w)
  /\ queue w' = queue w /\ closed w' = closed w.
Proof.
  unfold insertEvent. run. destruct (dbError env (tick w)); run;
    intros [= <- <-]; by repeat split.
Qed.

(** [updateRunStatus]: the update is sent once; the event row follows
    when the store took the update, and the call returns when it
    took both. *)
Lemma updateRunStatus_inv runId st payload w o w' :
  updateRunStatus env runId st payload w = (o, w') ->
  let reason := if decide (st = failed) then Some (default "unknown" payload)
                else None in
  journal w' = journal w ++ [journalEntry runId st reason (dbError env (tick w))]
  /\ queue w' = queue w /\ closed w' = closed w
  /\ match dbError env (tick w) with
     | Some e => o = Thrown e /\ runs w' = runs w /\ run_events w' = run_events w
     | None =>
         runs w' = alter (statusUpdates st payload (now env (tick w))) runId (runs w)
         /\ match dbError env (S (tick w)) with
            | Some e => o = Thrown e /\ run_events w' = run_events w
            | None =>
                o = Returned tt
                /\ run_events w' = run_events w
                     ++ [{| ev_run_id := runId; ev_body := StatusChange st payload |}]
            end
     end.
Proof.
  unfold updateRunStatus. intros H. cbv zeta in H.
  step H n w0 H0. 2,3: by inversion H0.
  inversion H0; subst n w0; clear H0.
  step H err w1 H1;
    destruct (updateRun_inv _ _ _ _ _ _ _ H1) as (Ho & Ht & Hj & Hr & He & Hq & Hc);
    try discriminate Ho.
  inversion Ho; subst err; clear Ho.
  destruct (dbError env (tick w)) as [e|].
  - inversion H; subst. by repeat split.
  - run. step H eventError w2 H2;
      destruct (insertEvent_inv _ _ _ _ _ H2) as (Ho & Ht2 & Hj2 & Hr2 & He2 & Hq2 & Hc2);
      try discriminate Ho.
    inversion Ho; subst eventError; clear Ho.
    rewrite Ht in *.
    destruct (dbError env (S (tick w))) as [e|]; inversion H; subst;
      repeat split; congruence.
Qed.

Lemma close_inv w o w' :
  close env w = (o, w') ->
  o <> Diverged /\ runs w' = runs w /\ run_events w' = run_events w
  /\ journal w' = journal w /\ queue w' = queue w /\ closed w' = S (closed w).
Proof.
  unfold close. run. destruct (scraperClose env (tick w));
    intros [= <- <-]; by repeat split.
Qed.

End WritingParts.

(** *** Waiting for the login *)

Section LoginNotReady.
Variable env : Collaborators.

(** The capture answers with no cookies, or rejects. *)
Definition notReady (n : nat) (handle : BrowserlessSession) : Prop :=
  captureCookiesFromSession env n handle = Resolves []
  \/ exists e, captureCookiesFromSession env n handle = Rejects e.

Lemma awaitLogin_notReady data run pending w o w' :
  notReady (tick w) (fst pending) ->
  awaitLogin env data run pending w = (o, w') ->
  sameRunState w (withQueue (fun _ => queue w) w')
  /\ match o with
     | Returned step => step = Requeued /\ queue w' = queue w ++ [followUp env data]
     | Thrown _ => queue w' = queue w
     | Diverged => False
     end
  /\ ((forall n, queueAddError env n = None) -> o = Returned Requeued).
Proof.
  intros Hcap. unfold awaitLogin, requeue. run.
  destruct Hcap as [-> | [e ->]]; run.
  - destruct (queueAddError env (S (tick w))) eqn:E1; run.
    + destruct (queueAddError env (S (S (tick w)))) eqn:E2; run;
        intros [= <- <-]; (split; [by repeat split|]); (split; [done|]);
        intros Hq; rewrite Hq in E1; discriminate.
    + intros [= <- <-]. by repeat split.
  - destruct (queueAddError env (S (tick w))) eqn:E1; run;
      intros [= <- <-]; (split; [by repeat split|]); (split; [done|]);
      [intros Hq; rewrite Hq in E1; discriminate | done].
Qed.

(** C1.  The run is found, the user has no active session, a login
    request is pending, and the cookie capture returns no cookie or
    throws.  Then [processRunJob] sends no status update and changes
    neither the run nor its events, so the status stays what it was
    ([needs_login] or [queued], never [failed]); and it returns once
    the job is back on the queue, exactly once, with the delay
    [requeueDelayMs].  It can only throw when the queue itself
    rejects the job, and then nothing was enqueued. *)
Theorem login_not_ready_requeues_once
    (data : RunJobData) (run : Run) (pending : BrowserlessSession * string)
    (w w1 w2 w3 : World) :
  fetchRun env (runId data) w = (Returned (Some run), w1) ->
  getActiveSession env (user_id run) w1 = (Returned None, w2) ->
  getLatestLoginEvent env (run_id run) w2 = (Returned (Some pending), w3) ->
  notReady (tick w3) (fst pending) ->
  exists outcome w',
    processRunJob env data w = (outcome, w')
    /\ runs w' = runs w /\ run_events w' = run_events w
    /\ journal w' = journal w /\ closed w' = closed w
    /\ match outcome with
       | Returned _ => queue w' = queue w ++ [followUp env data]
       | Thrown _ => queue w' = queue w
       | Diverged => False
       end
    /\ ((forall n, queueAddError env n = None) -> outcome = Returned tt).
Proof.
  intros H1 H2 H3 Hcap.
  destruct (Quiet_fetchRun env _ _ _ _ H1) as [(a1 & a2 & a3 & a4 & a5) _].
  destruct (Quiet_getActiveSession env _ _ _ _ H2) as [(b1 & b2 & b3 & b4 & b5) _].
  destruct (Quiet_getLatestLoginEvent env _ _ _ _ H3) as [(c1 & c2 & c3 & c4 & c5) _].
  assert (Hstep : resolveSession env data run w1 = awaitLogin env data run pending w3).
  { unfold resolveSession. rewrite (bind_returned _ _ _ _ _ H2). cbv beta iota.
    by rewrite (bind_returned _ _ _ _ _ H3). }
  unfold processRunJob. rewrite (bind_returned _ _ _ _ _ H1). cbv beta iota.
  unfold mbind, M_bind, Eff.bind. rewrite Hstep.
  destruct (awaitLogin env data run pending w3) as [o w'] eqn:E.
  destruct (awaitLogin_notReady _ _ _ _ _ _ Hcap E)
    as ((d1 & d2 & d3 & _ & d5) & Hq & Hret).
  simpl in d1, d2, d3, d5.
  destruct o as [step|e|]; [| |done].
  - destruct Hq as [-> Hq].
    exists (Returned tt), w'.
    split; [done|]. repeat split; congruence.
  - exists (Thrown e), w'.
    split; [done|]. split; [congruence|]. split; [congruence|].
    split; [congruence|]. split; [congruence|]. split; [congruence|].
    intros Hall. by specialize (Hret Hall).
Qed.

(** The first visit: no login was requested yet.  [ensureLoginSession]
    sets the run to [needs_login], and the job goes back on the queue
    once. *)
Lemma first_visit_requests_login
    (data : RunJobData) (run : Run) (w w1 w2 w3 : World) :
  fetchRun env (runId data) w = (Returned (Some run), w1) ->
  getActiveSession env (user_id run) w1 = (Returned None, w2) ->
  getLatestLoginEvent env (run_id run) w2 = (Returned None, w3) ->
  forall w',
    processRunJob env data w = (Returned tt, w') ->
    queue w' = queue w ++ [followUp env data]
    /\ journal w' = journal w ++ [journalEntry (run_id run) needs_login None None]
    /\ closed w' = closed w
    /\ forall r, runs w !! run_id run = Some r ->
                 status <$> runs w' !! run_id run = Some needs_login.
Proof.
  intros H1 H2 H3 w'.
  destruct (Quiet_fetchRun env _ _ _ _ H1) as [(a1 & a2 & a3 & a4 & a5) _].
  destruct (Quiet_getActiveSession env _ _ _ _ H2) as [(b1 & b2 & b3 & b4 & b5) _].
  destruct (Quiet_getLatestLoginEvent env _ _ _ _ H3) as [(c1 & c2 & c3 & c4 & c5) _].
  unfold processRunJob. rewrite (bind_returned _ _ _ _ _ H1). cbv beta iota.
  intros H. step_known H stepped wa Ha; [|discriminate H|discriminate H].
  unfold resolveSession in Ha.
  rewrite (bind_returned _ _ _ _ _ H2) in Ha. cbv beta iota in Ha.
  rewrite (bind_returned _ _ _ _ _ H3) in Ha. cbv beta iota in Ha.
  step_known Ha u wb Hb; [|discriminate Ha|discriminate Ha].
  step_known Ha u' wc Hc; [|discriminate Ha|discriminate Ha].
  inversion Ha; subst stepped wa; clear Ha. inversion H; subst w'; clear H.
  destruct (requeue_inv _ _ _ _ _ Hc) as (q1 & q2 & q3 & q4 & _ & Hq).
  destruct (queueAddError env (tick wb)); destruct Hq as [Hq1 Hq2]; [discriminate|].
  unfold ensureLoginSession in Hb.
  apply bind_quiet_inv in Hb as [(n & wd & Rd & Hb) | (e & [=] & _)];
    [| apply Quiet_outside].
  apply bind_quiet_inv in Hb as [(session & we & Re & Hb) | (e & [=] & _)];
    [| apply Quiet_await].
  destruct (sameRunState_trans _ _ _ Rd Re) as (d1 & d2 & d3 & d4 & d5).
  step_known Hb err wf Hf; [|discriminate Hb|discriminate Hb].
  destruct (updateRun_inv _ _ _ _ _ _ _ _ Hf) as (Ho & Ht & Hj & Hr & He & Hqf & Hcf).
  inversion Ho; subst err; clear Ho.
  destruct (dbError env (tick we)); [by inversion Hb|].
  apply bind_quiet_inv in Hb as [([] & wg & Rg & Hb) | (e & [=] & _)];
    [| apply Quiet_throwIf].
  destruct Rg as (g1 & g2 & g3 & g4 & g5).
  step_known Hb err' wh Hh; [|discriminate Hb|discriminate Hb].
  destruct (insertEvent_inv _ _ _ _ _ _ Hh) as (_ & _ & Hj' & Hr' & _ & Hq' & Hc').
  destruct (Quiet_throwIf err' _ _ _ Hb) as [(h1 & h2 & h3 & h4 & h5) _].
  split; [congruence|]. split; [unfold journalEntry in *; congruence|].
  split; [congruence|].
  intros r Hrow.
  rewrite q1, h1, Hr', g1, Hr, d1, c1, b1, a1, lookup_alter, decide_True by done.
  by rewrite Hrow.
Qed.

End LoginNotReady.

(** *** The processing phase *)

(** A [status_failed] event row. *)
Definition isFailedEvent (e : RunEvent) : Prop :=
  exists reason, ev_body e = StatusChange failed reason.

Section Processing.
Variable env : Collaborators.

Lemma markCompleted_inv run scrapeResult tokensUsed w o w' :
  markCompleted env run scrapeResult tokensUsed w = (o, w') ->
  o = Returned tt
  /\ queue w' = queue w /\ closed w' = closed w
  /\ journal w' = journal w
                    ++ [journalEntry (run_id run) completed None (dbError env (tick w))]
  /\ exists es, run_events w' = run_events w ++ es
                /\ Forall (fun e => ~ isFailedEvent e) es.
Proof.
  unfold markCompleted. intros H.
  step H n w0 H0. 2,3: by inversion H0.
  inversion H0; subst n w0; clear H0.
  step H err wa Ha;
    destruct (updateRun_inv _ _ _ _ _ _ _ _ Ha) as (Ho & Ht & Hj & Hr & He & Hq & Hc);
    try discriminate Ho.
  step H err' wb Hb;
    destruct (insertEvent_inv _ _ _ _ _ _ Hb) as (Ho' & Ht' & Hj' & Hr' & He' & Hq' & Hc');
    try discriminate Ho'.
  inversion H; subst o w'; clear H.
  split; [done|]. split; [congruence|]. split; [congruence|]. split; [congruence|].
  destruct (dbError env (tick wa)).
  - exists []. rewrite app_nil_r. split; [congruence | constructor].
  - eexists [_]. split; [rewrite He', He; reflexivity|].
    constructor; [|constructor]. by intros [reason [=]].
Qed.

(** The body of the [try] sends [running] and then [completed] when
    it returns, [running] or nothing when it throws, and never a
    failed status or a failed event. *)
Lemma processing_inv run session w o w1 :
  processing env run session w = (o, w1) ->
  queue w1 = queue w /\ closed w1 = closed w
  /\ exists js es,
       journal w1 = journal w ++ js
       /\ run_events w1 = run_events w ++ es
       /\ Forall (fun e => ~ isFailedEvent e) es
       /\ Forall (fun u => upd_run u = run_id run) js
       /\ match o with
          | Returned _ => map upd_status js = [running; completed]
          | Thrown _ => map upd_status js = [] \/ map upd_status js = [running]
          | Diverged => False
          end.
Proof.
  unfold processing. intros H.
  assert (Hnone : forall w w' : World, sameRunState w w' ->
            forall e : JsError,
            queue w' = queue w /\ closed w' = closed w
            /\ exists js es,
                 journal w' = journal w ++ js
                 /\ run_events w' = run_events w ++ es
                 /\ Forall (fun e => ~ isFailedEvent e) es
                 /\ Forall (fun u => upd_run u = run_id run) js
                 /\ (map upd_status js = [] \/ map upd_status js = [running])).
  { intros v v' (r1 & r2 & r3 & r4 & r5) _. split; [done|]. split; [done|].
    exists [], []. rewrite !app_nil_r. repeat split; auto. }
  apply bind_quiet_inv in H as [(n & wa & Ra & H) | (e & -> & R)];
    [| by apply Hnone | apply Quiet_outside].
  apply bind_quiet_inv in H as [(? & wb & Rb & H) | (e & -> & R)];
    [| apply Hnone; [by eapply sameRunState_trans | done] | apply Quiet_await].
  pose proof (sameRunState_trans _ _ _ Ra Rb) as (r1 & r2 & r3 & r4 & r5).
  clear Ra Rb Hnone.
  step H u wc Hc;
    pose proof (updateRunStatus_inv _ _ _ _ _ _ _ Hc) as (Hj & Hq & Hcl & Hcase);
    simpl in Hj.
  - (* running was written; the rest is quiet up to the last two statements *)
    assert (Hev : run_events wc = run_events wb
                    ++ [{| ev_run_id := run_id run; ev_body := StatusChange running None |}]).
    { destruct (dbError env (tick wb)); [by destruct Hcase|].
      destruct Hcase as [_ Hcase].
      destruct (dbError env (S (tick wb))); by destruct Hcase. }
    apply bind_quiet_inv in H as [([scrapeResult tokensUsed] & wd & Rd & H) | (e & -> & R)];
      [| | apply Quiet_scrapeAndPersist].
    + destruct Rd as (d1 & d2 & d3 & d4 & d5).
      destruct (markCompleted_inv _ _ _ _ _ _ H) as (-> & Hq' & Hc' & Hj' & es & He' & Hes).
      split; [congruence|]. split; [congruence|].
      eexists [_; _], (_ :: es).
      split; [rewrite Hj', d3, Hj, r3, <- app_assoc; reflexivity|].
      split; [rewrite He', d2, Hev, r2, <- app_assoc; reflexivity|].
      split; [constructor; [by intros [reason [=]] | done]|].
      split; [by repeat constructor | done].
    + destruct R as (d1 & d2 & d3 & d4 & d5).
      split; [congruence|]. split; [congruence|].
      eexists [_], [_].
      split; [rewrite d3, Hj, r3; reflexivity|].
      split; [rewrite d2, Hev, r2; reflexivity|].
      split; [constructor; [by intros [reason [=]] | constructor]|].
      split; [by repeat constructor | by right].
  - (* the update or its event row was refused *)
    split; [congruence|]. split; [congruence|].
    destruct (dbError env (tick wb)) as [e|].
    + destruct Hcase as (_ & _ & He). eexists [_], [].
      split; [rewrite Hj, r3; reflexivity|].
      split; [rewrite app_nil_r; congruence|].
      split; [constructor|]. split; [by repeat constructor | by right].
    + destruct Hcase as (_ & Hcase).
      destruct (dbError env (S (tick wb))) as [e|]; [|by destruct Hcase].
      destruct Hcase as (_ & He). eexists [_], [].
      split; [rewrite Hj, r3; reflexivity|].
      split; [rewrite app_nil_r; congruence|].
      split; [constructor|]. split; [by repeat constructor | by right].
  - (* [updateRunStatus] settles *)
    destruct (dbError env (tick wb)) as [e|]; [by destruct Hcase|].
    destruct Hcase as (_ & Hcase).
    destruct (dbError env (S (tick wb))); by destruct Hcase.
Qed.

(** The event row [updateRunStatus(run.id, 'failed', { reason })] inserts. *)
Definition failedEvent (run : Run) (error : JsError) : RunEvent :=
  {| ev_run_id := run_id run; ev_body := StatusChange failed (Some (reasonOf error)) |}.

(** The update it sends, answered by the store with [answer]. *)
Definition failedUpdate (run : Run) (error : JsError) (answer : option JsError)
  : StatusUpdate :=
  journalEntry (run_id run) failed (Some (reasonOf error)) answer.

(** The event rows the catch adds: one when the store takes the
    update and the insert. *)
Definition failedEventRows (run : Run) (error : JsError) (n : nat) : list RunEvent :=
  if dbError env n is None
  then if dbError env (S n) is None then [failedEvent run error] else []
  else [].

Lemma recordFailure_inv run error w o w' :
  recordFailure env run error w = (o, w') ->
  (exists thrown, o = Thrown thrown)
  /\ queue w' = queue w /\ closed w' = closed w
  /\ journal w' = journal w ++ [failedUpdate run error (dbError env (tick w))]
  /\ run_events w' = run_events w ++ failedEventRows run error (tick w)
  /\ runs w' = (if dbError env (tick w) is None
                then alter (statusUpdates failed (Some (reasonOf error))
                                          (now env (tick w)))
                           (run_id run) (runs w)
                else runs w).
Proof.
  unfold recordFailure, failedEventRows, failedUpdate. intros H.
  step H u wa Ha;
    pose proof (updateRunStatus_inv _ _ _ _ _ _ _ Ha) as (Hj & Hq & Hcl & Hcase);
    simpl in Hj.
  - inversion H; subst o w'; clear H.
    split; [by eexists|]. split; [done|]. split; [done|]. split; [done|].
    destruct (dbError env (tick w)); [by destruct Hcase|].
    destruct Hcase as (Hr & Hcase).
    destruct (dbError env (S (tick w))); by destruct Hcase.
  - split; [by eexists|]. split; [done|]. split; [done|]. split; [done|].
    destruct (dbError env (tick w)).
    + destruct Hcase as (_ & Hr & He). by rewrite app_nil_r.
    + destruct Hcase as (Hr & Hcase).
      destruct (dbError env (S (tick w))); [|by destruct Hcase].
      destruct Hcase as (_ & He). by rewrite app_nil_r.
  - destruct (dbError env (tick w)); [by destruct Hcase|].
    destruct Hcase as (_ & Hcase).
    destruct (dbError env (S (tick w))); by destruct Hcase.
Qed.


End Processing.

(** *** One invocation of the job *)

(** The place of a status in [queued -> needs_login -> running ->
    completed | failed]. *)
Definition rank (s : RunStatus) : nat :=
  match s with
  | queued => 0
  | needs_login => 1
  | running => 2
  | completed | failed => 3
  end.

Definition inOrder (a b : StatusUpdate) : Prop :=
  (rank (upd_status a) < rank (upd_status b))%nat.

Section Invocation.
Variable env : Collaborators.

Lemma ensureLoginSession_inv runId userId w o w' :
  ensureLoginSession env runId userId w = (o, w') ->
  o <> Diverged /\ closed w' = closed w
  /\ exists js, journal w' = journal w ++ js
                /\ (map upd_status js = [] \/ map upd_status js = [needs_login]).
Proof.
  unfold ensureLoginSession. intros H.
  apply bind_quiet_inv in H as [(n & wa & Ra & H) | (e & -> & R)];
    [| | apply Quiet_outside].
  2: { destruct R as (r1 & r2 & r3 & r4 & r5). split; [done|]. split; [done|].
       exists []. rewrite app_nil_r. auto. }
  apply bind_quiet_inv in H as [(session & wb & Rb & H) | (e & -> & R)];
    [| | apply Quiet_await].
  2: { destruct (sameRunState_trans _ _ _ Ra R) as (r1 & r2 & r3 & r4 & r5).
       split; [done|]. split; [done|]. exists []. rewrite app_nil_r. auto. }
  destruct (sameRunState_trans _ _ _ Ra Rb) as (r1 & r2 & r3 & r4 & r5).
  step H err wc Hc;
    destruct (updateRun_inv _ _ _ _ _ _ _ _ Hc) as (Ho & Ht & Hj & Hr & He & Hq & Hcl);
    try discriminate Ho.
  apply bind_quiet_inv in H as [([] & wd & Rd & H) | (e & -> & R)];
    [| | apply Quiet_throwIf].
  2: { destruct R as (d1 & d2 & d3 & d4 & d5). split; [done|]. split; [congruence|].
       eexists [_]. split; [rewrite d3, Hj, r3; reflexivity | by right]. }
  destruct Rd as (d1 & d2 & d3 & d4 & d5).
  step H err' we He';
    destruct (insertEvent_inv _ _ _ _ _ _ He') as (Ho' & Ht' & Hj' & Hr' & Hev' & Hq' & Hcl');
    try discriminate Ho'.
  destruct (Quiet_throwIf err' _ _ _ H) as [(f1 & f2 & f3 & f4 & f5) Hd].
  split; [done|]. split; [congruence|].
  eexists [_]. split; [rewrite f3, Hj', d3, Hj, r3; reflexivity | by right].
Qed.

Lemma requeue_journal data w o w' :
  requeue env data w = (o, w') ->
  o <> Diverged /\ closed w' = closed w /\ journal w' = journal w.
Proof.
  intros H. destruct (requeue_inv _ _ _ _ _ H) as (_ & _ & Hj & Hc & _ & Hq).
  split; [|by split].
  destruct (queueAddError env (tick w)); destruct Hq as [-> _]; done.
Qed.

Lemma awaitLogin_journal data run pending w o w' :
  awaitLogin env data run pending w = (o, w') ->
  o <> Diverged /\ closed w' = closed w /\ journal w' = journal w.
Proof.
  unfold awaitLogin, tryCatch. cbv zeta.
  match goal with |- context [match ?body w with _ => _ end] =>
    assert (Hbody : forall ob wa, body w = (ob, wa) ->
              ob <> Diverged /\ closed wa = closed w /\ journal wa = journal w);
    [| destruct (body w) as [[step|e|] wa] eqn:E;
       destruct (Hbody _ _ eq_refl) as (Hd & Hc & Hj) ]
  end.
  - intros ob wa E.
    apply bind_quiet_inv in E as [(n & wb & Rb & E) | (e' & -> & R)];
      [| by destruct R as (r1 & r2 & r3 & r4 & r5) | apply Quiet_outside].
    apply bind_quiet_inv in E as [(captured & wc & Rc & E) | (e' & -> & R)];
      [| by destruct (sameRunState_trans _ _ _ Rb R) as (r1 & r2 & r3 & r4 & r5)
       | apply Quiet_await].
    destruct (sameRunState_trans _ _ _ Rb Rc) as (r1 & r2 & r3 & r4 & r5).
    destruct captured as [|c captured].
    + step E u wd Hd; destruct (requeue_journal _ _ _ _ Hd) as (Hdv & Hc & Hj);
        [|by split; [|split; congruence] | done].
      inversion E; subst. split; [done|]. split; congruence.
    + apply bind_quiet_inv in E as [(u & wd & Rd & E) | (e' & -> & R)];
        [| | apply Quiet_saveSession].
      * destruct Rd as (d1 & d2 & d3 & d4 & d5).
        inversion E; subst. split; [done|]. split; congruence.
      * destruct R as (d1 & d2 & d3 & d4 & d5). split; [done|]. split; congruence.
  - intros [= <- <-]. by split.
  - intros H.
    step H u wd Hr; destruct (requeue_journal _ _ _ _ Hr) as (Hdv & Hc' & Hj');
      [|by split; [|split; congruence] | done].
    inversion H; subst. split; [done|]. split; congruence.
  - done.
Qed.

Lemma resolveSession_journal data run w o w' :
  resolveSession env data run w = (o, w') ->
  o <> Diverged
  /\ exists js, journal w' = journal w ++ js
                /\ match o with
                   | Returned (Proceed _) => js = []
                   | _ => map upd_status js = []
                          \/ map upd_status js = [needs_login]
                   end.
Proof.
  unfold resolveSession. intros H.
  apply bind_quiet_inv in H as [(active & wa & Ra & H) | (e & -> & R)];
    [| | apply Quiet_getActiveSession].
  2: { destruct R as (r1 & r2 & r3 & r4 & r5). split; [done|].
       exists []. rewrite app_nil_r. auto. }
  destruct Ra as (a1 & a2 & a3 & a4 & a5).
  destruct active as [session|].
  { inversion H; subst. split; [done|]. exists []. by rewrite app_nil_r. }
  apply bind_quiet_inv in H as [(pending & wb & Rb & H) | (e & -> & R)];
    [| | apply Quiet_getLatestLoginEvent].
  2: { destruct R as (r1 & r2 & r3 & r4 & r5). split; [done|].
       exists []. rewrite app_nil_r. split; [congruence | auto]. }
  destruct Rb as (b1 & b2 & b3 & b4 & b5).
  destruct pending as [pending|].
  - destruct (awaitLogin_journal _ _ _ _ _ _ H) as (Hd & Hc & Hj).
    split; [done|]. exists []. rewrite app_nil_r. split; [congruence|].
    destruct o as [[|session]| |]; auto.
  - step H u wc Hc;
      destruct (ensureLoginSession_inv _ _ _ _ _ Hc) as (Hd & Hcl & js & Hj & Hjs);
      [| | done].
    + step H u' wd Hq; destruct (requeue_journal _ _ _ _ Hq) as (Hd' & Hcl' & Hj');
        [| | done].
      * inversion H; subst. split; [done|]. exists js. split; [congruence | done].
      * split; [done|]. exists js. split; [congruence | done].
    + split; [done|]. exists js. split; [congruence | done].
Qed.

Lemma processWithScraper_journal run session w o w' :
  processWithScraper env run session w = (o, w') ->
  o <> Diverged
  /\ exists js, journal w' = journal w ++ js
                /\ (map upd_status js = [failed]
                    \/ map upd_status js = [running; failed]
                    \/ map upd_status js = [running; completed]).
Proof.
  unfold processWithScraper, tryFinally, tryCatch.
  destruct (processing env run session w) as [[[]|error|] w1] eqn:E;
    pose proof (processing_inv _ _ _ _ _ _ E)
      as (Hq & Hc & js & es & Hj & He & Hes & Hjs & Hst);
    [| |done].
  - destruct (close env w1) as [oc w2] eqn:Ec.
    destruct (close_inv _ _ _ _ Ec) as (Hd & c1 & c2 & c3 & c4 & c5).
    intros H.
    assert (o <> Diverged /\ w' = w2) as [Ho ->]
      by (destruct oc as [[]|e|]; [| |done]; by inversion H).
    split; [done|]. exists js. split; [congruence | auto].
  - destruct (recordFailure env run error w1) as [o2 w2] eqn:E2.
    destruct (recordFailure_inv _ _ _ _ _ _ E2)
      as ((thrown & ->) & f1 & f2 & f3 & f4 & f5).
    destruct (close env w2) as [oc w3] eqn:Ec.
    destruct (close_inv _ _ _ _ Ec) as (Hd & c1 & c2 & c3 & c4 & c5).
    intros H.
    assert (o <> Diverged /\ w' = w3) as [Ho ->]
      by (destruct oc as [[]|e|]; [| |done]; by inversion H).
    split; [done|].
    exists (js ++ [failedUpdate run error (dbError env (tick w1))]).
    split; [rewrite c3, f3, Hj, <- app_assoc; reflexivity|].
    rewrite map_app. simpl. destruct Hst as [-> | ->]; auto.
Qed.

(** C3, as the code has it.  In one invocation of [processRunJob]
    the status updates sent for the run are, in this order:
    none; [needs_login]; [failed]; [running] then [failed]; or
    [running] then [completed].  They climb the state machine
    strictly, so one invocation writes at most one terminal status
    and nothing after it. *)
Theorem statuses_sent_in_order (data : RunJobData) (w : World) :
  exists outcome w' sent,
    processRunJob env data w = (outcome, w')
    /\ outcome <> Diverged
    /\ journal w' = journal w ++ sent
    /\ (map upd_status sent = []
        \/ map upd_status sent = [needs_login]
        \/ map upd_status sent = [failed]
        \/ map upd_status sent = [running; failed]
        \/ map upd_status sent = [running; completed])
    /\ StronglySorted inOrder sent.
Proof.
  destruct (processRunJob env data w) as [o w'] eqn:H.
  assert (Hsent : o <> Diverged
            /\ exists sent, journal w' = journal w ++ sent
                 /\ (map upd_status sent = []
                     \/ map upd_status sent = [needs_login]
                     \/ map upd_status sent = [failed]
                     \/ map upd_status sent = [running; failed]
                     \/ map upd_status sent = [running; completed])).
  { unfold processRunJob in H.
    apply bind_quiet_inv in H as [(found & wa & Ra & H) | (e & -> & R)];
      [| | apply Quiet_fetchRun].
    2: { destruct R as (r1 & r2 & r3 & r4 & r5). split; [done|].
         exists []. rewrite app_nil_r. auto. }
    destruct Ra as (a1 & a2 & a3 & a4 & a5).
    destruct found as [run|].
    2: { inversion H; subst. split; [done|]. exists []. rewrite app_nil_r. auto. }
    step H stepped wb Hb;
      destruct (resolveSession_journal _ _ _ _ _ Hb) as (Hd & js & Hj & Hjs);
      [| | done].
    - destruct stepped as [|session].
      + inversion H; subst. split; [done|]. exists js.
        split; [congruence|]. destruct Hjs as [-> | ->]; auto.
      + subst js. rewrite app_nil_r in Hj.
        destruct (processWithScraper_journal _ _ _ _ _ H) as (Hd' & js' & Hj' & Hjs').
        split; [done|]. exists js'. split; [congruence|].
        destruct Hjs' as [-> | [-> | ->]]; auto.
    - split; [done|]. exists js. split; [congruence|].
      destruct Hjs as [-> | ->]; auto. }
  destruct Hsent as (Hd & sent & Hj & Hst).
  exists o, w', sent. split; [done|]. split; [done|]. split; [done|].
  split; [done|].
  destruct sent as [|a [|b [|c sent]]];
    destruct Hst as [Hst | [Hst | [Hst | [Hst | Hst]]]]; try discriminate Hst;
    inversion Hst as [[Ha Hb]];
    repeat constructor; unfold inOrder; rewrite ?Ha, ?Hb; simpl; lia.
Qed.

End Invocation.

(** *** Runs of the job on a small store *)

Definition emptyAnalysis : InsightAnalysis :=
  {| ia_posts := []; ia_insights := []; ia_summary := "";
     ia_actionableInstructions := []; ia_templates := [];
     ia_methodologies := None |}.

(** Every collaborator answers; nobody has logged in yet, so the
    capture has no cookie. *)
Definition steady : Collaborators :=
  {| requeueDelayMs := 5000;
     costPerMillionTokens := 15;
     dbError := fun _ => None;
     now := fun _ => "2025-06-15T10:00:00.000Z";
     newId := fun n => "row-" +:+ pretty n;
     createSession := fun _ =>
       Resolves {| sessionId := "s1"; connectUrl := "https://login/s1";
                   wsEndpoint := "wss://browser/s1"; expiresAt := None |};
     captureCookiesFromSession := fun _ _ => Resolves [];
     encryptCookies := fun _ captured => String.concat ";" captured;
     decryptCookies := fun payload => Resolves [payload];
     queueAddError := fun _ => None;
     scraperInit := fun _ _ => Resolves tt;
     scrapeProfiles := fun _ _ _ _ => Resolves {| allPosts := []; byExpert := [] |};
     exportCookies := fun _ => Resolves [];
     scraperClose := fun _ => Resolves tt;
     loadInsightAnalyzerCtor := fun _ => Resolves tt;
     analyzeInsights := fun _ _ _ =>
       Resolves {| tokenUsage := Some 1200; body := emptyAnalysis |};
     loadFormatterInstance := fun _ => Resolves tt;
     buildKnowledgeBundle := fun _ _ _ _ _ =>
       Resolves {| instructionsMarkdown := "# Knowledge"; expertMarkdownFiles := [] |};
     uploadError := fun _ => None;
     sha256 := fun content => content |}.

(** The same, with a scrape that throws. *)
Definition scrapeFails : Collaborators :=
  {| requeueDelayMs := 5000;
     costPerMillionTokens := 15;
     dbError := fun _ => None;
     now := now steady;
     newId := newId steady;
     createSession := createSession steady;
     captureCookiesFromSession := captureCookiesFromSession steady;
     encryptCookies := encryptCookies steady;
     decryptCookies := decryptCookies steady;
     queueAddError := fun _ => None;
     scraperInit := fun _ _ => Resolves tt;
     scrapeProfiles := fun _ _ _ _ => Rejects (Error "Navigation timeout");
     exportCookies := fun _ => Resolves [];
     scraperClose := fun _ => Resolves tt;
     loadInsightAnalyzerCtor := fun _ => Resolves tt;
     analyzeInsights := analyzeInsights steady;
     loadFormatterInstance := fun _ => Resolves tt;
     buildKnowledgeBundle := buildKnowledgeBundle steady;
     uploadError := fun _ => None;
     sha256 := fun content => content |}.

Definition theRun (st : RunStatus) (reason : option string) : Run :=
  {| run_id := "run-1"; user_id := "user-1"; status := st;
     config := {| profileUrls := ["https://www.linkedin.com/in/test/"]; topics := [];
                  outputFormat := ai_ready; postLimit := Some 50 |};
     needs_login_url := None; started_at := None; completed_at := None;
     failure_reason := reason; token_estimate := None; cost_estimate := None |}.

Definition theJob : RunJobData := {| runId := "run-1"; userId := "user-1" |}.

Definition theSession : Session :=
  {| sess_id := "row-0"; cookies := ["li_at=abc"]; sess_expiresAt := None |}.

Definition theLogin : BrowserlessSession :=
  {| sessionId := "s1"; connectUrl := "https://login/s1";
     wsEndpoint := "wss://browser/s1"; expiresAt := None |}.

(** A store that holds the run and, when [loggedIn], an active session
    of its user. *)
Definition store (st : RunStatus) (reason : option string) (loggedIn : bool)
    (events : list RunEvent) : World :=
  {| tick := 0;
     runs := {[ "run-1" := theRun st reason ]};
     run_events := events;
     linked_sessions :=
       if loggedIn
       then [ {| ls_id := "row-0"; ls_user_id := "user-1";
                 encrypted_payload := "li_at=abc"; ls_expires_at := None;
                 is_active := true |} ]
       else [];
     usage_counters := ∅; run_artifacts := []; queue := []; closed := 0;
     journal := [] |}.

(** The run waits for its user to log in. *)
Definition waiting : World :=
  store needs_login None false
        [ {| ev_run_id := "run-1"; ev_body := NeedsLogin theLogin "user-1" |} ].

Lemma login_not_ready_requeues_once_witness :
  fetchRun steady (runId theJob) waiting
    = (Returned (Some (theRun needs_login None)), withTick S waiting)
  /\ getActiveSession steady "user-1" (withTick S waiting)
     = (Returned None, withTick S (withTick S waiting))
  /\ getLatestLoginEvent steady "run-1" (withTick S (withTick S waiting))
     = (Returned (Some (theLogin, "user-1")),
        withTick S (withTick S (withTick S waiting)))
  /\ notReady steady 3 theLogin
  /\ exists outcome w',
       processRunJob steady theJob waiting = (outcome, w')
       /\ runs w' = runs waiting /\ run_events w' = run_events waiting
       /\ journal w' = journal waiting /\ closed w' = closed waiting
       /\ match outcome with
          | Returned _ => queue w' = queue waiting ++ [followUp steady theJob]
          | Thrown _ => queue w' = queue waiting
          | Diverged => False
          end
       /\ ((forall n, queueAddError steady n = None) -> outcome = Returned tt).
Proof.
  assert (H1 : fetchRun steady (runId theJob) waiting
               = (Returned (Some (theRun needs_login None)), withTick S waiting))
    by (vm_compute; reflexivity).
  assert (H2 : getActiveSession steady "user-1" (withTick S waiting)
               = (Returned None, withTick S (withTick S waiting)))
    by (vm_compute; reflexivity).
  assert (H3 : getLatestLoginEvent steady "run-1" (withTick S (withTick S waiting))
               = (Returned (Some (theLogin, "user-1")),
                  withTick S (withTick S (withTick S waiting))))
    by (vm_compute; reflexivity).
  assert (H4 : notReady steady 3 theLogin) by (left; reflexivity).
  split; [exact H1|]. split; [exact H2|]. split; [exact H3|]. split; [exact H4|].
  exact (login_not_ready_requeues_once steady theJob (theRun needs_login None)
           (theLogin, "user-1") waiting _ _ _ H1 H2 H3 H4).
Defined.

(** The property as the specification words it, for one operation of
    the worker on a run: a terminal status is not overwritten. *)
Definition terminalKept (env : Collaborators) (data : RunJobData) (w : World) : Prop :=
  forall r,
    runs w !! runId data = Some r ->
    status r = completed \/ status r = failed ->
    exists r', runs (snd (processRunJob env data w)) !! runId data = Some r'
               /\ status r' = status r.

(** C3, counterexample.  A run that failed is processed again, as the
    queue does on a retry: the worker never looks at the stored status,
    sends [running], then [completed], and the store applies both. *)
Lemma terminal_status_overwritten_on_retry :
  ~ terminalKept steady theJob (store failed (Some "Navigation timeout") true []).
Proof.
  intros H.
  destruct (H (theRun failed (Some "Navigation timeout")) eq_refl (or_intror eq_refl))
    as (r' & Hr & Hst).
  vm_compute in Hr. inversion Hr; subst r'. discriminate Hst.
Qed.

Example retry_journal :
  map upd_status
      (journal (snd (processRunJob steady theJob
                       (store failed (Some "Navigation timeout") true []))))
  = [running; completed].
Proof. by vm_compute. Qed.


Example scrape_failure_recorded :
  let w' := snd (processWithScraper scrapeFails (theRun queued None) theSession
                   (store queued None true [])) in
  map upd_status (journal w') = [running; failed]
  /\ map event_type (run_events w') = ["status_running"; "status_failed"]
  /\ closed w' = 1%nat.
Proof. by vm_compute. Qed.

(** The scrape throws, and from then on the store refuses every
    statement. *)
Definition storeLost : Collaborators :=
  {| requeueDelayMs := 5000;
     costPerMillionTokens := 15;
     dbError := fun n => if (4 <=? n)%nat then Some (Error "connection refused")
                         else None;
     now := now steady;
     newId := newId steady;
     createSession := createSession steady;
     captureCookiesFromSession := captureCookiesFromSession steady;
     encryptCookies := encryptCookies steady;
     decryptCookies := decryptCookies steady;
     queueAddError := fun _ => None;
     scraperInit := fun _ _ => Resolves tt;
     scrapeProfiles := fun _ _ _ _ => Rejects (Error "Navigation timeout");
     exportCookies := fun _ => Resolves [];
     scraperClose := fun _ => Resolves tt;
     loadInsightAnalyzerCtor := fun _ => Resolves tt;
     analyzeInsights := analyzeInsights steady;
     loadFormatterInstance := fun _ => Resolves tt;
     buildKnowledgeBundle := buildKnowledgeBundle steady;
     uploadError := fun _ => None;
     sha256 := fun content => content |}.

(** Is this a [status_failed] event row? *)
Definition failedRow (e : RunEvent) : bool :=
  match ev_body e with
  | StatusChange failed _ => true
  | _ => false
  end.

(** Is this an update to [failed]? *)
Definition failedSent (u : StatusUpdate) : bool :=
  match upd_status u with
  | failed => true
  | _ => false
  end.

(** The property as the specification words it: whenever the
    processing phase raises an exception, exactly one update to
    [failed] is sent for the run, its reason being the message of the
    exception; exactly one failed status-change event row is recorded;
    and the scraper is closed. *)
Definition failureRecorded (env : Collaborators) (run : Run) (session : Session)
    (w : World) : Prop :=
  forall error w1,
    processing env run session w = (Thrown error, w1) ->
    let w' := snd (processWithScraper env run session w) in
    (exists u,
        List.filter failedSent (drop (length (journal w)) (journal w')) = [u]
        /\ upd_run u = run_id run
        /\ forall message, err_message error = Some message ->
                           upd_reason u = Some message)
    /\ length (List.filter failedRow (drop (length (run_events w)) (run_events w')))
       = 1%nat
    /\ closed w' = S (closed w).

(** With a store that takes every statement the property holds: the
    same failing scrape is recorded. *)
Example failure_recorded_when_store_accepts :
  failureRecorded scrapeFails (theRun queued None) theSession
    (store queued None true []).
Proof.
  intros error w1 E. vm_compute in E. injection E as <- <-.
  split; [|split; by vm_compute].
  eexists. split; [by vm_compute|]. split; [by vm_compute|].
  intros message [= <-]. by vm_compute.
Qed.


Example store_refuses_failed_update :
  let r := processWithScraper storeLost (theRun queued None) theSession
             (store queued None true []) in
  fst r = Thrown (Error "connection refused")
  /\ map (fun u => (upd_status u, upd_applied u)) (journal (snd r))
     = [(running, true); (failed, false)]
  /\ List.filter failedSent (journal (snd r))
     = [journalEntry "run-1" failed (Some "Navigation timeout")
                     (Some (Error "connection refused"))]
  /\ map event_type (run_events (snd r)) = ["status_running"]
  /\ List.filter failedRow (run_events (snd r)) = []
  /\ (status <$> runs (snd r) !! "run-1") = Some running
  /\ closed (snd r) = 1%nat.
Proof. by vm_compute. Qed.

(** *** Usage accounting *)

(** One call, with a store that takes both statements, adds [tokens]
    to the counter of the month and keeps [runs_used]. *)
Lemma incrementTokenUsage_adds env userId tokens w :
  dbError env (tick w) = None ->
  dbError env (S (tick w)) = None ->
  let key := (userId, periodStart (now env (tick w))) in
  exists w',
    incrementTokenUsage env userId tokens w = (Returned tt, w')
    /\ usage_counters w' !! key
       = Some {| runs_used := default 0 (runs_used <$> usage_counters w !! key);
                 tokens_used := default 0 (tokens_used <$> usage_counters w !! key)
                                + tokens |}.
Proof.
  intros H1 H2 key.
  unfold incrementTokenUsage, readUsage, writeUsage, single, throwUnlessNotFound.
  run. rewrite H1. run. fold key.
  destruct (usage_counters w !! key) as [c|] eqn:E; run; rewrite H2; run;
    eexists; (split; [reflexivity|]); simpl; by rewrite lookup_insert_eq.
Qed.

Definition june : string * string := ("user-1", "2025-06-01").

(** C10.  Called one after the other, two increments of 10 and 5
    tokens add up to 15.  But each call reads the counter and then
    writes counter + tokens: when the store answers the two selects
    before the two upserts, the second upsert overwrites the first and
    the counter ends at 5.  The run counter of the same table is
    incremented inside one statement ([increment_run_usage]) and
    counts both. *)
Theorem incrementTokenUsage_is_read_modify_write :
  let start := store running None true [] in
  (tokens_used <$>
     usage_counters (snd ((incrementTokenUsage steady "user-1" 10;;
                           incrementTokenUsage steady "user-1" 5) start)) !! june)
    = Some 15
  /\ fst (incrementTokenUsageInterleaved steady "user-1" 10 5 start) = Returned tt
  /\ (tokens_used <$>
        usage_counters (snd (incrementTokenUsageInterleaved steady "user-1" 10 5 start))
          !! june)
     = Some 5
  /\ (runs_used <$>
        usage_counters (snd ((increment_run_usage steady "user-1" "2025-06-01";;
                              increment_run_usage steady "user-1" "2025-06-01") start))
          !! june)
     = Some 2.
Proof. by vm_compute. Qed.

End RunProcessor.

(* ===================================================================== *)
(** ** src/token-utils.ts: what the chunks look like *)
(* ===================================================================== *)

Module TokenChunks.
Import TokenUtils.

Lemma estimateTokens_nil : estimateTokens [] = 0.
Proof. reflexivity. Qed.

Lemma estimateTokens_nonneg text : 0 <= estimateTokens text.
Proof. unfold estimateTokens. apply Z.div_pos; lia. Qed.

(** The estimate of a concatenation is at most the sum of the estimates. *)
Lemma estimateTokens_app a b :
  estimateTokens (a ++ b) <= estimateTokens a + estimateTokens b.
Proof.
  unfold estimateTokens. rewrite length_app, Nat2Z.inj_add.
  generalize (Z.of_nat (length a)) (Z.of_nat (length b)). intros x y.
  Z.div_mod_to_equations. lia.
Qed.

(** The section-start pattern: two hashes and a white-space character. *)
Definition startsSection (chunk : jsstring) : Prop :=
  match chunk with
  | a :: b :: s :: _ => a = hash /\ b = hash /\ isWhiteSpace s = true
  | _ => False
  end.

Lemma startsSection_app chunk more : startsSection chunk -> startsSection (chunk ++ more).
Proof. destruct chunk as [|a [|b [|s rest]]]; simpl; tauto. Qed.

Lemma startsSection_nonempty chunk : startsSection chunk -> chunk <> [].
Proof. by destruct chunk. Qed.

(** The piece under construction is a prefix of the first piece. *)
Lemma splitSections_head rest : forall prev cur,
  exists more others, splitSections prev cur rest = (cur ++ more) :: others.
Proof.
  induction rest as [|c rest IH]; intros prev cur; simpl.
  - exists [], []. by rewrite app_nil_r.
  - destruct (sectionStartsAt prev (c :: rest) && negb (bool_decide (cur = []))).
    + exists [], (splitSections (Some c) [c] rest). by rewrite app_nil_r.
    + destruct (IH (Some c) (cur ++ [c])) as (more & others & ->).
      exists (c :: more), others. by rewrite <- app_assoc.
Qed.

(** After a header the next two code units cannot start a section. *)
Lemma splitSections_after_header s rest :
  splitSections (Some hash) [hash] (hash :: s :: rest)
  = splitSections (Some s) [hash; hash; s] rest.
Proof. reflexivity. Qed.

(** Every piece after the first starts with the pattern. *)
Lemma splitSections_tail rest : forall prev cur,
  Forall startsSection (tail (splitSections prev cur rest)).
Proof.
  induction rest as [|c rest IH]; intros prev cur; simpl; [constructor|].
  destruct (sectionStartsAt prev (c :: rest) && negb (bool_decide (cur = []))) eqn:Hsplit;
    [|apply IH].
  apply andb_true_iff in Hsplit as [Hstart _].
  unfold sectionStartsAt in Hstart. apply andb_true_iff in Hstart as [_ Hpat].
  destruct rest as [|b [|s rest]]; try discriminate Hpat.
  apply andb_true_iff in Hpat as [Hpat Hs].
  apply andb_true_iff in Hpat as [Ha Hb].
  apply N.eqb_eq in Ha, Hb. subst c b.
  specialize (IH (Some hash) [hash]).
  cbn [tail]. rewrite splitSections_after_header in *.
  destruct (splitSections_head rest (Some s) [hash; hash; s]) as (more & others & E).
  rewrite E in *. constructor; [by simpl | exact IH].
Qed.

(** The pieces of a non-empty text are not empty. *)
Lemma splitSections_nonempty rest : forall prev cur,
  cur <> [] -> Forall (fun piece => piece <> []) (splitSections prev cur rest).
Proof.
  induction rest as [|c rest IH]; intros prev cur Hcur; simpl.
  - by repeat constructor.
  - match goal with |- context [if ?b then _ else _] => destruct b end.
    + constructor; [done|]. by apply IH.
    + apply IH. by destruct cur.
Qed.

Lemma splitSections_text_nonempty c rest :
  Forall (fun piece => piece <> []) (splitSections None [] (c :: rest)).
Proof.
  cbn [splitSections].
  replace (sectionStartsAt None (c :: rest) && negb (bool_decide (@nil N = [])))
    with false by (by rewrite bool_decide_eq_true_2, andb_false_r).
  by apply splitSections_nonempty.
Qed.

Section Packing.
Variable L : Z.
Variable sections : list jsstring.

(** A chunk is within the limit, or it is one section of its own. *)
Definition fits (chunk : jsstring) : Prop :=
  estimateTokens chunk <= L \/ chunk ∈ sections.

(** What the packing loop keeps true. *)
Definition packedWell (st : packer) : Prop :=
  Forall fits (chunks st)
  /\ Forall (fun chunk => chunk <> []) (chunks st)
  /\ estimateTokens (currentChunk st) <= currentTokens st
  /\ (currentChunk st <> [] -> currentTokens st <= L \/ currentChunk st ∈ sections).

Lemma packSection_well st section :
  section ∈ sections -> packedWell st -> packedWell (packSection L st section).
Proof.
  intros Hs (Hfit & Hne & Hest & Hcur). unfold packSection, truthy, packedWell.
  pose proof (estimateTokens_nonneg (currentChunk st)) as Hpos.
  pose proof (estimateTokens_app (currentChunk st) section) as Happ.
  destruct (Z.ltb_spec L (currentTokens st + estimateTokens section)) as [Hover|Hin];
    destruct (bool_decide_reflect (currentChunk st = [])) as [Hnil|Hnn]; simpl.
  - rewrite Hnil in *. simpl. repeat split; auto. lia.
  - split; [|split; [|split]]; [| |lia|by right].
    + apply Forall_app. split; [done|]. constructor; [|constructor].
      destruct (Hcur Hnn) as [H|H]; [left; lia | by right].
    + apply Forall_app. split; [done|]. by repeat constructor.
  - rewrite Hnil in *. simpl. repeat split; auto. lia.
  - split; [|split; [|split]]; [done|done|lia|]. intros _. left. lia.
Qed.

Lemma fold_packSection_well pieces : forall st,
  Forall (fun piece => piece ∈ sections) pieces ->
  packedWell st -> packedWell (fold_left (packSection L) pieces st).
Proof.
  induction pieces as [|piece pieces IH]; intros st Hall Hst; simpl; [done|].
  apply Forall_cons in Hall as [Hp Hall]. apply IH; [done|].
  by apply packSection_well.
Qed.

(** The chunks, with the one under construction, align with sections. *)
Definition aligned (st : packer) : Prop :=
  Forall startsSection (tail (chunks st ++ [currentChunk st])).

Lemma packSection_aligned st section :
  startsSection section -> aligned st -> aligned (packSection L st section).
Proof.
  unfold aligned, packSection, truthy. intros Hs Hal.
  destruct ((L <? currentTokens st + estimateTokens section)
            && negb (bool_decide (currentChunk st = []))); simpl.
  - destruct (chunks st) as [|first more]; simpl in *.
    + by repeat constructor.
    + apply Forall_app. split; [done|]. by repeat constructor.
  - destruct (chunks st) as [|first more]; simpl in *; [constructor|].
    apply Forall_app in Hal as [Hal1 Hal2]. apply Forall_app. split; [done|].
    apply Forall_cons in Hal2 as [Hc _]. constructor; [|constructor].
    by apply startsSection_app.
Qed.

Lemma fold_packSection_aligned pieces : forall st,
  Forall startsSection pieces ->
  aligned st -> aligned (fold_left (packSection L) pieces st).
Proof.
  induction pieces as [|piece pieces IH]; intros st Hall Hst; simpl; [done|].
  apply Forall_cons in Hall as [Hp Hall]. apply IH; [done|].
  by apply packSection_aligned.
Qed.

End Packing.

Definition start : packer := Packer [] [] 0.

Lemma start_well L sections : packedWell L sections start.
Proof.
  unfold packedWell, start. cbn [chunks currentChunk currentTokens].
  split; [constructor|]. split; [constructor|].
  split; [by rewrite estimateTokens_nil|]. done.
Qed.

Lemma splitSections_elements text :
  Forall (fun piece => piece ∈ splitSections None [] text) (splitSections None [] text).
Proof. by apply Forall_forall. Qed.

(** [splitByTokens]: every chunk returned is within the limit by the
    estimate, or it is one single section of the text (a section that
    is too large on its own is never cut). *)
Theorem splitByTokens_chunks_fit text L :
  Forall (fun chunk => estimateTokens chunk <= L
                       \/ chunk ∈ splitSections None [] text)
         (splitByTokens text L).
Proof.
  unfold splitByTokens.
  destruct (Z.leb_spec (estimateTokens text) L) as [Hle|Hgt].
  - constructor; [by left | constructor].
  - pose proof (fold_packSection_well L _ _ start (splitSections_elements text)
                  (start_well L _)) as (Hfit & _ & Hest & Hcur).
    fold start. unfold truthy.
    destruct (bool_decide_reflect
                (currentChunk (fold_left (packSection L) (splitSections None [] text) start) = []))
      as [Hnil|Hnn]; simpl; [exact Hfit|].
    apply Forall_app. split; [exact Hfit|]. constructor; [|constructor].
    destruct (Hcur Hnn) as [H|H]; [left; lia | by right].
Qed.

(** [splitByTokens]: a text that is not empty gives at least one chunk
    and no empty chunk; the empty text gives one empty chunk under a
    limit that is not negative and no chunk at all under a negative one. *)
Theorem splitByTokens_chunks_nonempty L :
  (forall c rest,
     splitByTokens (c :: rest) L <> []
     /\ Forall (fun chunk => chunk <> []) (splitByTokens (c :: rest) L))
  /\ splitByTokens [] L = if 0 <=? L then [[]] else [].
Proof.
  split.
  - intros c rest. split.
    + intros Hnone.
      assert (concat (splitByTokens (c :: rest) L) = c :: rest) as Hcat.
      { unfold splitByTokens. destruct (estimateTokens (c :: rest) <=? L).
        - simpl. by rewrite app_nil_r.
        - rewrite flush_packed, fold_packSection_packed, splitSections_concat.
          reflexivity. }
      by rewrite Hnone in Hcat.
    + unfold splitByTokens. destruct (estimateTokens (c :: rest) <=? L).
      * by repeat constructor.
      * pose proof (fold_packSection_well L _ _ start
                      (splitSections_elements (c :: rest)) (start_well L _))
          as (_ & Hne & _).
        fold start. unfold truthy.
        destruct (bool_decide_reflect
                    (currentChunk (fold_left (packSection L)
                                     (splitSections None [] (c :: rest)) start) = []))
          as [Hnil|Hnn]; simpl; [exact Hne|].
        apply Forall_app. split; [exact Hne|]. by repeat constructor.
  - unfold splitByTokens. change (estimateTokens []) with 0.
    destruct (Z.leb_spec 0 L) as [Hle|Hgt]; [done|].
    simpl. unfold packSection, truthy. simpl.
    by rewrite andb_false_r.
Qed.

(** [splitByTokens]: every chunk after the first starts at a section
    header, two hashes followed by a white-space character. *)
Theorem splitByTokens_chunks_start_at_headers text L :
  Forall startsSection (tail (splitByTokens text L)).
Proof.
  unfold splitByTokens. destruct (estimateTokens text <=? L); [constructor|].
  pose proof (splitSections_tail text None []) as Htail.
  destruct (splitSections_head text None []) as (first & others & E).
  rewrite E in *. simpl in Htail. cbn [fold_left].
  assert (aligned (packSection L (Packer [] [] 0) ([] ++ first))) as Hfirst.
  { unfold aligned, packSection, truthy. simpl. rewrite andb_false_r. constructor. }
  pose proof (fold_packSection_aligned L others _ Htail Hfirst) as Hal.
  unfold aligned in Hal.
  set (st := fold_left (packSection L) others (packSection L (Packer [] [] 0) ([] ++ first))) in *.
  unfold truthy. destruct (bool_decide_reflect (currentChunk st = [])) as [Hnil|Hnn];
    simpl; [|exact Hal].
  destruct (chunks st) as [|c0 more]; simpl in *; [constructor|].
  apply Forall_app in Hal as [Hal _]. exact Hal.
Qed.

End TokenChunks.

(* ===================================================================== *)
(** ** src/aggregation-formatter.ts: templates and rankings *)
(* ===================================================================== *)

Module Aggregation.
Import AggregationFormatter.

#[global] Instance SalesCategory_eq_dec : EqDecision SalesCategory.
Proof. solve_decision. Defined.

(** *** combineTemplates *)

(** [templateMap]: the entries of the [Map] in insertion order. *)
Definition templateMap := list (string * list string).

(** [if (!sources.includes(u)) sources.push(u)] *)
Definition pushSource (user : string) (sources : list string) : list string :=
  if Js.includes sources user then sources else sources ++ [user].

(** The array under [key] is extended in place. *)
Fixpoint updateSources (key user : string) (m : templateMap) : templateMap :=
  match m with
  | [] => []
  | (k, sources) :: m' =>
      if bool_decide (k = key) then (k, pushSource user sources) :: m'
      else (k, sources) :: updateSources key user m'
  end.

(** Body of the inner loop, for the expert [user]. *)
Definition visitTemplate (user : string) (m : templateMap) (template : string)
  : templateMap :=
  let normalized := Js.trim template in
  if bool_decide (normalized ∈ map fst m) then updateSources normalized user m
  else m ++ [(normalized, [user])].

Definition visitExpertTemplates (m : templateMap) (expertAnalysis : ExpertAnalysis)
  : templateMap :=
  fold_left (visitTemplate (username (expert expertAnalysis)))
            (ia_templates (analysis expertAnalysis)) m.

(** An element of [AggregatedAnalysis.combinedTemplates]. *)
Record CombinedTemplate := {
  ct_template : string;
  ct_sources : list string
}.

Definition combineTemplates (expertAnalyses : list ExpertAnalysis)
  : list CombinedTemplate :=
  map (fun entry => {| ct_template := fst entry; ct_sources := snd entry |})
      (fold_left visitExpertTemplates expertAnalyses []).

(** One use of a template: the expert and the text. *)
Abbreviation templateUse := (string * string)%type.

Definition usesOf (expertAnalysis : ExpertAnalysis) : list templateUse :=
  map (pair (username (expert expertAnalysis)))
      (ia_templates (analysis expertAnalysis)).

(** All uses, expert after expert. *)
Definition uses (expertAnalyses : list ExpertAnalysis) : list templateUse :=
  concat (map usesOf expertAnalyses).

(** The merge key: the trimmed text. *)
Definition textOf (r : templateUse) : string := Js.trim (snd r).

(** The experts using the text [key], each once, in order of first use. *)
Definition usersOf (rs : list templateUse) (key : string) : list string :=
  firstOccurrences (fun u => u) (map fst (filter (fun r => textOf r = key) rs)).

(** What [templateMap] holds after the uses [rs]. *)
Definition templatesAfter (rs : list templateUse) : templateMap :=
  map (fun r => (textOf r, usersOf rs (textOf r))) (firstOccurrences textOf rs).

Lemma elem_of_usersOf rs key u :
  u ∈ usersOf rs key <-> u ∈ map fst (filter (fun r => textOf r = key) rs).
Proof.
  unfold usersOf.
  pose proof (firstOccurrences_keys (fun u : string => u)
                (map fst (filter (fun r => textOf r = key) rs)) u) as H.
  by rewrite !map_id in H.
Qed.

Lemma usersOf_snoc_key rs r key :
  textOf r = key -> usersOf (rs ++ [r]) key = pushSource (fst r) (usersOf rs key).
Proof.
  intros Hk. unfold usersOf at 1. rewrite filter_app, filter_cons_True by done.
  rewrite filter_nil, map_app. cbn [map]. rewrite firstOccurrences_snoc, map_id.
  unfold pushSource, Js.includes.
  rewrite (bool_decide_ext _ _ (elem_of_usersOf rs key (fst r))).
  unfold usersOf. destruct (bool_decide _); [by rewrite app_nil_r | done].
Qed.

Lemma usersOf_snoc_same rs u template :
  usersOf (rs ++ [(u, template)]) (textOf (u, template))
  = pushSource u (usersOf rs (textOf (u, template))).
Proof. by apply usersOf_snoc_key. Qed.

Lemma usersOf_snoc_other rs r key :
  textOf r ≠ key -> usersOf (rs ++ [r]) key = usersOf rs key.
Proof.
  intros Hne. unfold usersOf.
  rewrite filter_app, filter_cons_False by done.
  by rewrite filter_nil, app_nil_r.
Qed.

Lemma usersOf_fresh rs key : key ∉ map textOf rs -> usersOf rs key = [].
Proof.
  intros Hk. unfold usersOf.
  replace (filter (fun r => textOf r = key) rs) with (@nil templateUse); [done|].
  symmetry. induction rs as [|r rs IH]; [done|].
  rewrite filter_cons_False.
  - apply IH. intros H. apply Hk. simpl. by apply elem_of_cons; right.
  - intros H. apply Hk. simpl. apply elem_of_cons. by left.
Qed.

Lemma map_usersOf_snoc_other rs x (l : list templateUse) :
  textOf x ∉ map textOf l ->
  map (fun r => (textOf r, usersOf (rs ++ [x]) (textOf r))) l
  = map (fun r => (textOf r, usersOf rs (textOf r))) l.
Proof.
  intros Hk. apply map_ext_in. intros r Hr.
  rewrite usersOf_snoc_other; [done|].
  intros E. apply Hk. rewrite E.
  apply list_elem_of_In, in_map, Hr.
Qed.

Lemma updateSources_after rs u template (l : list templateUse) :
  NoDup (map textOf l) ->
  updateSources (textOf (u, template)) u
    (map (fun r => (textOf r, usersOf rs (textOf r))) l)
  = map (fun r => (textOf r, usersOf (rs ++ [(u, template)]) (textOf r))) l.
Proof.
  induction l as [|r l IH]; intros Hnd; [done|].
  simpl in Hnd. apply NoDup_cons in Hnd as [Hr Hl].
  cbn [map updateSources]. case_bool_decide as Hk.
  - rewrite (usersOf_snoc_key rs (u, template) (textOf r)) by done.
    rewrite map_usersOf_snoc_other; [done | by rewrite <- Hk].
  - rewrite usersOf_snoc_other by congruence. by rewrite IH.
Qed.

Lemma templatesAfter_keys rs :
  map fst (templatesAfter rs) = map textOf (firstOccurrences textOf rs).
Proof. unfold templatesAfter. rewrite map_map. reflexivity. Qed.

Lemma visitTemplate_after rs u template :
  visitTemplate u (templatesAfter rs) template = templatesAfter (rs ++ [(u, template)]).
Proof.
  unfold visitTemplate.
  change (Js.trim template) with (textOf (u, template)).
  rewrite templatesAfter_keys.
  rewrite (bool_decide_ext _ _ (firstOccurrences_keys textOf rs (textOf (u, template)))).
  unfold templatesAfter. rewrite firstOccurrences_snoc.
  case_bool_decide as Hk.
  - rewrite app_nil_r. apply updateSources_after, firstOccurrences_NoDup.
  - rewrite map_app, map_usersOf_snoc_other
      by (by rewrite firstOccurrences_keys).
    simpl. rewrite usersOf_snoc_same, (usersOf_fresh _ _ Hk). reflexivity.
Qed.

Lemma visitTemplates_after u templates : forall rs,
  fold_left (visitTemplate u) templates (templatesAfter rs)
  = templatesAfter (rs ++ map (pair u) templates).
Proof.
  induction templates as [|t ts IH]; intros rs; simpl.
  - by rewrite app_nil_r.
  - rewrite visitTemplate_after, IH. by rewrite <- app_assoc.
Qed.

Lemma visitExpertsTemplates_after experts : forall rs,
  fold_left visitExpertTemplates experts (templatesAfter rs)
  = templatesAfter (rs ++ uses experts).
Proof.
  induction experts as [|ea experts IH]; intros rs; simpl.
  - unfold uses. simpl. by rewrite app_nil_r.
  - unfold visitExpertTemplates at 2.
    rewrite visitTemplates_after, IH.
    unfold uses, usesOf. simpl. by rewrite <- app_assoc.
Qed.

Lemma combineTemplates_merged experts :
  combineTemplates experts
  = map (fun r => {| ct_template := textOf r;
                     ct_sources := usersOf (uses experts) (textOf r) |})
        (firstOccurrences textOf (uses experts)).
Proof.
  unfold combineTemplates. change (@nil (string * list string)) with (templatesAfter []).
  rewrite visitExpertsTemplates_after. simpl.
  unfold templatesAfter. by rewrite map_map.
Qed.

(** [combineTemplates]: the aggregated templates hold one entry per
    trimmed template text, in the order of first use; texts are compared
    as they are, so two texts that differ in case stay apart.  The
    sources of an entry are the experts that use a template with that
    trimmed text, each once, in the order of their first use. *)
Theorem combineTemplates_one_per_text (expertAnalyses : list ExpertAnalysis) :
  let rs := uses expertAnalyses in
  let out := combineTemplates expertAnalyses in
  map ct_template out = firstOccurrences (fun t => t) (map textOf rs)
  /\ NoDup (map ct_template out)
  /\ (forall t, t ∈ map ct_template out <-> exists u template,
         (u, template) ∈ rs /\ Js.trim template = t)
  /\ (forall e, e ∈ out ->
        NoDup (ct_sources e)
        /\ (forall u, u ∈ ct_sources e <->
              exists template, (u, template) ∈ rs /\ Js.trim template = ct_template e)
        /\ ct_sources e = usersOf rs (ct_template e)).
Proof.
  intros rs out.
  assert (Hout : out = map (fun r => {| ct_template := textOf r;
                                        ct_sources := usersOf rs (textOf r) |})
                           (firstOccurrences textOf rs))
    by apply combineTemplates_merged.
  assert (Hkeys : map ct_template out = map textOf (firstOccurrences textOf rs)).
  { rewrite Hout. by rewrite map_map. }
  split; [|split; [|split]].
  - rewrite Hkeys. clear. induction rs as [|r rs IH] using rev_ind; [done|].
    rewrite map_app. simpl. rewrite !firstOccurrences_snoc, map_app, IH, map_id.
    by case_bool_decide.
  - rewrite Hkeys. apply firstOccurrences_NoDup.
  - intros t. rewrite Hkeys, firstOccurrences_keys.
    rewrite list_elem_of_In, in_map_iff. split.
    + intros ([u template] & <- & Hr). exists u, template.
      split; [by apply list_elem_of_In | done].
    + intros (u & template & Hr & <-). exists (u, template).
      split; [done | by apply list_elem_of_In].
  - intros e He. rewrite Hout in He.
    apply list_elem_of_In, in_map_iff in He as (r & <- & Hr). simpl.
    split; [|split; [|done]].
    + unfold usersOf.
      pose proof (firstOccurrences_NoDup (fun u : string => u)
        (map fst (filter (fun r' => textOf r' = textOf r) rs))) as H.
      by rewrite map_id in H.
    + intros u. rewrite elem_of_usersOf.
      rewrite list_elem_of_In, in_map_iff. split.
      * intros ([u1 t1] & <- & H1). apply list_elem_of_In, list_elem_of_filter in H1.
        destruct H1 as [H1 H2]. exists t1. split; [exact H2 | exact H1].
      * intros (t1 & H1 & H2). exists (u, t1). split; [done|].
        apply list_elem_of_In, list_elem_of_filter. split; [exact H2 | exact H1].
Qed.

(** *** The first [limit] elements of a list sorted by a score *)

Section Top.
Context {A : Type} (score : A -> Q).

Lemma take_sorted n : forall l,
  StronglySorted (notBelow score) l -> StronglySorted (notBelow score) (take n l).
Proof.
  induction n as [|n IH]; intros l Hl; [constructor|].
  destruct l as [|x l]; [constructor|]. simpl.
  apply StronglySorted_inv in Hl as [Hl Hx].
  constructor; [by apply IH|].
  apply Forall_forall. intros y Hy.
  assert (y ∈ l) as Hyl.
  { rewrite <- (take_drop n l). apply elem_of_app. by left. }
  by apply (proj1 (Forall_forall _ _) Hx).
Qed.

Lemma take_dominates n : forall l a b,
  StronglySorted (notBelow score) l -> a ∈ take n l -> b ∈ drop n l ->
  notBelow score a b.
Proof.
  induction n as [|n IH]; intros l a b Hl Ha Hb; [by inversion Ha|].
  destruct l as [|x l]; [by inversion Ha|]. simpl in *.
  apply StronglySorted_inv in Hl as [Hl Hx].
  apply elem_of_cons in Ha as [->|Ha]; [|by apply (IH l)].
  apply (proj1 (Forall_forall _ _) Hx).
  rewrite <- (take_drop n l). apply elem_of_app. by right.
Qed.

(** An element left out of the first [n] of the sorted list scores at
    most what every element among them scores. *)
Lemma top_of_sort n l x y :
  x ∈ l -> y ∈ take n (Js.sort (descending score) l) ->
  x ∈ take n (Js.sort (descending score) l) \/ (score x <= score y)%Q.
Proof.
  intros Hx Hy.
  assert (x ∈ Js.sort (descending score) l) as Hxs
    by (by rewrite sort_Permutation).
  rewrite <- (take_drop n (Js.sort (descending score) l)) in Hxs.
  apply elem_of_app in Hxs as [Hxs|Hxs]; [by left|]. right.
  exact (take_dominates n _ y x (sort_sorted score l) Hy Hxs).
Qed.
End Top.

(** *** getTopInsightsByCategory *)

(** [byCategory]: the entries of the [Map] in insertion order. *)
Definition categoryMap := list (SalesCategory * list SalesInsight).

(** [byCategory.get(insight.category)!.push(insight)] *)
Fixpoint pushInsight (insight : SalesInsight) (m : categoryMap) : categoryMap :=
  match m with
  | [] => []
  | (k, l) :: m' =>
      if bool_decide (k = si_category insight) then (k, l ++ [insight]) :: m'
      else (k, l) :: pushInsight insight m'
  end.

(** Body of the grouping loop. *)
Definition groupInsight (m : categoryMap) (insight : SalesInsight) : categoryMap :=
  pushInsight insight
    (if bool_decide (si_category insight ∈ map fst m) then m
     else m ++ [(si_category insight, [])]).

(** [limit] is a count; both callers pass 5. *)
Definition getTopInsightsByCategory (insights : list SalesInsight) (limit : nat)
  : categoryMap :=
  map (fun entry =>
         (fst entry, take limit (Js.sort (descending si_confidence) (snd entry))))
      (fold_left groupInsight insights []).

(** The key under which an insight is grouped: the string value of its
    category. *)
Definition categoryKey (insight : SalesInsight) : string :=
  ClaudeService.categoryValue (si_category insight).

Lemma categoryValue_inj a b :
  ClaudeService.categoryValue a = ClaudeService.categoryValue b -> a = b.
Proof. destruct a, b; simpl; intros H; try reflexivity; discriminate H. Qed.

Lemma category_seen (l : list SalesInsight) c :
  c ∈ map si_category l <-> ClaudeService.categoryValue c ∈ map categoryKey l.
Proof.
  rewrite !list_elem_of_In, !in_map_iff. split.
  - intros (i & <- & Hi). by exists i.
  - intros (i & E & Hi). exists i. split; [|done].
    symmetry. by apply categoryValue_inj.
Qed.

(** The insights of [insights] in category [c], in order. *)
Definition inCategory (c : SalesCategory) (insights : list SalesInsight)
  : list SalesInsight :=
  filter (fun i => si_category i = c) insights.

(** The categories of [insights] in the order of first appearance. *)
Definition categoriesOf (insights : list SalesInsight) : list SalesCategory :=
  map si_category (firstOccurrences categoryKey insights).

Lemma categoriesOf_snoc insights i :
  categoriesOf (insights ++ [i])
  = categoriesOf insights
      ++ (if bool_decide (si_category i ∈ map si_category insights) then []
          else [si_category i]).
Proof.
  unfold categoriesOf. rewrite firstOccurrences_snoc, map_app.
  rewrite (bool_decide_ext _ _ (category_seen insights (si_category i))).
  fold (categoryKey i). by destruct (bool_decide _).
Qed.

Lemma categoriesOf_elem insights c :
  c ∈ categoriesOf insights <-> c ∈ map si_category insights.
Proof.
  unfold categoriesOf. rewrite !category_seen. apply firstOccurrences_keys.
Qed.

Lemma categoriesOf_NoDup insights : NoDup (categoriesOf insights).
Proof.
  induction insights as [|i insights IH] using rev_ind; [constructor|].
  rewrite categoriesOf_snoc. case_bool_decide as Hc; [by rewrite app_nil_r|].
  apply NoDup_app. split; [done|]. split; [|apply NoDup_singleton].
  intros c Hc1 Hc2. apply list_elem_of_singleton in Hc2. subst.
  by apply Hc, categoriesOf_elem.
Qed.

(** What [byCategory] holds after the grouping loop has seen [done]. *)
Definition groupedAfter (done : list SalesInsight) : categoryMap :=
  map (fun c => (c, inCategory c done)) (categoriesOf done).

Lemma inCategory_snoc c done i :
  inCategory c (done ++ [i])
  = inCategory c done ++ (if bool_decide (si_category i = c) then [i] else []).
Proof.
  unfold inCategory. rewrite filter_app. f_equal.
  case_bool_decide; [by rewrite filter_cons_True | by rewrite filter_cons_False].
Qed.

Lemma inCategory_unseen c done :
  c ∉ map si_category done -> inCategory c done = [].
Proof.
  unfold inCategory. induction done as [|i done IH]; intros Hc; [done|].
  rewrite filter_cons_False.
  - apply IH. intros H. apply Hc. simpl. apply elem_of_cons. by right.
  - intros H. apply Hc. simpl. apply elem_of_cons. by left.
Qed.

Lemma pushInsight_after done i (l : list SalesCategory) :
  NoDup l ->
  pushInsight i (map (fun c => (c, inCategory c done)) l)
  = map (fun c => (c, inCategory c (done ++ [i]))) l.
Proof.
  induction l as [|c l IH]; intros Hnd; [done|].
  apply NoDup_cons in Hnd as [Hc Hl].
  cbn [map pushInsight]. rewrite inCategory_snoc.
  case_bool_decide as Hk.
  - rewrite bool_decide_eq_true_2 by done. f_equal.
    apply map_ext_in. intros d Hd. rewrite inCategory_snoc.
    rewrite bool_decide_eq_false_2; [by rewrite app_nil_r|].
    intros E. apply Hc. rewrite Hk, E. by apply list_elem_of_In.
  - rewrite bool_decide_eq_false_2 by done. rewrite app_nil_r.
    by rewrite IH.
Qed.

Lemma groupInsight_after done i :
  groupInsight (groupedAfter done) i = groupedAfter (done ++ [i]).
Proof.
  unfold groupInsight, groupedAfter.
  rewrite map_map. cbn [fst]. rewrite map_id.
  rewrite (bool_decide_ext _ _ (categoriesOf_elem done (si_category i))).
  rewrite categoriesOf_snoc. case_bool_decide as Hc.
  - rewrite app_nil_r. apply pushInsight_after, categoriesOf_NoDup.
  - replace [(si_category i, @nil SalesInsight)]
      with (map (fun c => (c, inCategory c done)) [si_category i])
      by (simpl; by rewrite (inCategory_unseen _ _ Hc)).
    rewrite <- map_app. apply pushInsight_after.
    pose proof (categoriesOf_NoDup (done ++ [i])) as Hnd.
    rewrite categoriesOf_snoc in Hnd.
    by rewrite bool_decide_eq_false_2 in Hnd.
Qed.

Lemma grouping_after insights : forall done,
  fold_left groupInsight insights (groupedAfter done) = groupedAfter (done ++ insights).
Proof.
  induction insights as [|i insights IH]; intros done; simpl.
  - by rewrite app_nil_r.
  - rewrite groupInsight_after, IH. by rewrite <- app_assoc.
Qed.

Lemma getTopInsightsByCategory_grouped insights limit :
  getTopInsightsByCategory insights limit
  = map (fun c => (c, take limit (Js.sort (descending si_confidence)
                                         (inCategory c insights))))
        (categoriesOf insights).
Proof.
  unfold getTopInsightsByCategory.
  change (@nil (SalesCategory * list SalesInsight)) with (groupedAfter []).
  rewrite grouping_after. simpl. unfold groupedAfter. by rewrite map_map.
Qed.

(** [getTopInsightsByCategory]: the result has one entry per category
    that occurs among the insights, in the order of first appearance.
    The entry of a category holds at most [limit] insights, all of that
    category, in descending order of confidence; an insight of the
    category that is left out has at most the confidence of every
    insight that is kept. *)
Theorem getTopInsightsByCategory_top (insights : list SalesInsight) (limit : nat) :
  let out := getTopInsightsByCategory insights limit in
  map fst out = categoriesOf insights
  /\ NoDup (map fst out)
  /\ (forall c, c ∈ map fst out <-> c ∈ map si_category insights)
  /\ (forall c top, (c, top) ∈ out ->
        top = take limit (Js.sort (descending si_confidence) (inCategory c insights))
        /\ (length top <= limit)%nat
        /\ StronglySorted (fun a b => (si_confidence b <= si_confidence a)%Q) top
        /\ (forall i, i ∈ top -> i ∈ insights /\ si_category i = c)
        /\ (forall i j, i ∈ insights -> si_category i = c -> j ∈ top ->
               i ∈ top \/ (si_confidence i <= si_confidence j)%Q)).
Proof.
  intros out.
  assert (Hout : out = map (fun c => (c, take limit (Js.sort (descending si_confidence)
                                                       (inCategory c insights))))
                           (categoriesOf insights))
    by apply getTopInsightsByCategory_grouped.
  assert (Hkeys : map fst out = categoriesOf insights).
  { rewrite Hout, map_map. cbn [fst]. apply map_id. }
  split; [exact Hkeys|]. split; [rewrite Hkeys; apply categoriesOf_NoDup|].
  split; [intros c; rewrite Hkeys; apply categoriesOf_elem|].
  intros c top Hin. rewrite Hout in Hin.
  apply list_elem_of_In, in_map_iff in Hin as (c' & E & _).
  inversion E; subst c' top; clear E.
  split; [reflexivity|]. split; [|split; [|split]].
  - rewrite length_take. lia.
  - apply (take_sorted si_confidence), (sort_sorted si_confidence).
  - intros i Hi.
    assert (i ∈ inCategory c insights) as Hi'.
    { rewrite <- (sort_Permutation si_confidence).
      rewrite <- (take_drop limit (Js.sort _ _)). apply elem_of_app. by left. }
    by apply list_elem_of_filter in Hi' as [? ?].
  - intros i j Hi Hc Hj. apply top_of_sort; [|done].
    by apply list_elem_of_filter.
Qed.

(** *** getTopCategories *)

(** [categoryCounts]: the entries of the [Map] in insertion order. *)
Definition countMap := list (SalesCategory * Z).

(** [categoryCounts.get(category)] *)
Fixpoint getCount (m : countMap) (category : SalesCategory) : option Z :=
  match m with
  | [] => None
  | (k, n) :: m' => if bool_decide (k = category) then Some n else getCount m' category
  end.

(** [categoryCounts.set(category, n)] *)
Fixpoint setCount (category : SalesCategory) (n : Z) (m : countMap) : countMap :=
  match m with
  | [] => [(category, n)]
  | (k, v) :: m' =>
      if bool_decide (k = category) then (k, n) :: m'
      else (k, v) :: setCount category n m'
  end.

(** [x || 0] *)
Definition orZero (x : option Z) : Z :=
  match x with
  | Some n => if n =? 0 then 0 else n
  | None => 0
  end.

(** Body of the counting loop. *)
Definition countInsight (m : countMap) (insight : SalesInsight) : countMap :=
  setCount (si_category insight)
           (orZero (getCount m (si_category insight)) + 1) m.

(** The second component of an entry, as the number the comparator
    subtracts. *)
Definition countOf (entry : SalesCategory * Z) : Q := inject_Z (snd entry).

Definition getTopCategories (insights : list SalesInsight) (limit : nat)
  : list SalesCategory :=
  map fst (take limit (Js.sort (descending countOf)
                               (fold_left countInsight insights []))).

(** The number of insights in category [c]. *)
Definition occurrences (insights : list SalesInsight) (c : SalesCategory) : Z :=
  Z.of_nat (length (inCategory c insights)).

(** What [categoryCounts] holds after the loop has seen [done]. *)
Definition countedAfter (done : list SalesInsight) : countMap :=
  map (fun c => (c, occurrences done c)) (categoriesOf done).

Lemma occurrences_snoc done i c :
  occurrences (done ++ [i]) c
  = occurrences done c + (if bool_decide (si_category i = c) then 1 else 0).
Proof.
  unfold occurrences. rewrite inCategory_snoc, length_app.
  case_bool_decide; simpl; lia.
Qed.

Lemma occurrences_unseen done c :
  c ∉ map si_category done -> occurrences done c = 0.
Proof. intros H. unfold occurrences. by rewrite inCategory_unseen. Qed.

Lemma occurrences_seen done c :
  c ∈ map si_category done -> 0 < occurrences done c.
Proof.
  intros H. apply list_elem_of_In, in_map_iff in H as (i & Hc & Hi).
  assert (i ∈ inCategory c done) as Hin
    by (apply list_elem_of_filter; split; [done | by apply list_elem_of_In]).
  unfold occurrences. destruct (inCategory c done); [by inversion Hin|].
  simpl. lia.
Qed.

Lemma getCount_after done c (l : list SalesCategory) :
  getCount (map (fun c => (c, occurrences done c)) l) c
  = if bool_decide (c ∈ l) then Some (occurrences done c) else None.
Proof.
  induction l as [|d l IH]; [done|]. cbn [map getCount].
  destruct (decide (d = c)) as [->|Hd].
  - rewrite !bool_decide_eq_true_2; [done | by apply elem_of_cons; left | done].
  - rewrite (bool_decide_eq_false_2 (d = c)) by done. rewrite IH.
    apply (f_equal (fun b : bool => if b then _ else _)).
    apply bool_decide_ext. rewrite elem_of_cons.
    split; [by right | intros [E|H]; [congruence | done]].
Qed.

Lemma setCount_after done i (l : list SalesCategory) :
  NoDup l -> si_category i ∈ l ->
  setCount (si_category i) (occurrences (done ++ [i]) (si_category i))
           (map (fun c => (c, occurrences done c)) l)
  = map (fun c => (c, occurrences (done ++ [i]) c)) l.
Proof.
  induction l as [|c l IH]; intros Hnd Hin; [by inversion Hin|].
  apply NoDup_cons in Hnd as [Hc Hl].
  cbn [map setCount]. case_bool_decide as Hk.
  - subst c. f_equal. apply map_ext_in. intros d Hd.
    rewrite occurrences_snoc, bool_decide_eq_false_2; [by rewrite Z.add_0_r|].
    intros E. apply Hc. rewrite E. by apply list_elem_of_In.
  - rewrite (occurrences_snoc done i c), bool_decide_eq_false_2 by congruence.
    rewrite Z.add_0_r. f_equal. apply IH; [done|].
    apply elem_of_cons in Hin as [Hin|Hin]; [congruence | done].
Qed.

Lemma setCount_fresh c n (m : countMap) :
  c ∉ map fst m -> setCount c n m = m ++ [(c, n)].
Proof.
  induction m as [|[k v] m IH]; intros Hc; [done|]. cbn [setCount].
  rewrite bool_decide_eq_false_2.
  - simpl. rewrite IH; [done|]. intros H. apply Hc. simpl. apply elem_of_cons. by right.
  - intros E. apply Hc. simpl. apply elem_of_cons. by left.
Qed.

Lemma countInsight_after done i :
  countInsight (countedAfter done) i = countedAfter (done ++ [i]).
Proof.
  unfold countInsight, countedAfter.
  rewrite getCount_after, categoriesOf_snoc.
  rewrite (bool_decide_ext _ _ (categoriesOf_elem done (si_category i))).
  case_bool_decide as Hc.
  - rewrite app_nil_r. cbn [orZero].
    pose proof (occurrences_seen done _ Hc) as Hpos.
    destruct (Z.eqb_spec (occurrences done (si_category i)) 0) as [E|_]; [lia|].
    replace (occurrences done (si_category i) + 1)
      with (occurrences (done ++ [i]) (si_category i))
      by (by rewrite occurrences_snoc, bool_decide_eq_true_2).
    apply setCount_after; [apply categoriesOf_NoDup | by apply categoriesOf_elem].
  - cbn [orZero]. rewrite setCount_fresh.
    + rewrite map_app. cbn [map].
      rewrite occurrences_snoc, bool_decide_eq_true_2 by done.
      rewrite (occurrences_unseen _ _ Hc). f_equal.
      apply map_ext_in. intros d Hd.
      rewrite occurrences_snoc, bool_decide_eq_false_2; [by rewrite Z.add_0_r|].
      intros E. apply Hc. rewrite E. by apply categoriesOf_elem, list_elem_of_In.
    + rewrite map_map. cbn [fst]. rewrite map_id. by rewrite categoriesOf_elem.
Qed.

Lemma counting_after insights : forall done,
  fold_left countInsight insights (countedAfter done) = countedAfter (done ++ insights).
Proof.
  induction insights as [|i insights IH]; intros done; simpl.
  - by rewrite app_nil_r.
  - rewrite countInsight_after, IH. by rewrite <- app_assoc.
Qed.

Lemma getTopCategories_counted insights limit :
  getTopCategories insights limit
  = map fst (take limit (Js.sort (descending countOf) (countedAfter insights))).
Proof.
  unfold getTopCategories.
  change (@nil (SalesCategory * Z)) with (countedAfter []).
  by rewrite counting_after.
Qed.

(** [getTopCategories]: the result lists at most [limit] categories,
    each once and each occurring among the insights, in descending order
    of the number of insights they hold; a category of the insights that
    is left out holds at most as many insights as every category that is
    listed. *)
Theorem getTopCategories_most_frequent (insights : list SalesInsight) (limit : nat) :
  let out := getTopCategories insights limit in
  (length out <= limit)%nat
  /\ NoDup out
  /\ (forall c, c ∈ out -> c ∈ map si_category insights)
  /\ StronglySorted (fun a b => occurrences insights b <= occurrences insights a) out
  /\ (forall c d, c ∈ map si_category insights -> d ∈ out ->
         c ∈ out \/ occurrences insights c <= occurrences insights d).
Proof.
  intros out.
  set (sorted := Js.sort (descending countOf) (countedAfter insights)).
  assert (Hout : out = map fst (take limit sorted))
    by apply getTopCategories_counted.
  assert (Hperm : Permutation sorted (countedAfter insights))
    by apply sort_Permutation.
  assert (Hentry : forall e, e ∈ sorted ->
            fst e ∈ categoriesOf insights /\ snd e = occurrences insights (fst e)).
  { intros e He. rewrite Hperm in He. unfold countedAfter in He.
    apply list_elem_of_In, in_map_iff in He as (c & <- & Hc).
    split; [by apply list_elem_of_In | done]. }
  assert (Htake : forall e, e ∈ take limit sorted -> e ∈ sorted).
  { intros e He. rewrite <- (take_drop limit sorted). apply elem_of_app. by left. }
  assert (Hkeys : NoDup (map fst sorted)).
  { rewrite Hperm. unfold countedAfter. rewrite map_map. cbn [fst].
    rewrite map_id. apply categoriesOf_NoDup. }
  split; [|split; [|split; [|split]]].
  - rewrite Hout, length_map, length_take. lia.
  - rewrite Hout. rewrite <- (take_drop limit sorted), map_app in Hkeys.
    by apply NoDup_app in Hkeys as [? _].
  - intros c Hc. rewrite Hout in Hc.
    apply list_elem_of_In, in_map_iff in Hc as (e & <- & He).
    apply categoriesOf_elem, Hentry, Htake. by apply list_elem_of_In.
  - rewrite Hout.
    pose proof (take_sorted countOf limit sorted (sort_sorted countOf _)) as Hs.
    revert Hs Htake. generalize (take limit sorted). intros l Hs Hl.
    induction Hs as [|e l Hs IH He]; [constructor|]. simpl.
    constructor.
    + apply IH. intros e' He'. apply Hl. apply elem_of_cons. by right.
    + apply Forall_forall. intros d Hd.
      apply list_elem_of_In, in_map_iff in Hd as (e' & <- & He').
      pose proof (proj1 (Forall_forall _ _) He e' (proj2 (list_elem_of_In _ _) He')) as Hle.
      unfold notBelow, countOf in Hle. rewrite <- Zle_Qle in Hle.
      destruct (Hentry e) as [_ <-]; [apply Hl, elem_of_cons; by left|].
      destruct (Hentry e') as [_ <-];
        [apply Hl, elem_of_cons; right; by apply list_elem_of_In|].
      exact Hle.
  - intros c d Hc Hd. rewrite Hout in Hd.
    apply list_elem_of_In, in_map_iff in Hd as (e & <- & He).
    apply list_elem_of_In in He.
    assert ((c, occurrences insights c) ∈ countedAfter insights) as Hce.
    { unfold countedAfter. apply list_elem_of_In, in_map_iff. exists c.
      split; [done|]. by apply list_elem_of_In, categoriesOf_elem. }
    destruct (top_of_sort countOf limit _ _ e Hce He) as [Hin|Hle].
    + left. rewrite Hout. apply list_elem_of_In, in_map_iff.
      exists (c, occurrences insights c). split; [done | by apply list_elem_of_In].
    + right. unfold countOf in Hle. rewrite <- Zle_Qle in Hle. simpl in Hle.
      by destruct (Hentry e (Htake e He)) as [_ <-].
Qed.

End Aggregation.

(* ===================================================================== *)
(** ** src/claude-service.ts: the two passes of [batchAnalyzePosts] *)
(* ===================================================================== *)

Module TwoPass.
Import ClaudeService.

Section Passes.
Variable env : Collaborators.
Variable focusTopics : option (list string).

(** The request that scores [post]. *)
Definition scoringRequest (post : LinkedInPost) : Request :=
  relevanceRequest (buildRelevancePrompt env post focusTopics).

Lemma clamp01_range relevance : (0 <= clamp01 relevance <= 1)%Q.
Proof.
  unfold clamp01. split; [apply Q.le_max_l|].
  apply Q.max_lub; [discriminate | apply Q.le_min_l].
Qed.

Lemma scorePostRelevance_sent post s :
  exists score s',
    scorePostRelevance env post focusTopics s = (Returned score, s')
    /\ sent s' = sent s ++ [scoringRequest post]
    /\ (0 <= score <= 1)%Q.
Proof.
  unfold scorePostRelevance, create, firstBlock. eff.
  destruct (messagesCreate env (calls s) _) as [[|[text|] rest]|e]; eff;
    try (eexists _, _; split; [reflexivity | split; [reflexivity | by split]]).
  destruct (parseRelevanceJson env text) as [[relevance|]|]; eff;
    eexists _, _; (split; [reflexivity | split; [reflexivity|]]);
    [apply clamp01_range | by split | by split].
Qed.

(** [scorePostRelevance] never throws.  It sends one request, to the
    scoring model, and its score lies between 0 and 1: the number the
    model gives, clamped; 0 when the answer carries no number; 0.5 when
    the request fails. *)
Theorem scorePostRelevance_score_in_range (post : LinkedInPost) (s : Session) :
  exists score s',
    scorePostRelevance env post focusTopics s = (Returned score, s')
    /\ sent s' = sent s ++ [scoringRequest post]
    /\ model (scoringRequest post) = haiku
    /\ (0 <= score <= 1)%Q
    /\ match messagesCreate env (calls s) (scoringRequest post) with
       | Rejects _ => score = 1 # 2
       | Resolves (TextBlock text :: _) =>
           match parseRelevanceJson env text with
           | Some (Some relevance) => score = Qmax 0 (Qmin 1 relevance)
           | _ => score = 0%Q
           end
       | Resolves (OtherBlock :: _) => score = 0%Q
       | Resolves [] => score = 1 # 2
       end.
Proof.
  unfold scorePostRelevance, create, firstBlock, scoringRequest. eff.
  destruct (messagesCreate env (calls s) _) as [[|[text|] rest]|e]; eff;
    try (eexists _, _; split; [reflexivity | by repeat split]).
  destruct (parseRelevanceJson env text) as [[relevance|]|]; eff;
    eexists _, _; (split; [reflexivity | repeat split; try done]);
    apply clamp01_range.
Qed.

Lemma scoreBatch_sent batch : forall s,
  exists batchScores s',
    forEach (scoreOne env focusTopics) batch s = (Returned batchScores, s')
    /\ map fst batchScores = batch
    /\ sent s' = sent s ++ map scoringRequest batch.
Proof.
  induction batch as [|post batch IH]; intros s; simpl.
  - exists [], s. split; [done|]. split; [done | by rewrite app_nil_r].
  - destruct (scorePostRelevance_sent post s) as (score & s1 & E1 & H1 & _).
    destruct (IH s1) as (rest & s2 & E2 & Hrest & H2).
    unfold Eff.bind at 1. unfold scoreOne at 1. eff. rewrite E1.
    unfold Eff.bind. rewrite E2. eff.
    exists ((post, score) :: rest), s2. split; [done|]. split.
    + simpl. by rewrite Hrest.
    + rewrite H2, H1. by rewrite <- app_assoc.
Qed.

Lemma slice_drop {A} i n (xs : list A) :
  slice i (i + n) xs ++ drop (i + n) xs = drop i xs.
Proof.
  unfold slice. replace (i + n - i)%nat with n by lia.
  rewrite <- drop_drop. apply take_drop.
Qed.

(** Pass 1 scores every post from [i] on, in order, and returns. *)
Lemma scoringPass_sent posts batchSize :
  (0 < batchSize)%nat ->
  forall fuel i relevanceScores s,
    (length posts - i <= fuel)%nat ->
    exists scores s',
      scoringPass env fuel i posts batchSize focusTopics relevanceScores s
        = (Returned (relevanceScores ++ scores), s')
      /\ map fst scores = drop i posts
      /\ sent s' = sent s ++ map scoringRequest (drop i posts).
Proof.
  intros Hbs. induction fuel as [|fuel IH]; intros i acc s Hfuel.
  - simpl. destruct (Nat.ltb_spec i (length posts)); [lia|].
    exists [], s. rewrite drop_ge by lia. by rewrite !app_nil_r.
  - simpl. destruct (Nat.ltb_spec i (length posts)) as [Hi|Hi].
    + destruct (scoreBatch_sent (slice i (i + batchSize) posts) s)
        as (batchScores & s1 & E1 & Hb & H1).
      unfold mbind at 1, M_bind, Eff.bind at 1.
      rewrite E1.
      set (pause := if (i + batchSize <? length posts)%nat then sleep 7000 else mret tt).
      assert (Hpause : exists s2, pause s1 = (Returned tt, s2) /\ sent s2 = sent s1).
      { unfold pause, sleep. destruct (i + batchSize <? length posts)%nat; eff; eauto. }
      destruct Hpause as (s2 & E2 & Hs2).
      unfold mbind, M_bind, Eff.bind. rewrite E2.
      destruct (IH (i + batchSize)%nat (acc ++ batchScores) s2)
        as (scores & s3 & E3 & Hscores & H3); [lia|].
      exists (batchScores ++ scores), s3. split; [by rewrite app_assoc|]. split.
      * rewrite map_app, Hb, Hscores. apply slice_drop.
      * rewrite H3, Hs2, H1, <- app_assoc, <- map_app. by rewrite slice_drop.
    + exists [], s. rewrite drop_ge by lia. by rewrite !app_nil_r.
Qed.


















End Passes.

(** The scoring model rates every post 0.9, and the extraction model
    answers with one insight. *)
Definition keen : Collaborators :=
  {| messagesCreate := fun _ _ => Resolves [TextBlock "an answer"];
     downloadImageAsBase64 := fun _ _ => None;
     parseAnalysisJson := fun _ =>
       Some {| pa_insights :=
                 Some [ {| ri_category := "TACTICS";
                           ri_insight := "Lead with research";
                           ri_confidence := Some (8 # 10) |} ];
               pa_templates := None; pa_actionableItems := None;
               pa_methodologies := None |};
     parseRelevanceJson := fun _ => Some (Some (9 # 10));
     buildAnalysisPrompt := fun post _ => "analyse " +:+ post_content post;
     buildRelevancePrompt := fun post _ => "score " +:+ post_content post;
     now := fun _ => "2025-01-01T00:00:00.000Z" |}.

Example keen_requests :
  map model (sent (snd (batchAnalyzePosts keen [textPost; textPost] 5 None
                          freshSession)))
  = [haiku; haiku; sonnet; sonnet].
Proof. by vm_compute. Qed.


(** *** The three deduplications of the result *)

Section Unseen.
Context {A : Type} (key : A -> string).

Lemma filterUnseen_from xs : forall earlier,
  filterUnseen key (list_to_set (map key earlier)) xs
  = firstOccurrencesFrom key earlier xs.
Proof.
  induction xs as [|x xs IH]; intros earlier; [done|]. simpl.
  assert (Hset : ({[key x]} ∪ list_to_set (map key earlier) : gset string)
                 = list_to_set (map key (earlier ++ [x]))).
  { rewrite map_app, list_to_set_app_L. simpl.
    rewrite (right_id_L ∅ (∪)). apply (comm_L (∪)). }
  assert (Hseen : key x ∈ (list_to_set (map key earlier) : gset string)
                  <-> key x ∈ map key earlier)
    by apply elem_of_list_to_set.
  rewrite <- IH, <- Hset.
  destruct (decide (key x ∈ map key earlier)) as [Hin|Hnin].
  - rewrite !bool_decide_eq_true_2 by tauto. simpl. f_equal.
    symmetry. apply subseteq_union_1_L, singleton_subseteq_l. tauto.
  - rewrite !bool_decide_eq_false_2 by tauto. done.
Qed.

Lemma filterUnseen_first xs :
  filterUnseen key ∅ xs = firstOccurrences key xs.
Proof. apply (filterUnseen_from xs []). Qed.

Lemma firstOccurrences_sublist l : sublist (firstOccurrences key l) l.
Proof.
  induction l as [|x l IH] using rev_ind; [constructor|].
  rewrite firstOccurrences_snoc. case_bool_decide.
  - rewrite app_nil_r. by apply sublist_inserts_r.
  - by apply sublist_app.
Qed.

Lemma firstOccurrences_distinct l :
  NoDup (map key l) -> firstOccurrences key l = l.
Proof.
  induction l as [|x l IH] using rev_ind; [done|].
  rewrite map_app. intros Hnd. apply NoDup_app in Hnd as (Hl & Hx & _).
  rewrite firstOccurrences_snoc, IH by done.
  rewrite bool_decide_eq_false_2; [done|].
  intros Hin. apply (Hx _ Hin). simpl. apply elem_of_cons. by left.
Qed.

Lemma firstOccurrences_again l :
  firstOccurrences key (firstOccurrences key l) = firstOccurrences key l.
Proof. apply firstOccurrences_distinct, firstOccurrences_NoDup. Qed.
End Unseen.

(** The key under which [deduplicateInsights] compares two insights:
    the category and the first 50 characters of the text. *)
Definition insightKey (insight : SalesInsight) : string :=
  categoryValue (si_category insight) +:+ "-"
    +:+ String.substring 0 50 (si_insight insight).

(** [deduplicateInsights] and [deduplicateMethodologies] keep the first
    element of every key, in the order of the input, and nothing else;
    deduplicating the result again changes nothing.  Two insights of one
    category whose texts agree on their first 50 characters count as the
    same insight, whatever follows. *)
Theorem deduplicate_keeps_first_per_key :
  (forall all : list SalesInsight,
     let out := deduplicateInsights all in
     out = firstOccurrences insightKey all
     /\ NoDup (map insightKey out)
     /\ sublist out all
     /\ (forall i, i ∈ all -> insightKey i ∈ map insightKey out)
     /\ deduplicateInsights out = out)
  /\ (forall a b : SalesInsight,
        si_category a = si_category b ->
        String.substring 0 50 (si_insight a) = String.substring 0 50 (si_insight b) ->
        deduplicateInsights [a; b] = [a])
  /\ (forall all : list Methodology,
        let out := deduplicateMethodologies all in
        out = firstOccurrences m_name all
        /\ NoDup (map m_name out)
        /\ sublist out all
        /\ (forall m, m ∈ all -> m_name m ∈ map m_name out)
        /\ deduplicateMethodologies out = out).
Proof.
  assert (Hi : forall all, deduplicateInsights all = firstOccurrences insightKey all)
    by (intros all; apply (filterUnseen_first insightKey)).
  assert (Hm : forall all, deduplicateMethodologies all = firstOccurrences m_name all)
    by (intros all; apply (filterUnseen_first m_name)).
  split; [|split].
  - intros all out. unfold out. rewrite !Hi.
    split; [done|]. split; [apply firstOccurrences_NoDup|].
    split; [apply firstOccurrences_sublist|].
    split; [|apply firstOccurrences_again].
    intros i Hin. apply firstOccurrences_keys.
    by apply list_elem_of_In, in_map, list_elem_of_In.
  - intros a b Hc Ht. rewrite Hi. unfold firstOccurrences. simpl.
    rewrite bool_decide_eq_true_2; [done|].
    apply elem_of_cons. left. unfold insightKey. by rewrite Hc, Ht.
  - intros all out. unfold out. rewrite !Hm.
    split; [done|]. split; [apply firstOccurrences_NoDup|].
    split; [apply firstOccurrences_sublist|].
    split; [|apply firstOccurrences_again].
    intros m Hin. apply firstOccurrences_keys.
    by apply list_elem_of_In, in_map, list_elem_of_In.
Qed.

(** [deduplicateStrings] keeps the strings that are not blank, each
    once, in the order of first appearance: the result is the list of
    the first occurrences among the strings that are not blank.  Strings
    are compared as they are: two strings that differ only in
    surrounding white space are both kept. *)
Theorem deduplicateStrings_distinct_nonblank (items : list string) :
  let out := deduplicateStrings items in
  out = firstOccurrences (fun item => item)
          (filter (fun item => Js.trim item <> "") items)
  /\ (forall a b : string, a <> b -> Js.trim a <> "" -> Js.trim b <> "" ->
        deduplicateStrings [a; b; a] = [a; b])
  /\ NoDup out
  /\ sublist out items
  /\ (forall item, item ∈ out <-> item ∈ items /\ Js.trim item <> "")
  /\ deduplicateStrings out = out.
Proof.
  intros out.
  assert (Hout : out = firstOccurrences (fun item => item)
                         (filter (fun item => Js.trim item ≠ "") items))
    by apply (filterUnseen_first (fun item : string => item)).
  assert (Hnd : NoDup out).
  { pose proof (firstOccurrences_NoDup (fun item : string => item)
                  (filter (fun item => Js.trim item ≠ "") items)) as H.
    rewrite map_id in H. by rewrite Hout. }
  assert (Hmem : forall item, item ∈ out <-> item ∈ items /\ Js.trim item <> "").
  { intros item. rewrite Hout.
    pose proof (firstOccurrences_keys (fun item : string => item)
                  (filter (fun item => Js.trim item ≠ "") items) item) as H.
    rewrite !map_id in H. rewrite H, list_elem_of_filter. tauto. }
  split; [exact Hout|]. split.
  { intros a b Hab Ha Hb. unfold deduplicateStrings.
    rewrite filterUnseen_first.
    rewrite !filter_cons_True, filter_nil by done.
    unfold firstOccurrences. simpl.
    rewrite (bool_decide_eq_false_2 (b ∈ [a]))
      by (intros H; apply list_elem_of_singleton in H; congruence).
    rewrite bool_decide_eq_true_2; [done|]. apply elem_of_cons. by left. }
  split; [exact Hnd|]. split; [|split; [exact Hmem|]].
  - rewrite Hout. etrans; [apply firstOccurrences_sublist | apply sublist_filter].
  - unfold deduplicateStrings. rewrite filterUnseen_first.
    replace (filter (fun item => Js.trim item ≠ "") out) with out.
    + apply firstOccurrences_distinct. by rewrite map_id.
    + assert (Hall : Forall (fun item => Js.trim item ≠ "") out)
        by (apply Forall_forall; intros item Hin; by apply Hmem in Hin as [_ ?]).
      clear -Hall. induction Hall as [|item l Hitem Hl IH]; [done|].
      rewrite filter_cons_True by done. by rewrite <- IH.
Qed.


(** *** The scoring model is unavailable *)

Section Outage.
Variable env : Collaborators.
Variable focusTopics : option (list string).

(** Every request to the scoring model is rejected. *)
Definition scoringFails : Prop :=
  forall n request, model request = haiku ->
    exists error, messagesCreate env n request = Rejects error.

Lemma scoringFails_scores post :
  scoringFails -> scoresAtMostThreshold env focusTopics post.
Proof.
  intros Hfail s score s'.
  unfold scorePostRelevance, create, firstBlock. eff.
  destruct (Hfail (calls s)
              (relevanceRequest (buildRelevancePrompt env post focusTopics)) eq_refl)
    as [error ->].
  eff. intros [= <- _]. discriminate.
Qed.

(** When every scoring request fails, each post scores 0.5, which is
    not above the threshold: [batchAnalyzePosts] returns the empty
    result without raising an error, and no extraction request is
    sent. *)
Theorem batchAnalyzePosts_scoring_outage
    (posts : list LinkedInPost) (batchSize : nat) (s : Session) :
  (0 < batchSize)%nat ->
  scoringFails ->
  exists s',
    batchAnalyzePosts env posts batchSize focusTopics s = (Returned emptyResult, s')
    /\ sent s' = sent s ++ map (scoringRequest env focusTopics) posts.
Proof.
  intros Hbs Hfail.
  destruct (scoringPass_sent env focusTopics posts batchSize Hbs (length posts) 0 [] s)
    as (scores & s1 & E1 & _ & H1); [lia|].
  rewrite drop_0 in H1.
  assert (Hall : Forall (scoresAtMostThreshold env focusTopics) posts)
    by (apply Forall_forall; intros post _; by apply scoringFails_scores).
  destruct (scoringPass_returns env focusTopics posts batchSize Hbs Hall
              (length posts) 0 [] s)
    as (scores' & s1' & E1' & Hscores & _); [lia | constructor |].
  rewrite E1 in E1'. injection E1' as <- <-.
  unfold batchAnalyzePosts. unfold mbind at 1, M_bind, Eff.bind at 1. rewrite E1.
  assert (Hnone : List.filter isRelevant ([] ++ scores) = []).
  { clear E1. induction Hscores as [|x l Hx Hl IH]; [done|].
    simpl. rewrite Hx. exact IH. }
  rewrite Hnone. simpl. by exists s1.
Qed.

End Outage.

Lemma rateLimited_scoringFails : scoringFails rateLimited.
Proof. intros n request _. by eexists. Qed.

Lemma batchAnalyzePosts_scoring_outage_witness :
  (0 < 5)%nat
  /\ scoringFails rateLimited
  /\ exists s',
       batchAnalyzePosts rateLimited [textPost; textPost] 5 None freshSession
         = (Returned emptyResult, s')
       /\ sent s' = sent freshSession
                      ++ map (scoringRequest rateLimited None) [textPost; textPost].
Proof.
  split; [lia|]. split; [exact rateLimited_scoringFails|].
  apply (batchAnalyzePosts_scoring_outage rateLimited None
           [textPost; textPost] 5 freshSession);
    [lia | exact rateLimited_scoringFails].
Defined.

End TwoPass.

(* ===================================================================== *)
(** ** services/worker/src/run-processor.js: the branches of a job *)
(* ===================================================================== *)

Module RunJob.
Import RunProcessor.

Section Branches.
Variable env : Collaborators.

(** [processRunJob]: a job whose run is not in the store is dropped.
    The one select is all that happens: no status update, no event,
    nothing put on the queue.  The job returns when the store answers
    with no row, and throws the store's error when it is any other than
    the no-row error. *)
Theorem missing_run_dropped (data : RunJobData) (w : World) :
  runs w !! runId data = None ->
  exists outcome,
    processRunJob env data w = (outcome, withTick S w)
    /\ match dbError env (tick w) with
       | None => outcome = Returned tt
       | Some error => outcome = if isNotFound error then Returned tt else Thrown error
       end.
Proof.
  intros Hmiss.
  unfold processRunJob, fetchRun, single, throwUnlessNotFound. run.
  destruct (dbError env (tick w)) as [error|]; run.
  - destruct (isNotFound error); run; by eexists.
  - rewrite Hmiss. run. by eexists.
Qed.

(** [updateRun] for the first visit. *)
Definition askedToLogin (handle : BrowserlessSession) (r : Run) : Run :=
  {| run_id := run_id r; user_id := user_id r; status := needs_login;
     config := config r; needs_login_url := Some (connectUrl handle);
     started_at := started_at r; completed_at := completed_at r;
     failure_reason := failure_reason r; token_estimate := token_estimate r;
     cost_estimate := cost_estimate r |}.

(** [processRunJob], first visit: the user has no active session and no
    login was requested yet.  When the login broker hands out a session
    and the store and the queue accept what they are sent, the job
    returns; the run is then in [needs_login] with the URL of the
    session, one [needs_login] event carries the session, and the job is
    on the queue again, once. *)
Theorem first_visit_asks_for_login
    (data : RunJobData) (run : Run) (handle : BrowserlessSession)
    (w w1 w2 w3 : World) :
  fetchRun env (runId data) w = (Returned (Some run), w1) ->
  getActiveSession env (user_id run) w1 = (Returned None, w2) ->
  getLatestLoginEvent env (run_id run) w2 = (Returned None, w3) ->
  createSession env (tick w3) = Resolves handle ->
  dbError env (S (tick w3)) = None ->
  dbError env (S (S (tick w3))) = None ->
  queueAddError env (S (S (S (tick w3)))) = None ->
  exists w',
    processRunJob env data w = (Returned tt, w')
    /\ queue w' = queue w ++ [followUp env data]
    /\ journal w' = journal w ++ [journalEntry (run_id run) needs_login None None]
    /\ run_events w' = run_events w
         ++ [{| ev_run_id := run_id run; ev_body := NeedsLogin handle (user_id run) |}]
    /\ closed w' = closed w
    /\ runs w' = alter (askedToLogin handle) (run_id run) (runs w).
Proof.
  intros H1 H2 H3 Hc Hu Hi Hq.
  destruct (Quiet_fetchRun env _ _ _ _ H1) as [(a1 & a2 & a3 & a4 & a5) _].
  destruct (Quiet_getActiveSession env _ _ _ _ H2) as [(b1 & b2 & b3 & b4 & b5) _].
  destruct (Quiet_getLatestLoginEvent env _ _ _ _ H3) as [(c1 & c2 & c3 & c4 & c5) _].
  assert (Hstep : exists w',
            resolveSession env data run w1 = (Returned Requeued, w')
            /\ queue w' = queue w3 ++ [followUp env data]
            /\ journal w' = journal w3
                              ++ [journalEntry (run_id run) needs_login None None]
            /\ run_events w' = run_events w3
                 ++ [{| ev_run_id := run_id run;
                        ev_body := NeedsLogin handle (user_id run) |}]
            /\ closed w' = closed w3
            /\ runs w' = alter (askedToLogin handle) (run_id run) (runs w3)).
  { unfold resolveSession. rewrite (bind_returned _ _ _ _ _ H2). cbv beta iota.
    rewrite (bind_returned _ _ _ _ _ H3). cbv beta iota.
    unfold ensureLoginSession, updateRun, insertEvent, requeue. run.
    rewrite Hc. run. rewrite Hu. run. rewrite Hi. run. rewrite Hq. run.
    eexists. split; [reflexivity|]. by repeat split. }
  destruct Hstep as (w' & Hstep & Hq' & Hj' & He' & Hc' & Hr').
  unfold processRunJob. rewrite (bind_returned _ _ _ _ _ H1). cbv beta iota.
  rewrite (bind_returned _ _ _ _ _ Hstep). cbv beta iota.
  exists w'. split; [done|]. repeat split; congruence.
Qed.

(** [processRunJob]: the stored session of the user cannot be
    decrypted.  The job throws the decryption error in front of the
    [try]: no status update is sent, the run keeps its status and gets
    no failure reason, no event is recorded, nothing is put on the
    queue, and no scraper is opened or closed. *)
Theorem undecryptable_session_not_recorded
    (data : RunJobData) (run : Run) (row : LinkedSession) (error : JsError)
    (w w1 : World) :
  fetchRun env (runId data) w = (Returned (Some run), w1) ->
  dbError env (tick w1) = None ->
  activeRow (user_id run) w1 = Some row ->
  decryptCookies env (encrypted_payload row) = Rejects error ->
  exists w',
    processRunJob env data w = (Thrown error, w')
    /\ runs w' = runs w /\ run_events w' = run_events w
    /\ journal w' = journal w /\ queue w' = queue w /\ closed w' = closed w.
Proof.
  intros H1 Hdb Hrow Hdec.
  destruct (Quiet_fetchRun env _ _ _ _ H1) as [(a1 & a2 & a3 & a4 & a5) _].
  assert (Hstep : getActiveSession env (user_id run) w1
                  = (Thrown error, withTick S w1)).
  { unfold getActiveSession, single, throwUnlessNotFound, activeRow in *. run.
    rewrite Hdb. run. rewrite Hrow. run. by rewrite Hdec. }
  unfold processRunJob. rewrite (bind_returned _ _ _ _ _ H1). cbv beta iota.
  unfold resolveSession.
  rewrite (bind_thrown _ _ _ _ _ (bind_thrown _ _ _ _ _ Hstep)).
  eexists. split; [reflexivity|]. by repeat split.
Qed.

(** The row the final update of the [try] writes. *)
Definition finished (tokensUsed : Z) (nowIso : string) (r : Run) : Run :=
  {| run_id := run_id r; user_id := user_id r; status := completed;
     config := config r; needs_login_url := needs_login_url r;
     started_at := started_at r; completed_at := Some nowIso;
     failure_reason := failure_reason r;
     token_estimate := Some tokensUsed;
     cost_estimate :=
       Some (toFixed4 (inject_Z tokensUsed / 1000000 * costPerMillionTokens env)) |}.

(** An update of one row leaves the others, and maps the row. *)
Lemma alter_row (f : Run -> Run) (id : string) (rows : gmap string Run) :
  (forall other, other <> id -> alter f id rows !! other = rows !! other)
  /\ (forall r, rows !! id = Some r -> alter f id rows !! id = Some (f r))
  /\ (rows !! id = None -> alter f id rows !! id = None).
Proof.
  split; [|split].
  - intros other Hne. rewrite lookup_alter, decide_False by done. reflexivity.
  - intros r Hr. rewrite lookup_alter, decide_True by done. by rewrite Hr.
  - intros Hr. rewrite lookup_alter, decide_True by done. by rewrite Hr.
Qed.

(** What the final update makes of the row [r]: the run is
    [completed], with the time of completion and the tokens used; the
    columns the update does not name stay.  The update writes the cost
    column as well; its value, a rounded floating-point number in the
    code, is left open. *)
Definition completedFrom (r r' : Run) (tokensUsed : Z) (nowIso : string) : Prop :=
  status r' = completed
  /\ completed_at r' = Some nowIso
  /\ token_estimate r' = Some tokensUsed
  /\ run_id r' = run_id r /\ user_id r' = user_id r /\ config r' = config r
  /\ needs_login_url r' = needs_login_url r
  /\ started_at r' = started_at r
  /\ failure_reason r' = failure_reason r.

(** The last two statements of the [try], the update to [completed]
    and the [completed] event, never make the job fail: their answers
    are not looked at.  When the store takes the update the row of the
    run is [completed], with the time and the tokens used; when it
    refuses, the call returns all the same and the run keeps the row it
    had.  No other run is touched, and the event row is added when the
    store takes the insert. *)
Theorem completion_answer_ignored
    (run : Run) (scrapeResult : ScrapeResult) (tokensUsed : Z) (w : World) :
  exists w',
    markCompleted env run scrapeResult tokensUsed w = (Returned tt, w')
    /\ (forall other, other <> run_id run -> runs w' !! other = runs w !! other)
    /\ match dbError env (tick w) with
       | Some _ => runs w' = runs w
       | None =>
           (forall r, runs w !! run_id run = Some r ->
              exists r', runs w' !! run_id run = Some r'
                         /\ completedFrom r r' tokensUsed (now env (tick w)))
           /\ (runs w !! run_id run = None -> runs w' !! run_id run = None)
       end
    /\ run_events w' = (if dbError env (S (tick w)) is None
                        then run_events w
                               ++ [{| ev_run_id := run_id run;
                                      ev_body := Completed tokensUsed
                                                   (length (byExpert scrapeResult))
                                                   (length (allPosts scrapeResult)) |}]
                        else run_events w)
    /\ queue w' = queue w /\ closed w' = closed w
    /\ usage_counters w' = usage_counters w.
Proof.
  assert (H : exists w',
            markCompleted env run scrapeResult tokensUsed w = (Returned tt, w')
            /\ runs w' = (if dbError env (tick w) is None
                          then alter (finished tokensUsed (now env (tick w)))
                                     (run_id run) (runs w)
                          else runs w)
            /\ run_events w' = (if dbError env (S (tick w)) is None
                                then run_events w
                                       ++ [{| ev_run_id := run_id run;
                                              ev_body := Completed tokensUsed
                                                (length (byExpert scrapeResult))
                                                (length (allPosts scrapeResult)) |}]
                                else run_events w)
            /\ queue w' = queue w /\ closed w' = closed w
            /\ usage_counters w' = usage_counters w).
  { unfold markCompleted, updateRun, insertEvent, finished. run.
    destruct (dbError env (tick w)); run;
      destruct (dbError env (S (tick w))); run;
      eexists; (split; [reflexivity|]); by repeat split. }
  destruct H as (w' & E & Hr & He & Hq & Hc & Hu).
  exists w'. split; [exact E|].
  destruct (alter_row (finished tokensUsed (now env (tick w))) (run_id run) (runs w))
    as (Hother & Hrow & Hnone).
  split; [|split; [|by repeat split]].
  - intros other Hne. rewrite Hr. destruct (dbError env (tick w)); [done|].
    by apply Hother.
  - destruct (dbError env (tick w)); [exact Hr|]. rewrite Hr. split; [|exact Hnone].
    intros r Hlook. eexists. split; [by apply Hrow|]. by repeat split.
Qed.

(** The same statements, taken by the store. *)
Lemma markCompleted_accepted run scrapeResult tokensUsed w :
  dbError env (tick w) = None -> dbError env (S (tick w)) = None ->
  exists w',
    markCompleted env run scrapeResult tokensUsed w = (Returned tt, w')
    /\ runs w' = alter (finished tokensUsed (now env (tick w))) (run_id run) (runs w)
    /\ run_events w' = run_events w
         ++ [{| ev_run_id := run_id run;
                ev_body := Completed tokensUsed (length (byExpert scrapeResult))
                                     (length (allPosts scrapeResult)) |}]
    /\ journal w' = journal w ++ [journalEntry (run_id run) completed None None]
    /\ queue w' = queue w /\ closed w' = closed w.
Proof.
  intros H1 H2. unfold markCompleted, updateRun, insertEvent, finished. run.
  rewrite H1. run. rewrite H2. run.
  eexists. split; [reflexivity|]. by repeat split.
Qed.

(** *** Saving a session and reading it back *)

(** The rows [getActiveSession] chooses among. *)
Abbreviation activeFor userId :=
  (fun row : LinkedSession => ls_user_id row = userId /\ is_active row = true).

(** The row [saveSession] inserts when it starts at call number [n]. *)
Definition savedRow (userId : string) (captured : list Cookie)
    (expires : option string) (n : nat) : LinkedSession :=
  {| ls_id := newId env (S n); ls_user_id := userId;
     encrypted_payload := encryptCookies env n captured;
     ls_expires_at := expires; is_active := true |}.

Lemma deactivate_none_active userId rows :
  filter (activeFor userId) (map (deactivate userId) rows) = [].
Proof.
  induction rows as [|row rows IH]; [done|]. simpl.
  rewrite filter_cons_False; [exact IH|].
  unfold deactivate. case_bool_decide; simpl; [by intros [_ ?]|].
  by intros [? _].
Qed.

Lemma deactivate_others userId rows :
  filter (fun row => ls_user_id row <> userId) (map (deactivate userId) rows)
  = filter (fun row => ls_user_id row <> userId) rows.
Proof.
  induction rows as [|row rows IH]; [done|]. simpl.
  unfold deactivate at 1. case_bool_decide as Hu; simpl.
  - rewrite !filter_cons_False by (simpl; tauto). exact IH.
  - rewrite !filter_cons_True by done. by rewrite IH.
Qed.

(** [saveSession] followed by [getActiveSession]: the session read
    back is the one just saved, with its cookies, whenever the store
    takes the insert and the payload decrypts to what was encrypted.
    The sessions of other users are left as they were; and when the
    store also takes the first update, the saved session is the only
    active one of its user. *)
Theorem saved_session_is_the_active_one
    (userId : string) (captured : list Cookie) (expires : option string)
    (w : World) :
  dbError env (S (tick w)) = None ->
  dbError env (S (S (tick w))) = None ->
  decryptCookies env (encryptCookies env (tick w) captured) = Resolves captured ->
  exists w1 w2,
    saveSession env userId captured expires w = (Returned tt, w1)
    /\ getActiveSession env userId w1
       = (Returned (Some {| sess_id := newId env (S (tick w)); cookies := captured;
                            sess_expiresAt := expires |}), w2)
    /\ filter (fun row => ls_user_id row <> userId) (linked_sessions w1)
       = filter (fun row => ls_user_id row <> userId) (linked_sessions w)
    /\ (dbError env (tick w) = None ->
        filter (activeFor userId) (linked_sessions w1)
        = [savedRow userId captured expires (tick w)]).
Proof.
  intros Hins Hsel Hdec.
  set (new := savedRow userId captured expires (tick w)).
  set (kept := if dbError env (tick w) is None
               then map (deactivate userId) (linked_sessions w)
               else linked_sessions w).
  assert (Hsave : exists w1,
            saveSession env userId captured expires w = (Returned tt, w1)
            /\ tick w1 = S (S (tick w))
            /\ linked_sessions w1 = kept ++ [new]).
  { unfold saveSession, kept, new, savedRow. run.
    destruct (dbError env (tick w)); run; rewrite Hins; run;
      eexists; (split; [reflexivity|]); by split. }
  destruct Hsave as (w1 & Hsave & Htick & Hrows).
  assert (Hnew : filter (activeFor userId) [new] = [new])
    by (by rewrite filter_cons_True, filter_nil).
  assert (Hactive : activeRow userId w1 = Some new).
  { unfold activeRow. rewrite Hrows, filter_app, Hnew. apply last_snoc. }
  exists w1. eexists. split; [exact Hsave|]. split; [|split].
  - unfold getActiveSession, single, throwUnlessNotFound, activeRow in *. run.
    rewrite Htick, Hsel. run. rewrite Hactive. run.
    unfold new, savedRow. simpl. rewrite Hdec. reflexivity.
  - rewrite Hrows, filter_app, filter_cons_False, filter_nil, app_nil_r
      by (simpl; tauto).
    unfold kept. destruct (dbError env (tick w)); [done|]. apply deactivate_others.
  - intros Hupd. rewrite Hrows, filter_app, Hnew. unfold kept. rewrite Hupd.
    by rewrite deactivate_none_active.
Qed.

End Branches.

(** *** The run that goes through *)

(** The computation returns, from every state. *)
Definition Returns {A} (m : M World A) : Prop :=
  forall w, exists a w', m w = (Returned a, w').

Lemma Returns_ret {A} (a : A) : Returns (mret a).
Proof. intros w. by exists a, w. Qed.

Lemma Returns_gets {A} (f : World -> A) : Returns (gets f).
Proof. intros w. by exists (f w), w. Qed.

Lemma Returns_modify (f : World -> World) : Returns (modify f).
Proof. intros w. by exists tt, (f w). Qed.

Lemma Returns_await {A} (p : settled A) a : p = Resolves a -> Returns (await p).
Proof. intros -> w. by exists a, w. Qed.

Lemma Returns_bind {A B} (m : M World A) (k : A -> M World B) :
  Returns m -> (forall a, Returns (k a)) -> Returns (m ≫= k).
Proof.
  intros Hm Hk w. destruct (Hm w) as (a & w1 & E).
  destruct (Hk a w1) as (b & w2 & E2). exists b, w2.
  by rewrite (bind_returned _ _ _ _ _ E).
Qed.

Lemma Returns_forEach {A B} (f : A -> M World B) (xs : list A) :
  (forall x, Returns (f x)) -> Returns (forEach f xs).
Proof.
  intros Hf. induction xs as [|x xs IH]; simpl.
  - apply (Returns_ret []).
  - apply (Returns_bind (f x)); [apply Hf|]. intros b.
    apply (Returns_bind (forEach f xs)); [apply IH|]. intros bs.
    apply (Returns_ret (b :: bs)).
Qed.

(** Every collaborator answers, and the store and the bucket accept
    every statement. *)
Record cooperative (env : Collaborators) : Prop := {
  db_ok : forall n, dbError env n = None;
  upload_ok : forall n, uploadError env n = None;
  init_ok : forall n cs, scraperInit env n cs = Resolves tt;
  scrape_ok : forall n urls limit topics,
    exists result, scrapeProfiles env n urls limit topics = Resolves result;
  ctor_ok : forall n, loadInsightAnalyzerCtor env n = Resolves tt;
  analyze_ok : forall n posts cfg,
    exists analysed, analyzeInsights env n posts cfg = Resolves analysed;
  formatter_ok : forall n, loadFormatterInstance env n = Resolves tt;
  bundle_ok : forall n aggregate perExpert topics limit,
    exists bundle,
      buildKnowledgeBundle env n aggregate perExpert topics limit = Resolves bundle;
  export_ok : forall n, exists refreshed, exportCookies env n = Resolves refreshed;
  close_ok : forall n, scraperClose env n = Resolves tt
}.

Section Cooperative.
Variable env : Collaborators.
Hypothesis Hco : cooperative env.

Lemma outside_returns : Returns outside.
Proof. intros w. unfold outside. run. by eexists _, _. Qed.

Lemma statement_returns w :
  statement env w = (Returned None, withTick S w).
Proof. unfold statement. run. by rewrite (db_ok _ Hco). Qed.

Lemma storeArtifact_returns runId artifactType content :
  Returns (storeArtifact env runId artifactType content).
Proof.
  intros w. unfold storeArtifact. run.
  rewrite (upload_ok _ Hco). run. rewrite (db_ok _ Hco). run. by eexists _, _.
Qed.

Lemma saveSession_returns userId captured expires :
  Returns (saveSession env userId captured expires).
Proof.
  intros w. unfold saveSession. run.
  rewrite (db_ok _ Hco). run. rewrite (db_ok _ Hco). run. by eexists _, _.
Qed.

Lemma incrementTokenUsage_returns userId tokens :
  Returns (incrementTokenUsage env userId tokens).
Proof.
  intros w. unfold incrementTokenUsage, readUsage, writeUsage, single,
    throwUnlessNotFound. run.
  rewrite (db_ok _ Hco). run.
  destruct (usage_counters w !! _); run; rewrite (db_ok _ Hco); run; by eexists _, _.
Qed.

Lemma analyzeExpert_returns run entry : Returns (analyzeExpert env run entry).
Proof.
  unfold analyzeExpert. apply Returns_bind; [apply outside_returns|]. intros n.
  destruct (analyze_ok _ Hco n (snd entry)
              (analyzerConfig run (fst entry) instructions)) as [analysed E].
  apply Returns_bind; [by apply (Returns_await _ analysed)|]. intros a.
  apply Returns_ret.
Qed.

Lemma scrapeAndPersist_returns run session :
  Returns (scrapeAndPersist env run session).
Proof.
  unfold scrapeAndPersist.
  apply Returns_bind; [apply outside_returns|]. intros n1.
  destruct (scrape_ok _ Hco n1 (profileUrls (config run)) (postLimit (config run))
              (topics (config run))) as [scrapeResult E1].
  apply Returns_bind; [by apply (Returns_await _ scrapeResult)|]. intros r.
  apply Returns_bind; [apply outside_returns|]. intros n2.
  apply Returns_bind; [by apply (Returns_await _ tt), ctor_ok|]. intros [].
  apply Returns_bind; [apply outside_returns|]. intros n3.
  match goal with |- context [await (analyzeInsights env n3 ?posts ?cfg)] =>
    destruct (analyze_ok _ Hco n3 posts cfg) as [aggregate E3]
  end.
  apply Returns_bind; [by apply (Returns_await _ aggregate)|]. intros a.
  apply Returns_bind; [apply Returns_forEach, analyzeExpert_returns|]. intros per.
  apply Returns_bind; [apply outside_returns|]. intros n4.
  apply Returns_bind; [by apply (Returns_await _ tt), formatter_ok|]. intros [].
  apply Returns_bind; [apply outside_returns|]. intros n5.
  destruct (bundle_ok _ Hco n5 a per (topics (config run)) (postLimit (config run)))
    as [bundle E5].
  apply Returns_bind; [by apply (Returns_await _ bundle)|]. intros b.
  apply Returns_bind; [apply storeArtifact_returns|]. intros [].
  apply Returns_bind;
    [apply Returns_forEach; intros f; apply storeArtifact_returns|]. intros done.
  apply Returns_bind; [apply outside_returns|]. intros n6.
  destruct (export_ok _ Hco n6) as [refreshed E6].
  apply Returns_bind; [by apply (Returns_await _ refreshed)|]. intros cs.
  apply Returns_bind.
  { destruct cs; [apply Returns_ret | apply saveSession_returns]. }
  intros []. apply Returns_bind; [apply incrementTokenUsage_returns|]. intros [].
  apply Returns_ret.
Qed.

(** [processRunJob] with a session at hand, every collaborator
    answering and the store accepting every statement: the job returns.
    Two status updates were sent and applied, [running] and then
    [completed]; the row of the run is [completed], started at the time
    of the first update, with the tokens the [completed] event reports,
    and its failure reason, configuration and owner are what they were;
    no other run is touched; the events recorded are the change to
    [running] and the [completed] event; nothing is put on the queue,
    and the scraper is closed once. *)
Theorem run_goes_through (run : Run) (session : Session) (w : World) :
  exists w' tokensUsed finishedAt experts posts,
    processWithScraper env run session w = (Returned tt, w')
    /\ closed w' = S (closed w)
    /\ queue w' = queue w
    /\ journal w' = journal w
         ++ [journalEntry (run_id run) running None None;
             journalEntry (run_id run) completed None None]
    /\ run_events w' = run_events w
         ++ [{| ev_run_id := run_id run; ev_body := StatusChange running None |};
             {| ev_run_id := run_id run;
                ev_body := Completed tokensUsed experts posts |}]
    /\ (forall other, other <> run_id run -> runs w' !! other = runs w !! other)
    /\ (forall r, runs w !! run_id run = Some r ->
          exists r', runs w' !! run_id run = Some r'
                     /\ status r' = completed
                     /\ started_at r' = Some (now env (S (tick w)))
                     /\ completed_at r' = Some finishedAt
                     /\ token_estimate r' = Some tokensUsed
                     /\ failure_reason r' = failure_reason r
                     /\ config r' = config r /\ user_id r' = user_id r).
Proof.
  assert (Hproc : exists w1 tokensUsed finishedAt experts posts,
            processing env run session w = (Returned tt, w1)
            /\ closed w1 = closed w /\ queue w1 = queue w
            /\ journal w1 = journal w
                 ++ [journalEntry (run_id run) running None None;
                     journalEntry (run_id run) completed None None]
            /\ run_events w1 = run_events w
                 ++ [{| ev_run_id := run_id run; ev_body := StatusChange running None |};
                     {| ev_run_id := run_id run;
                        ev_body := Completed tokensUsed experts posts |}]
            /\ runs w1 = alter (finished env tokensUsed finishedAt) (run_id run)
                           (alter (statusUpdates running None (now env (S (tick w))))
                                  (run_id run) (runs w))).
  { unfold processing.
    assert (E0 : outside w = (Returned (tick w), withTick S w)) by reflexivity.
    rewrite (bind_returned _ _ _ _ _ E0).
    assert (E1 : await (scraperInit env (tick w) (cookies session)) (withTick S w)
                 = (Returned tt, withTick S w))
      by (by rewrite (init_ok _ Hco)).
    rewrite (bind_returned _ _ _ _ _ E1).
    destruct (updateRunStatus env (run_id run) running None (withTick S w))
      as [o2 w2] eqn:E2.
    pose proof (updateRunStatus_inv _ _ _ _ _ _ _ E2) as (Hj & Hq & Hcl & Hcase).
    simpl in Hj, Hq, Hcl, Hcase.
    rewrite (db_ok _ Hco (S (tick w))) in Hcase, Hj.
    rewrite (db_ok _ Hco (S (S (tick w)))) in Hcase.
    destruct Hcase as (Hr & -> & He).
    rewrite (bind_returned _ _ _ _ _ E2).
    destruct (scrapeAndPersist_returns run session w2)
      as ([scrapeResult tokensUsed] & w3 & E3).
    destruct (Quiet_scrapeAndPersist env _ _ _ _ _ E3) as [(q1 & q2 & q3 & q4 & q5) _].
    rewrite (bind_returned _ _ _ _ _ E3). cbv beta iota.
    destruct (markCompleted_accepted env run scrapeResult tokensUsed w3
                (db_ok _ Hco _) (db_ok _ Hco _))
      as (w4 & E4 & Hr4 & He4 & Hj4 & Hq4 & Hc4).
    exists w4, tokensUsed, (now env (tick w3)), (length (byExpert scrapeResult)),
      (length (allPosts scrapeResult)).
    split; [done|]. split; [congruence|]. split; [congruence|].
    split; [rewrite Hj4, q3, Hj, <- app_assoc; reflexivity|].
    split; [rewrite He4, q2, He, <- app_assoc; reflexivity|].
    by rewrite Hr4, q1, Hr. }
  destruct Hproc as (w1 & tokensUsed & finishedAt & experts & posts
                     & E & Hc & Hq & Hj & He & Hr).
  unfold processWithScraper, tryFinally, tryCatch. rewrite E.
  destruct (close env w1) as [oc w'] eqn:Ec.
  destruct (close_inv _ _ _ _ Ec) as (_ & c1 & c2 & c3 & c4 & c5).
  assert (oc = Returned tt) as ->.
  { revert Ec. unfold close. run. rewrite (close_ok _ Hco). by intros [= <- _]. }
  exists w', tokensUsed, finishedAt, experts, posts.
  split; [done|]. split; [congruence|]. split; [congruence|].
  split; [congruence|].
  split; [congruence|].
  destruct (alter_row (statusUpdates running None (now env (S (tick w))))
              (run_id run) (runs w)) as (Ho1 & Hr1 & _).
  destruct (alter_row (finished env tokensUsed finishedAt) (run_id run)
              (alter (statusUpdates running None (now env (S (tick w))))
                     (run_id run) (runs w))) as (Ho2 & Hr2 & _).
  split.
  - intros other Hne. rewrite c1, Hr, Ho2, Ho1 by done. reflexivity.
  - intros r Hlook. eexists. split.
    + rewrite c1, Hr. apply Hr2, Hr1, Hlook.
    + by repeat split.
Qed.

End Cooperative.

(** *** The branches on a small store *)

(** A job for a run the store does not hold. *)
Definition strayJob : RunJobData := {| runId := "run-9"; userId := "user-1" |}.

Lemma missing_run_dropped_witness :
  runs waiting !! runId strayJob = None
  /\ exists outcome,
       processRunJob steady strayJob waiting = (outcome, withTick S waiting)
       /\ match dbError steady (tick waiting) with
          | None => outcome = Returned tt
          | Some error => outcome = if isNotFound error then Returned tt
                                    else Thrown error
          end.
Proof.
  assert (H : runs waiting !! runId strayJob = None) by (vm_compute; reflexivity).
  split; [exact H|].
  exact (missing_run_dropped steady strayJob waiting H).
Defined.

(** The run was just created: no session, no login requested. *)
Definition fresh : World := store queued None false [].

Lemma first_visit_asks_for_login_witness :
  fetchRun steady (runId theJob) fresh
    = (Returned (Some (theRun queued None)), withTick S fresh)
  /\ getActiveSession steady "user-1" (withTick S fresh)
     = (Returned None, withTick S (withTick S fresh))
  /\ getLatestLoginEvent steady "run-1" (withTick S (withTick S fresh))
     = (Returned None, withTick S (withTick S (withTick S fresh)))
  /\ createSession steady 3 = Resolves theLogin
  /\ dbError steady 4 = None /\ dbError steady 5 = None
  /\ queueAddError steady 6 = None
  /\ exists w',
       processRunJob steady theJob fresh = (Returned tt, w')
       /\ queue w' = queue fresh ++ [followUp steady theJob]
       /\ journal w' = journal fresh ++ [journalEntry "run-1" needs_login None None]
       /\ run_events w' = run_events fresh
            ++ [{| ev_run_id := "run-1"; ev_body := NeedsLogin theLogin "user-1" |}]
       /\ closed w' = closed fresh
       /\ runs w' = alter (askedToLogin theLogin) "run-1" (runs fresh).
Proof.
  assert (H1 : fetchRun steady (runId theJob) fresh
               = (Returned (Some (theRun queued None)), withTick S fresh))
    by (vm_compute; reflexivity).
  assert (H2 : getActiveSession steady "user-1" (withTick S fresh)
               = (Returned None, withTick S (withTick S fresh)))
    by (vm_compute; reflexivity).
  assert (H3 : getLatestLoginEvent steady "run-1" (withTick S (withTick S fresh))
               = (Returned None, withTick S (withTick S (withTick S fresh))))
    by (vm_compute; reflexivity).
  split; [exact H1|]. split; [exact H2|]. split; [exact H3|].
  split; [reflexivity|]. split; [reflexivity|]. split; [reflexivity|].
  split; [reflexivity|].
  exact (first_visit_asks_for_login steady theJob (theRun queued None) theLogin
           fresh _ _ _ H1 H2 H3 eq_refl eq_refl eq_refl eq_refl).
Defined.

(** The store holds a session whose payload no longer decrypts. *)
Definition keyRotated : Collaborators :=
  {| requeueDelayMs := 5000;
     costPerMillionTokens := 15;
     dbError := fun _ => None;
     now := now steady;
     newId := newId steady;
     createSession := createSession steady;
     captureCookiesFromSession := captureCookiesFromSession steady;
     encryptCookies := encryptCookies steady;
     decryptCookies := fun _ => Rejects (Error "Unsupported state or unable to authenticate data");
     queueAddError := fun _ => None;
     scraperInit := fun _ _ => Resolves tt;
     scrapeProfiles := scrapeProfiles steady;
     exportCookies := fun _ => Resolves [];
     scraperClose := fun _ => Resolves tt;
     loadInsightAnalyzerCtor := fun _ => Resolves tt;
     analyzeInsights := analyzeInsights steady;
     loadFormatterInstance := fun _ => Resolves tt;
     buildKnowledgeBundle := buildKnowledgeBundle steady;
     uploadError := fun _ => None;
     sha256 := fun content => content |}.

Definition loggedIn : World := store queued None true [].

Definition storedRow : LinkedSession :=
  {| ls_id := "row-0"; ls_user_id := "user-1"; encrypted_payload := "li_at=abc";
     ls_expires_at := None; is_active := true |}.

Lemma undecryptable_session_not_recorded_witness :
  fetchRun keyRotated (runId theJob) loggedIn
    = (Returned (Some (theRun queued None)), withTick S loggedIn)
  /\ dbError keyRotated (tick (withTick S loggedIn)) = None
  /\ activeRow "user-1" (withTick S loggedIn) = Some storedRow
  /\ decryptCookies keyRotated (encrypted_payload storedRow)
     = Rejects (Error "Unsupported state or unable to authenticate data")
  /\ exists w',
       processRunJob keyRotated theJob loggedIn
         = (Thrown (Error "Unsupported state or unable to authenticate data"), w')
       /\ runs w' = runs loggedIn /\ run_events w' = run_events loggedIn
       /\ journal w' = journal loggedIn /\ queue w' = queue loggedIn
       /\ closed w' = closed loggedIn.
Proof.
  assert (H1 : fetchRun keyRotated (runId theJob) loggedIn
               = (Returned (Some (theRun queued None)), withTick S loggedIn))
    by (vm_compute; reflexivity).
  assert (H3 : activeRow "user-1" (withTick S loggedIn) = Some storedRow)
    by (vm_compute; reflexivity).
  split; [exact H1|]. split; [reflexivity|]. split; [exact H3|].
  split; [reflexivity|].
  exact (undecryptable_session_not_recorded keyRotated theJob (theRun queued None)
           storedRow _ loggedIn _ H1 eq_refl H3 eq_refl).
Defined.

Lemma saved_session_is_the_active_one_witness :
  dbError steady (S (tick loggedIn)) = None
  /\ dbError steady (S (S (tick loggedIn))) = None
  /\ decryptCookies steady (encryptCookies steady (tick loggedIn) ["li_at=new"])
     = Resolves ["li_at=new"]
  /\ exists w1 w2,
       saveSession steady "user-1" ["li_at=new"] None loggedIn = (Returned tt, w1)
       /\ getActiveSession steady "user-1" w1
          = (Returned (Some {| sess_id := newId steady (S (tick loggedIn));
                               cookies := ["li_at=new"];
                               sess_expiresAt := None |}), w2)
       /\ filter (fun row => ls_user_id row <> "user-1") (linked_sessions w1)
          = filter (fun row => ls_user_id row <> "user-1") (linked_sessions loggedIn)
       /\ (dbError steady (tick loggedIn) = None ->
           filter (fun row => ls_user_id row = "user-1" /\ is_active row = true)
                  (linked_sessions w1)
           = [savedRow steady "user-1" ["li_at=new"] None (tick loggedIn)]).
Proof.
  split; [reflexivity|]. split; [reflexivity|]. split; [reflexivity|].
  exact (saved_session_is_the_active_one steady "user-1" ["li_at=new"] None loggedIn
           eq_refl eq_refl eq_refl).
Defined.

Lemma steady_cooperative : cooperative steady.
Proof. by constructor; intros; try eexists. Qed.

Lemma run_goes_through_witness :
  cooperative steady
  /\ exists w' tokensUsed finishedAt experts posts,
       processWithScraper steady (theRun queued None) theSession loggedIn
         = (Returned tt, w')
       /\ closed w' = S (closed loggedIn)
       /\ queue w' = queue loggedIn
       /\ journal w' = journal loggedIn
            ++ [journalEntry "run-1" running None None;
                journalEntry "run-1" completed None None]
       /\ run_events w' = run_events loggedIn
            ++ [{| ev_run_id := "run-1"; ev_body := StatusChange running None |};
                {| ev_run_id := "run-1";
                   ev_body := Completed tokensUsed experts posts |}]
       /\ (forall other, other <> "run-1" ->
             runs w' !! other = runs loggedIn !! other)
       /\ (forall r, runs loggedIn !! "run-1" = Some r ->
             exists r', runs w' !! "run-1" = Some r'
                        /\ status r' = completed
                        /\ started_at r' = Some (now steady (S (tick loggedIn)))
                        /\ completed_at r' = Some finishedAt
                        /\ token_estimate r' = Some tokensUsed
                        /\ failure_reason r' = failure_reason r
                        /\ config r' = config r /\ user_id r' = user_id r).
Proof.
  split; [exact steady_cooperative|].
  exact (run_goes_through steady steady_cooperative (theRun queued None)
           theSession loggedIn).
Defined.

Lemma incrementTokenUsage_adds_witness :
  dbError steady (tick loggedIn) = None
  /\ dbError steady (S (tick loggedIn)) = None
  /\ exists w',
       incrementTokenUsage steady "user-1" 1200 loggedIn = (Returned tt, w')
       /\ usage_counters w' !! ("user-1", periodStart (now steady (tick loggedIn)))
          = Some {| runs_used :=
                      default 0 (runs_used <$> usage_counters loggedIn
                                   !! ("user-1", periodStart (now steady (tick loggedIn))));
                    tokens_used :=
                      default 0 (tokens_used <$> usage_counters loggedIn
                                   !! ("user-1", periodStart (now steady (tick loggedIn))))
                      + 1200 |}.
Proof.
  split; [reflexivity|]. split; [reflexivity|].
  exact (incrementTokenUsage_adds steady "user-1" 1200 loggedIn eq_refl eq_refl).
Defined.

End RunJob.

(* ===================================================================== *)
(** ** src/analyzer.ts: the keyword analysis of a post *)
(* ===================================================================== *)

Module Keywords.
Import InsightAnalyzer.

(** [s.includes(t)] *)
Definition includes (s t : string) : bool :=
  bool_decide (is_Some (String.index 0 t s)).

(** The table [salesKeywords] of [analyzeWithKeywords], in the order
    [Object.entries] lists it. *)
Definition salesKeywords : list (SalesCategory * list string) :=
  [ (PROSPECTING, ["prospecting"; "cold outreach"; "lead generation"]);
    (DISCOVERY, ["discovery call"; "qualifying questions"; "pain points"]);
    (NURTURE, ["follow up"; "relationship building"; "staying in touch"]);
    (CLOSING, ["closing deals"; "overcoming objections"; "negotiation"]);
    (SALES_COMMS, ["sales emails"; "cold emails"; "email templates"]);
    (CADENCES, ["sales cadence"; "outreach sequence"; "touch points"]);
    (STRATEGY, ["sales strategy"; "sales methodology"; "framework"]);
    (TEMPLATES, ["template"; "script"; "copy paste"]);
    (TACTICS, ["sales tactics"; "techniques"; "best practices"]) ].

(** The character class [[.!?]]. *)
Definition isEnd (a : ascii) : bool :=
  let n := N_of_ascii a in ((n =? 46) || (n =? 33) || (n =? 63))%N.

(** [content.split(/[.!?]+/)]: a piece ends in front of every run of
    sentence ends; [cur] is the piece read so far and [afterEnd] tells
    that the character before was part of such a run.  The last piece is
    always pushed. *)
Fixpoint splitSentences (cur : string) (afterEnd : bool) (s : string) : list string :=
  match s with
  | EmptyString => [cur]
  | String c s' =>
      if isEnd c then
        if afterEnd then splitSentences "" true s'
        else cur :: splitSentences "" true s'
      else splitSentences (cur +:+ String c "") false s'
  end.

(** [s.trim().length > 0] *)
Definition notBlank (s : string) : bool := negb (bool_decide (Js.trim s = "")).

(** [focusTopics.length === 0 || focusTopics.some(topic =>
    content.includes(topic.toLowerCase()))], for the lowercased
    [content]. *)
Definition onTopic (content : string) (focusTopics : list string) : bool :=
  bool_decide (focusTopics = [])
  || existsb (fun topic => includes content (Js.toLowerCase topic)) focusTopics.

Definition filterPostsByTopics (posts : list LinkedInPost) (focusTopics : list string)
  : list LinkedInPost :=
  if bool_decide (focusTopics = []) then posts
  else List.filter (fun post =>
         existsb (fun topic => includes (Js.toLowerCase (post_content post))
                                        (Js.toLowerCase topic)) focusTopics) posts.

Section Analyzer.
(** [new Date().toISOString()] at the time the insight of a post and a
    category is built. *)
Variable now : LinkedInPost -> SalesCategory -> string.

(** Does [sentence] mention one of [keywords]? *)
Definition mentions (keywords : list string) (sentence : string) : bool :=
  existsb (fun keyword => includes (Js.toLowerCase sentence) (Js.toLowerCase keyword))
          keywords.

Definition generateSimpleInsight (post : LinkedInPost) (category : SalesCategory)
    (keywords : list string) : option SalesInsight :=
  let sentences := List.filter notBlank (splitSentences "" false (post_content post)) in
  let relevantSentences := List.filter (mentions keywords) sentences in
  if bool_decide (length relevantSentences = 0%nat) then None
  else
    let insightText := Js.trim (String.concat ". " (take 2 relevantSentences)) in
    let confidence := calculateConfidence post (length keywords) in
    Some {| si_id := post_id post +:+ "-" +:+ ClaudeService.categoryValue category;
            si_category := category;
            si_insight := insightText;
            si_sourcePost := post;
            si_confidence := confidence;
            si_extractedAt := now post category;
            si_actionableItems := [];
            si_templates := Some [] |}.

(** The keywords of [keywords] the lowercased [content] contains. *)
Definition matching (content : string) (keywords : list string) : list string :=
  List.filter (fun keyword => includes content (Js.toLowerCase keyword)) keywords.

(** Body of the loop over the table. *)
Definition categoryInsight (post : LinkedInPost) (content : string)
    (entry : SalesCategory * list string) : option SalesInsight :=
  let matchingKeywords := matching content (snd entry) in
  if (0 <? length matchingKeywords)%nat
  then generateSimpleInsight post (fst entry) matchingKeywords
  else None.

Definition extractInsightsFromPostKeywords (post : LinkedInPost)
    (focusTopics : list string) (table : list (SalesCategory * list string))
  : list SalesInsight :=
  let content := Js.toLowerCase (post_content post) in
  if negb (onTopic content focusTopics) then []
  else omap (categoryInsight post content) table.

End Analyzer.

(** *** Strings: occurrences, lower case, blanks *)

Lemma append_cons x (a b : string) : String x a +:+ b = String x (a +:+ b).
Proof. reflexivity. Qed.

Lemma append_nil (b : string) : "" +:+ b = b.
Proof. reflexivity. Qed.

Lemma append_assoc (a b c : string) : (a +:+ b) +:+ c = a +:+ (b +:+ c).
Proof.
  induction a as [|x a IH]; [done|]. by rewrite !append_cons, IH.
Qed.

Lemma append_empty (a : string) : a +:+ "" = a.
Proof. induction a as [|x a IH]; [done|]. by rewrite append_cons, IH. Qed.

(** [t] occurs in [s]. *)
Definition occursIn (t s : string) : Prop :=
  exists front back, s = front +:+ t +:+ back.

Lemma prefix_append t back : String.prefix t (t +:+ back) = true.
Proof.
  induction t as [|a t IH]; [by destruct back|].
  rewrite append_cons. simpl. by destruct (ascii_dec a a).
Qed.

Lemma prefix_inv t : forall s,
  String.prefix t s = true -> exists back, s = t +:+ back.
Proof.
  induction t as [|a t IH]; intros s H; [by exists s|].
  destruct s as [|b s]; [discriminate H|]. simpl in H.
  destruct (ascii_dec a b) as [->|]; [|discriminate H].
  destruct (IH s H) as [back ->]. by exists back.
Qed.

Lemma index_occurs t : forall s,
  is_Some (String.index 0 t s) <-> occursIn t s.
Proof.
  induction s as [|c s IH].
  - simpl. split.
    + destruct t; intros [m E]; [|discriminate E]. by exists "", "".
    + intros (front & back & E). destruct front; [|discriminate E].
      rewrite append_nil in E. destruct t; [by eexists | discriminate E].
  - cbn [String.index]. destruct (String.prefix t (String c s)) eqn:Hp.
    + split; [|by eexists]. intros _.
      destruct (prefix_inv _ _ Hp) as [back E]. exists "", back. by rewrite E.
    + split.
      * intros [m E]. destruct (String.index 0 t s) as [n|] eqn:En; [|discriminate E].
        destruct (proj1 IH (mk_is_Some _ _ eq_refl)) as (front & back & ->).
        by exists (String c front), back.
      * intros (front & back & E). destruct front as [|x front].
        -- rewrite append_nil in E. rewrite E, prefix_append in Hp. discriminate Hp.
        -- rewrite append_cons in E. injection E as -> ->.
           destruct (proj2 IH) as [n ->]; [by exists front, back | by eexists].
Qed.

Lemma includes_occurs s t : includes s t = true <-> occursIn t s.
Proof.
  unfold includes. rewrite bool_decide_eq_true. apply index_occurs.
Qed.

Lemma toLowerCase_append a b :
  Js.toLowerCase (a +:+ b) = Js.toLowerCase a +:+ Js.toLowerCase b.
Proof.
  induction a as [|x a IH]; [done|].
  rewrite append_cons. simpl. by rewrite IH.
Qed.

Lemma toLowerCase_split a : forall s b,
  Js.toLowerCase s = a +:+ b ->
  exists a' b', s = a' +:+ b' /\ Js.toLowerCase a' = a /\ Js.toLowerCase b' = b.
Proof.
  induction a as [|x a IH]; intros s b H.
  - by exists "", s.
  - destruct s as [|y s]; [discriminate H|]. rewrite append_cons in H.
    simpl in H. injection H as Hx H.
    destruct (IH s b H) as (a' & b' & -> & Ha & Hb).
    exists (String y a'), b'. simpl. by rewrite Hx, Ha.
Qed.

(** Every character of the string satisfies [p]. *)
Fixpoint allChars (p : ascii -> bool) (s : string) : bool :=
  match s with
  | EmptyString => true
  | String a s' => p a && allChars p s'
  end.

Lemma allChars_append p a b :
  allChars p (a +:+ b) = allChars p a && allChars p b.
Proof.
  induction a as [|x a IH]; [done|].
  rewrite append_cons. simpl. by rewrite IH, andb_assoc.
Qed.

(** Lower case neither makes nor removes a sentence end or a blank. *)
Lemma isEnd_lowerChar a : isEnd (Js.lowerChar a) = isEnd a.
Proof. by destruct a as [[] [] [] [] [] [] [] []]. Qed.

Lemma isTrimmed_lowerChar a : Js.isTrimmed (Js.lowerChar a) = Js.isTrimmed a.
Proof. by destruct a as [[] [] [] [] [] [] [] []]. Qed.

Lemma allChars_lower p s :
  (forall a, p (Js.lowerChar a) = p a) ->
  allChars p (Js.toLowerCase s) = allChars p s.
Proof. intros Hp. induction s as [|x s IH]; simpl; [done | by rewrite Hp, IH]. Qed.

Lemma trimStart_blank s : Js.trimStart s = "" -> allChars Js.isTrimmed s = true.
Proof.
  induction s as [|a s IH]; simpl; [done|].
  destruct (Js.isTrimmed a); [exact IH | discriminate].
Qed.

Lemma trimStart_head s a r : Js.trimStart s = String a r -> Js.isTrimmed a = false.
Proof.
  induction s as [|b s IH]; simpl; [discriminate|].
  destruct (Js.isTrimmed b) eqn:E; [exact IH|]. by intros [= <- _].
Qed.

Lemma trimEnd_head a r : Js.isTrimmed a = false -> Js.trimEnd (String a r) <> "".
Proof. intros Ha. simpl. rewrite Ha. by destruct (Js.trimEnd r). Qed.

(** A string that trims to nothing holds blanks only. *)
Lemma trim_blank s : Js.trim s = "" -> allChars Js.isTrimmed s = true.
Proof.
  unfold Js.trim. destruct (Js.trimStart s) as [|a r] eqn:E.
  - intros _. by apply trimStart_blank.
  - intros H. by destruct (trimEnd_head a r (trimStart_head _ _ _ E)).
Qed.

(** *** The pieces of [split] *)

Lemma splitSentences_head s : forall cur afterEnd,
  (afterEnd = true -> cur = "") ->
  exists more others, splitSentences cur afterEnd s = (cur +:+ more) :: others.
Proof.
  induction s as [|c s IH]; intros cur afterEnd Hcur; simpl.
  - exists "", []. by rewrite append_empty.
  - destruct (isEnd c).
    + destruct afterEnd.
      * rewrite (Hcur eq_refl). by apply IH.
      * exists "", (splitSentences "" true s). by rewrite append_empty.
    + destruct (IH (cur +:+ String c "") false) as (more & others & ->); [done|].
      exists (String c more), others. by rewrite append_assoc.
Qed.

(** A stretch without a sentence end stays in one piece. *)
Lemma splitSentences_keeps k : forall cur afterEnd rest,
  allChars (fun a => negb (isEnd a)) k = true -> k <> "" ->
  splitSentences cur afterEnd (k +:+ rest) = splitSentences (cur +:+ k) false rest.
Proof.
  induction k as [|c k IH]; intros cur afterEnd rest Hk Hne; [done|].
  simpl in Hk. apply andb_true_iff in Hk as [Hc Hk].
  apply negb_true_iff in Hc. rewrite append_cons. cbn [splitSentences]. rewrite Hc.
  destruct k as [|d k].
  - reflexivity.
  - rewrite (IH (cur +:+ String c "") false rest Hk) by done.
    by rewrite append_assoc.
Qed.

Lemma splitSentences_contains k back :
  allChars (fun a => negb (isEnd a)) k = true -> k <> "" ->
  forall front cur afterEnd,
    (afterEnd = true -> cur = "") ->
    exists piece,
      piece ∈ splitSentences cur afterEnd (front +:+ k +:+ back)
      /\ occursIn k piece.
Proof.
  intros Hk Hne. induction front as [|c front IH]; intros cur afterEnd Hcur.
  - rewrite append_nil. rewrite (splitSentences_keeps k cur afterEnd back Hk Hne).
    destruct (splitSentences_head back (cur +:+ k) false) as (more & others & ->);
      [done|].
    exists ((cur +:+ k) +:+ more). split; [by left|].
    exists cur, more. by rewrite append_assoc.
  - rewrite append_cons. cbn [splitSentences]. destruct (isEnd c).
    + destruct (IH "" true) as (piece & Hin & Hocc); [done|].
      exists piece. split; [|done].
      destruct afterEnd; [done | by right].
    + apply IH. done.
Qed.

(** *** A keyword of the post lies in one of its sentences *)

(** A keyword without a sentence end that is not blank. *)
Definition plain (keyword : string) : Prop :=
  allChars (fun a => negb (isEnd a)) (Js.toLowerCase keyword) = true
  /\ allChars Js.isTrimmed (Js.toLowerCase keyword) = false.

Lemma keyword_sentence content keyword :
  plain keyword ->
  includes (Js.toLowerCase content) (Js.toLowerCase keyword) = true ->
  exists sentence,
    sentence ∈ splitSentences "" false content
    /\ notBlank sentence = true
    /\ includes (Js.toLowerCase sentence) (Js.toLowerCase keyword) = true.
Proof.
  intros [Hends Hblank] Hin.
  apply includes_occurs in Hin as (front & back & Hin).
  apply toLowerCase_split in Hin as (front' & rest' & -> & _ & Hrest).
  apply toLowerCase_split in Hrest as (k & back' & -> & Hk & _).
  assert (Hkends : allChars (fun a => negb (isEnd a)) k = true).
  { rewrite <- Hends, <- Hk. symmetry. apply allChars_lower.
    intros a. by rewrite isEnd_lowerChar. }
  assert (Hkblank : allChars Js.isTrimmed k = false).
  { rewrite <- Hblank, <- Hk. symmetry. apply allChars_lower, isTrimmed_lowerChar. }
  assert (Hne : k <> "") by (intros ->; discriminate Hkblank).
  destruct (splitSentences_contains k back' Hkends Hne front' "" false)
    as (piece & Hpiece & x & y & ->); [done|].
  exists (x +:+ k +:+ y). split; [exact Hpiece|]. split.
  - unfold notBlank. apply negb_true_iff, bool_decide_eq_false. intros Htrim.
    apply trim_blank in Htrim. rewrite !allChars_append in Htrim.
    rewrite Hkblank in Htrim. by destruct (allChars Js.isTrimmed x).
  - apply includes_occurs. exists (Js.toLowerCase x), (Js.toLowerCase y).
    by rewrite !toLowerCase_append, Hk.
Qed.

Lemma table_plain : Forall (fun entry => Forall plain (snd entry)) salesKeywords.
Proof. repeat constructor. Qed.

Section KeywordFacts.
Variable now : LinkedInPost -> SalesCategory -> string.

(** Does the lowercased [content] contain a keyword of the entry? *)
Definition hasKeyword (content : string) (entry : SalesCategory * list string) : bool :=
  existsb (fun keyword => includes content (Js.toLowerCase keyword)) (snd entry).

Lemma matching_some content keywords :
  (0 <? length (matching content keywords))%nat
  = existsb (fun keyword => includes content (Js.toLowerCase keyword)) keywords.
Proof.
  unfold matching. induction keywords as [|k ks IH]; [done|]. simpl.
  destruct (includes content (Js.toLowerCase k)); [done | exact IH].
Qed.

Lemma generateSimpleInsight_category post category keywords insight :
  generateSimpleInsight now post category keywords = Some insight ->
  si_category insight = category
  /\ si_sourcePost insight = post
  /\ si_id insight = post_id post +:+ "-" +:+ ClaudeService.categoryValue category
  /\ si_confidence insight = calculateConfidence post (length keywords)
  /\ si_actionableItems insight = [].
Proof.
  unfold generateSimpleInsight. case_bool_decide; [discriminate|].
  by intros [= <-].
Qed.

(** With a keyword of the list in the post, an insight is built. *)
Lemma generateSimpleInsight_some post category keywords keyword :
  In keyword keywords -> plain keyword ->
  includes (Js.toLowerCase (post_content post)) (Js.toLowerCase keyword) = true ->
  is_Some (generateSimpleInsight now post category keywords).
Proof.
  intros Hk Hplain Hin.
  destruct (keyword_sentence _ _ Hplain Hin) as (sentence & Hs & Hnb & Hm).
  unfold generateSimpleInsight.
  assert (Hrel : In sentence
            (List.filter (mentions keywords)
               (List.filter notBlank (splitSentences "" false (post_content post))))).
  { apply filter_In. split.
    - apply filter_In. split; [by apply list_elem_of_In | done].
    - unfold mentions. apply existsb_exists. by exists keyword. }
  case_bool_decide as Hlen; [|by eexists].
  apply length_zero_iff_nil in Hlen. rewrite Hlen in Hrel. destruct Hrel.
Qed.

Lemma categoryInsight_matching post entry :
  Forall plain (snd entry) ->
  let content := Js.toLowerCase (post_content post) in
  if hasKeyword content entry
  then exists insight, categoryInsight now post content entry = Some insight
                       /\ si_category insight = fst entry
  else categoryInsight now post content entry = None.
Proof.
  intros Hplain content. unfold categoryInsight, hasKeyword.
  rewrite matching_some.
  destruct (existsb _ (snd entry)) eqn:Hex; [|done].
  apply existsb_exists in Hex as (keyword & Hk & Hin).
  destruct (generateSimpleInsight_some post (fst entry)
              (matching content (snd entry)) keyword) as [insight E].
  - unfold matching. apply filter_In. by split.
  - by apply (proj1 (Forall_forall _ _) Hplain), list_elem_of_In.
  - exact Hin.
  - exists insight. split; [done|].
    by apply generateSimpleInsight_category in E as [? _].
Qed.

Lemma omap_categories post table :
  Forall (fun entry => Forall plain (snd entry)) table ->
  let content := Js.toLowerCase (post_content post) in
  map si_category (omap (categoryInsight now post content) table)
  = map fst (List.filter (hasKeyword content) table).
Proof.
  intros Hall content. induction Hall as [|entry table Hentry Hall IH]; [done|].
  cbn [omap List.filter list_omap].
  pose proof (categoryInsight_matching post entry Hentry) as Hcase.
  cbv zeta in Hcase. fold content in Hcase. destruct (hasKeyword content entry).
  - destruct Hcase as (insight & -> & Hc). cbn [map]. by rewrite Hc, IH.
  - rewrite Hcase. exact IH.
Qed.

Lemma calculateConfidence_range post keywordMatches :
  (1 # 10 <= calculateConfidence post keywordMatches <= 1)%Q.
Proof.
  unfold calculateConfidence. split.
  - apply Q.min_glb; [apply Q.le_max_r | discriminate].
  - apply Q.le_min_r.
Qed.

Lemma filter_sublist {A} (f : A -> bool) (l : list A) : sublist (List.filter f l) l.
Proof.
  induction l as [|x l IH]; [constructor|]. simpl.
  destruct (f x); by constructor.
Qed.

(** [extractInsightsFromPostKeywords] on the keyword table of the
    analyzer.  A post that mentions no focus topic gives no insight.
    Otherwise the post gives exactly one insight for every category of
    which it contains a keyword, in the order of the table: the sentence
    search behind an insight cannot come back empty.  The insights of a
    post have pairwise distinct categories and ids, there are at most
    nine, and each has the id [<post id>-<category>], the confidence
    computed from the number of keywords of its category found in the
    post, between 0.1 and 1, and no actionable items. *)
Theorem keyword_insights_one_per_matching_category
    (post : LinkedInPost) (focusTopics : list string) :
  let content := Js.toLowerCase (post_content post) in
  let out := extractInsightsFromPostKeywords now post focusTopics salesKeywords in
  (filterPostsByTopics [post] focusTopics = [] -> out = [])
  /\ (filterPostsByTopics [post] focusTopics = [post] ->
      map si_category out = map fst (List.filter (hasKeyword content) salesKeywords))
  /\ NoDup (map si_category out)
  /\ NoDup (map si_id out)
  /\ (length out <= 9)%nat
  /\ Forall (fun insight =>
       si_sourcePost insight = post
       /\ si_id insight
          = post_id post +:+ "-" +:+ ClaudeService.categoryValue (si_category insight)
       /\ (exists keywords,
             (si_category insight, keywords) ∈ salesKeywords
             /\ si_confidence insight
                = calculateConfidence post (length (matching content keywords)))
       /\ (1 # 10 <= si_confidence insight <= 1)%Q
       /\ si_actionableItems insight = []) out.
Proof.
  intros content out.
  assert (Htopic : filterPostsByTopics [post] focusTopics
                   = if onTopic content focusTopics then [post] else []).
  { unfold filterPostsByTopics, onTopic. case_bool_decide; [done|]. simpl.
    fold content. by destruct (existsb _ focusTopics). }
  assert (Hout : out = if onTopic content focusTopics
                       then omap (categoryInsight now post content) salesKeywords
                       else []).
  { unfold out, extractInsightsFromPostKeywords. fold content.
    by destruct (onTopic content focusTopics). }
  assert (Hsub : sublist (map si_category out) (map fst salesKeywords)).
  { rewrite Hout. destruct (onTopic content focusTopics); [|apply sublist_nil_l].
    unfold content. rewrite (omap_categories post salesKeywords table_plain).
    apply (fmap_sublist fst), filter_sublist. }
  assert (Hnd : NoDup (map si_category out)).
  { eapply sublist_NoDup; [|exact Hsub].
    cbn. repeat (constructor; [rewrite ?elem_of_cons, elem_of_nil; intuition discriminate|]).
    constructor. }
  assert (Hall : Forall (fun insight =>
       si_sourcePost insight = post
       /\ si_id insight
          = post_id post +:+ "-" +:+ ClaudeService.categoryValue (si_category insight)
       /\ (exists keywords,
             (si_category insight, keywords) ∈ salesKeywords
             /\ si_confidence insight
                = calculateConfidence post (length (matching content keywords)))
       /\ (1 # 10 <= si_confidence insight <= 1)%Q
       /\ si_actionableItems insight = []) out).
  { rewrite Hout. destruct (onTopic content focusTopics); [|constructor].
    apply Forall_forall. intros insight Hin.
    apply list_elem_of_omap in Hin as ([category keywords] & Hentry & Hsome).
    unfold categoryInsight in Hsome. cbn [fst snd] in Hsome.
    destruct (0 <? length (matching content keywords))%nat; [|discriminate Hsome].
    apply generateSimpleInsight_category in Hsome as (Hc & Hp & Hid & Hconf & Hact).
    split; [done|]. split; [by rewrite Hc|]. split; [|split; [|done]].
    - exists keywords. by rewrite Hc.
    - rewrite Hconf. apply calculateConfidence_range. }
  split; [|split; [|split; [exact Hnd|split; [|split; [|exact Hall]]]]].
  - rewrite Htopic, Hout. by destruct (onTopic content focusTopics).
  - rewrite Htopic, Hout. destruct (onTopic content focusTopics); [|discriminate].
    intros _. apply (omap_categories post salesKeywords table_plain).
  - assert (Hids : map si_id out
                   = map (fun c => post_id post +:+ "-" +:+ ClaudeService.categoryValue c)
                         (map si_category out)).
    { rewrite map_map. apply map_ext_in. intros insight Hin.
      apply list_elem_of_In in Hin.
      by destruct (proj1 (Forall_forall _ _) Hall insight Hin) as (_ & ? & _). }
    rewrite Hids.
    apply (NoDup_fmap_2_strong
             (fun c => post_id post +:+ "-" +:+ ClaudeService.categoryValue c));
      [|exact Hnd].
    intros c d _ _ E. apply String.app_inj, String.app_inj in E.
    by apply Aggregation.categoryValue_inj.
  - apply sublist_length in Hsub. by rewrite !length_map in Hsub.
Qed.

End KeywordFacts.

End Keywords.

(* ===================================================================== *)
(** ** src/analyzer.ts: the external links of the posts *)
(* ===================================================================== *)

Module ExternalLinks.
Import Keywords.

Definition eventPlatforms : list string :=
  ["zoom.us"; "eventbrite.com"; "hopin.com"; "brighttalk.com"; "on24.com";
   "webex.com"; "gotomeeting.com"; "demio.com"; "livestorm.com"].

Definition eventKeywords : list string :=
  ["/webinar"; "/event"; "/register"; "/registration"; "/rsvp"; "/live-event";
   "/upcoming-event"; "/join-webinar"; "/watch-webinar"].

Definition eventParams : list string :=
  ["?register="; "?event="; "&register="; "&event="].

Definition isWebinarOrEventUrl (url : string) : bool :=
  let lowerUrl := Js.toLowerCase url in
  if existsb (includes lowerUrl) eventPlatforms then true
  else if existsb (includes lowerUrl) eventKeywords then true
  else if existsb (includes lowerUrl) eventParams then true
  else false.

(** [link.split('?')[0]] *)
Fixpoint beforeQuery (link : string) : string :=
  match link with
  | EmptyString => EmptyString
  | String c rest =>
      if bool_decide (c = "?"%char) then EmptyString else String c (beforeQuery rest)
  end.

(** The three [continue] conditions of the inner loop, negated. *)
Definition keepLink (link : string) : bool :=
  negb (bool_decide (link = "")) && String.prefix "http" link
  && negb (includes link "linkedin.com")
  && negb (isWebinarOrEventUrl link).

(** [externalLinks.add(x)] on a [Set], kept in insertion order. *)
Definition addLink (externalLinks : list string) (x : string) : list string :=
  if bool_decide (x ∈ externalLinks) then externalLinks else externalLinks ++ [x].

(** Body of the inner loop. *)
Definition visitLink (externalLinks : list string) (link : string) : list string :=
  if keepLink link then addLink externalLinks (beforeQuery link) else externalLinks.

(** Body of the outer loop; [if (!post.links) continue]. *)
Definition visitPost (externalLinks : list string) (post : LinkedInPost) : list string :=
  match links post with
  | None => externalLinks
  | Some postLinks => fold_left visitLink postLinks externalLinks
  end.

(** [Array.from(externalLinks).slice(0, 20)] *)
Definition externalLinkList (posts : list LinkedInPost) : list string :=
  take 20 (fold_left visitPost posts []).

(** *** What the prefix in front of the query inherits *)

Lemma beforeQuery_prefix link : exists rest, link = beforeQuery link +:+ rest.
Proof.
  induction link as [|c link [rest IH]]; [by exists ""|]. simpl.
  case_bool_decide.
  - by exists (String c link).
  - exists rest. by rewrite append_cons, <- IH.
Qed.

Lemma beforeQuery_no_query link :
  allChars (fun c => negb (bool_decide (c = "?"%char))) (beforeQuery link) = true.
Proof.
  induction link as [|c link IH]; [done|]. simpl.
  case_bool_decide as Hc; [done|]. simpl. rewrite IH.
  by rewrite bool_decide_eq_false_2.
Qed.

Lemma occursIn_prefix t a rest : occursIn t a -> occursIn t (a +:+ rest).
Proof.
  intros (front & back & ->). exists front, (back +:+ rest).
  by rewrite !append_assoc.
Qed.

Lemma includes_prefix a rest t :
  includes a t = true -> includes (a +:+ rest) t = true.
Proof. rewrite !includes_occurs. apply occursIn_prefix. Qed.

Lemma existsb_includes_prefix a rest patterns :
  existsb (includes a) patterns = true ->
  existsb (includes (a +:+ rest)) patterns = true.
Proof.
  rewrite !existsb_exists. intros (t & Ht & Hin).
  exists t. split; [done | by apply includes_prefix].
Qed.

Lemma isWebinarOrEventUrl_prefix a rest :
  isWebinarOrEventUrl (a +:+ rest) = false -> isWebinarOrEventUrl a = false.
Proof.
  unfold isWebinarOrEventUrl. rewrite toLowerCase_append. intros H.
  destruct (existsb (includes (Js.toLowerCase a)) eventPlatforms) eqn:E1.
  { by rewrite (existsb_includes_prefix _ (Js.toLowerCase rest) _ E1) in H. }
  destruct (existsb (includes (Js.toLowerCase a)) eventKeywords) eqn:E2.
  { rewrite (existsb_includes_prefix _ (Js.toLowerCase rest) _ E2) in H.
    by destruct (existsb _ eventPlatforms). }
  destruct (existsb (includes (Js.toLowerCase a)) eventParams) eqn:E3; [|done].
  rewrite (existsb_includes_prefix _ (Js.toLowerCase rest) _ E3) in H.
  by destruct (existsb _ eventPlatforms), (existsb _ eventKeywords).
Qed.

Lemma prefix_http link :
  String.prefix "http" link = true -> String.prefix "http" (beforeQuery link) = true.
Proof.
  intros H. destruct (prefix_inv _ _ H) as [back ->].
  change (beforeQuery ("http" +:+ back)) with ("http" +:+ beforeQuery back).
  apply prefix_append.
Qed.

(** What holds of a link that was collected. *)
Definition collected (posts : list LinkedInPost) (x : string) : Prop :=
  exists post postLinks link,
    post ∈ posts /\ links post = Some postLinks /\ link ∈ postLinks
    /\ x = beforeQuery link
    /\ String.prefix "http" link = true
    /\ includes link "linkedin.com" = false
    /\ isWebinarOrEventUrl link = false.

Lemma visitLink_inv (P : string -> Prop) externalLinks link :
  NoDup externalLinks -> Forall P externalLinks ->
  (keepLink link = true -> P (beforeQuery link)) ->
  NoDup (visitLink externalLinks link) /\ Forall P (visitLink externalLinks link).
Proof.
  intros Hnd Hall Hnew. unfold visitLink, addLink.
  destruct (keepLink link); [|done].
  case_bool_decide as Hin; [done|]. split.
  - apply NoDup_app. split; [done|]. split; [|apply NoDup_singleton].
    intros x Hx Hx'. apply list_elem_of_singleton in Hx'. by subst.
  - apply Forall_app. split; [done|]. constructor; [by apply Hnew | constructor].
Qed.

Lemma visitLinks_inv (P : string -> Prop) postLinks : forall externalLinks,
  NoDup externalLinks -> Forall P externalLinks ->
  (forall link, link ∈ postLinks -> keepLink link = true -> P (beforeQuery link)) ->
  NoDup (fold_left visitLink postLinks externalLinks)
  /\ Forall P (fold_left visitLink postLinks externalLinks).
Proof.
  induction postLinks as [|link postLinks IH]; intros acc Hnd Hall Hnew; [done|].
  simpl. destruct (visitLink_inv P acc link Hnd Hall) as [Hnd' Hall'].
  - apply Hnew. by left.
  - apply IH; [done | done |]. intros l Hl. apply Hnew. by right.
Qed.

Lemma visitPosts_inv (P : string -> Prop) posts : forall externalLinks,
  NoDup externalLinks -> Forall P externalLinks ->
  (forall post postLinks link,
     post ∈ posts -> links post = Some postLinks -> link ∈ postLinks ->
     keepLink link = true -> P (beforeQuery link)) ->
  NoDup (fold_left visitPost posts externalLinks)
  /\ Forall P (fold_left visitPost posts externalLinks).
Proof.
  induction posts as [|post posts IH]; intros acc Hnd Hall Hnew; [done|].
  simpl. unfold visitPost at 2 4.
  destruct (links post) as [postLinks|] eqn:Hl.
  - destruct (visitLinks_inv P postLinks acc Hnd Hall) as [Hnd' Hall'].
    + intros link Hin. apply (Hnew post postLinks); [by left | done | done].
    + apply IH; [done | done |]. intros p pl l Hp. apply Hnew. by right.
  - apply IH; [done | done |]. intros p pl l Hp. apply Hnew. by right.
Qed.

(** The external links gathered from the posts for the discovery of
    further content: at most 20, each once, each the part in front of
    the query of a link of some post that starts with [http].  No
    LinkedIn link and no webinar or event link is among them, neither as
    posted nor as collected, and a collected link has no query. *)
Theorem externalLinkList_filtered (posts : list LinkedInPost) :
  let out := externalLinkList posts in
  (length out <= 20)%nat
  /\ NoDup out
  /\ Forall (fun x =>
       collected posts x
       /\ String.prefix "http" x = true
       /\ includes x "linkedin.com" = false
       /\ isWebinarOrEventUrl x = false
       /\ allChars (fun c => negb (bool_decide (c = "?"%char))) x = true) out.
Proof.
  intros out.
  destruct (visitPosts_inv (collected posts) posts []) as [Hnd Hall];
    [constructor | constructor | |].
  { intros post postLinks link Hp Hl Hin Hkeep.
    unfold keepLink in Hkeep.
    apply andb_true_iff in Hkeep as [Hkeep Hw].
    apply andb_true_iff in Hkeep as [Hkeep Hli].
    apply andb_true_iff in Hkeep as [_ Hhttp].
    apply negb_true_iff in Hw, Hli.
    by exists post, postLinks, link. }
  split; [|split].
  - unfold out, externalLinkList. rewrite length_take. lia.
  - unfold out, externalLinkList.
    eapply sublist_NoDup; [exact Hnd | apply sublist_take].
  - unfold out, externalLinkList. apply Forall_take.
    eapply Forall_impl; [exact Hall|]. intros x Hx. split; [exact Hx|].
    destruct Hx as (post & postLinks & link & _ & _ & _ & -> & Hhttp & Hli & Hw).
    destruct (beforeQuery_prefix link) as [rest Hrest].
    split; [by apply prefix_http|]. split; [|split].
    + destruct (includes (beforeQuery link) "linkedin.com") eqn:E; [|done].
      apply (includes_prefix _ rest) in E. rewrite <- Hrest in E. congruence.
    + apply (isWebinarOrEventUrl_prefix _ rest). by rewrite <- Hrest.
    + apply beforeQuery_no_query.
Qed.

End ExternalLinks.

(* ===================================================================== *)
(** ** src/aggregation-formatter.ts: saving the combined output *)
(* ===================================================================== *)

Module CombinedOutput.
Import TokenUtils.

(** [CombinedOutput] *)
Record Output := {
  aggregatedKnowledge : jsstring;
  unifiedRules : jsstring;
  masterInstructions : jsstring
}.

(** The file system: the calls made so far, the directories made and
    the files written, oldest first. *)
Record Disk := {
  calls : nat;
  made : list string;
  written : list (string * jsstring)
}.

(** [path.join], and the errors [fs.mkdir] and [fs.writeFile] answer
    with, by the number of the call. *)
Record Fs := {
  join : string -> string -> string;
  mkdirError : nat -> option JsError;
  writeError : nat -> option JsError
}.

(** [name.replace('.txt', replacement)]: the first occurrence. *)
Fixpoint replaceTxt (replacement : string) (name : string) : string :=
  match name with
  | EmptyString => EmptyString
  | String c rest =>
      if String.prefix ".txt" name
      then replacement +:+ String.substring 4 (String.length name - 4) name
      else String c (replaceTxt replacement rest)
  end.

(** [config.tokenLimit || 50000] *)
Definition limitOr (tokenLimit : option Z) : Z :=
  match tokenLimit with
  | Some limit => if limit =? 0 then 50000 else limit
  | None => 50000
  end.

Section Saving.
Variable fs : Fs.

(** [await fs.mkdir(dir, { recursive: true })] *)
Definition mkdir (dir : string) : M Disk unit :=
  fun d =>
    let d' := {| calls := S (calls d); made := made d; written := written d |} in
    match mkdirError fs (calls d) with
    | Some error => (Thrown error, d')
    | None => (Returned tt, {| calls := S (calls d); made := made d ++ [dir];
                               written := written d |})
    end.

(** [await fs.writeFile(path, content, 'utf-8')] *)
Definition writeFile (path : string) (content : jsstring) : M Disk unit :=
  fun d =>
    let d' := {| calls := S (calls d); made := made d; written := written d |} in
    match writeError fs (calls d) with
    | Some error => (Thrown error, d')
    | None => (Returned tt, {| calls := S (calls d); made := made d;
                               written := written d ++ [(path, content)] |})
    end.

(** The loop [for (let i = 0; i < chunks.length; i++)], from [i] on. *)
Fixpoint writeParts (dir name : string) (i : nat) (chunks : list jsstring)
    (savedFiles : list string) : M Disk (list string) :=
  match chunks with
  | [] => mret savedFiles
  | chunk :: rest =>
      let partName := replaceTxt ("-part" +:+ pretty (i + 1)%nat +:+ ".txt") name in
      let partPath := join fs dir partName in
      writeFile partPath chunk;;
      writeParts dir name (S i) rest (savedFiles ++ [partPath])
  end.

(** Body of the loop over the three files. *)
Definition saveFile (tokenLimit : Z) (dir name : string) (content : jsstring)
    (savedFiles : list string) : M Disk (list string) :=
  if tokenLimit <? estimateTokens content
  then writeParts dir name 0 (splitByTokens content tokenLimit) savedFiles
  else
    let filePath := join fs dir name in
    writeFile filePath content;;
    mret (savedFiles ++ [filePath]).

Definition saveCombinedOutput (output : Output) (tokenLimit : option Z)
    (outputDir : string) : M Disk (string * list string) :=
  let knowledgeDir := join fs outputDir "knowledge" in
  let rulesDir := join fs outputDir "rules" in
  mkdir knowledgeDir;;
  mkdir rulesDir;;
  let limit := limitOr tokenLimit in
  saved ← saveFile limit knowledgeDir "1-aggregated-knowledge.txt"
                   (aggregatedKnowledge output) [];
  saved ← saveFile limit rulesDir "2-unified-rules.txt" (unifiedRules output) saved;
  saved ← saveFile limit rulesDir "3-master-instructions.txt"
                   (masterInstructions output) saved;
  mret (outputDir, saved).

(** Neither [mkdir] nor [writeFile] fails. *)
Definition diskAccepts : Prop :=
  (forall n, mkdirError fs n = None) /\ (forall n, writeError fs n = None).

Lemma bind_returns {S A B} (m : M S A) (k : A -> M S B) s a s1 :
  m s = (Returned a, s1) -> (m ≫= k) s = k a s1.
Proof. intros H. unfold mbind, M_bind, Eff.bind. by rewrite H. Qed.

Lemma mkdir_makes dir d :
  diskAccepts ->
  exists d', mkdir dir d = (Returned tt, d')
             /\ made d' = made d ++ [dir] /\ written d' = written d.
Proof. intros Hok. unfold mkdir. rewrite (proj1 Hok). by eexists. Qed.

Lemma splitByTokens_concat text limit : concat (splitByTokens text limit) = text.
Proof.
  unfold splitByTokens. destruct (estimateTokens text <=? limit).
  - simpl. by rewrite app_nil_r.
  - rewrite flush_packed, fold_packSection_packed, splitSections_concat.
    reflexivity.
Qed.

(** The files of one output: all in [dir], their contents in order
    making up [content]. *)
Definition holds (dir : string) (content : jsstring)
    (files : list (string * jsstring)) : Prop :=
  concat (map snd files) = content
  /\ Forall (fun file => exists name, fst file = join fs dir name) files.

Lemma writeParts_writes dir name chunks : forall i savedFiles d,
  diskAccepts ->
  exists files d',
    writeParts dir name i chunks savedFiles d
      = (Returned (savedFiles ++ map fst files), d')
    /\ written d' = written d ++ files /\ made d' = made d
    /\ map snd files = chunks
    /\ Forall (fun file => exists part, fst file = join fs dir part) files.
Proof.
  induction chunks as [|chunk rest IH]; intros i savedFiles d Hok.
  - exists [], d. simpl. rewrite !app_nil_r. by repeat split.
  - cbn [writeParts]. unfold mbind, M_bind, Eff.bind, writeFile.
    rewrite (proj2 Hok).
    match goal with |- context [writeParts dir name (S i) rest ?saved ?d1] =>
      destruct (IH (S i) saved d1 Hok) as (files & d' & E & Hw & Hm & Hs & Hd)
    end.
    exists ((join fs dir (replaceTxt ("-part" +:+ pretty (i + 1)%nat +:+ ".txt") name),
             chunk) :: files), d'.
    rewrite E. split; [|split; [|split; [|split]]].
    + simpl. by rewrite <- app_assoc.
    + rewrite Hw. simpl. by rewrite <- app_assoc.
    + exact Hm.
    + simpl. by rewrite Hs.
    + constructor; [by eexists | exact Hd].
Qed.

Lemma saveFile_writes limit dir name content savedFiles d :
  diskAccepts ->
  exists files d',
    saveFile limit dir name content savedFiles d
      = (Returned (savedFiles ++ map fst files), d')
    /\ written d' = written d ++ files /\ made d' = made d
    /\ holds dir content files
    /\ (estimateTokens content <= limit -> files = [(join fs dir name, content)]).
Proof.
  intros Hok. unfold saveFile.
  destruct (Z.ltb_spec limit (estimateTokens content)) as [Hover|Hfits].
  - destruct (writeParts_writes dir name (splitByTokens content limit) 0 savedFiles d Hok)
      as (files & d' & E & Hw & Hm & Hs & Hd).
    exists files, d'. split; [done|]. split; [done|]. split; [done|].
    split; [|lia]. split; [|done]. by rewrite Hs, splitByTokens_concat.
  - unfold mbind, M_bind, Eff.bind, writeFile. rewrite (proj2 Hok).
    exists [(join fs dir name, content)]. eexists.
    split; [reflexivity|]. split; [reflexivity|].
    split; [reflexivity|]. split; [|done].
    split; [simpl; by rewrite app_nil_r|]. constructor; [by eexists | constructor].
Qed.

(** [saveCombinedOutput] on a disk that accepts every call: it makes
    the two directories and returns the paths of the files it wrote, in
    the order of writing.  The files come in three groups, one per
    output: the knowledge under the knowledge directory, the rules and
    the instructions under the rules directory.  The contents of a
    group, put together in order, are the output itself, split or not:
    nothing is lost and nothing is added.  A missing token limit and a
    limit of 0 count as 50000, and each of the three outputs that is
    within the limit is written as one file under its own name. *)
Theorem saveCombinedOutput_writes_everything
    (output : Output) (tokenLimit : option Z) (outputDir : string) (d : Disk) :
  diskAccepts ->
  let knowledgeDir := join fs outputDir "knowledge" in
  let rulesDir := join fs outputDir "rules" in
  exists knowledge rules instructions d',
    saveCombinedOutput output tokenLimit outputDir d
      = (Returned (outputDir, map fst (knowledge ++ rules ++ instructions)), d')
    /\ made d' = made d ++ [knowledgeDir; rulesDir]
    /\ written d' = written d ++ knowledge ++ rules ++ instructions
    /\ holds knowledgeDir (aggregatedKnowledge output) knowledge
    /\ holds rulesDir (unifiedRules output) rules
    /\ holds rulesDir (masterInstructions output) instructions
    /\ (estimateTokens (aggregatedKnowledge output) <= limitOr tokenLimit ->
        knowledge = [(join fs knowledgeDir "1-aggregated-knowledge.txt",
                      aggregatedKnowledge output)])
    /\ (estimateTokens (unifiedRules output) <= limitOr tokenLimit ->
        rules = [(join fs rulesDir "2-unified-rules.txt", unifiedRules output)])
    /\ (estimateTokens (masterInstructions output) <= limitOr tokenLimit ->
        instructions = [(join fs rulesDir "3-master-instructions.txt",
                         masterInstructions output)])
    /\ (tokenLimit = None \/ tokenLimit = Some 0 -> limitOr tokenLimit = 50000).
Proof.
  intros Hok knowledgeDir rulesDir. unfold saveCombinedOutput.
  fold knowledgeDir rulesDir.
  destruct (mkdir_makes knowledgeDir d Hok) as (da & Ea & Ma & Wa).
  destruct (mkdir_makes rulesDir da Hok) as (db & Eb & Mb & Wb).
  rewrite (bind_returns _ _ _ _ _ Ea), (bind_returns _ _ _ _ _ Eb).
  destruct (saveFile_writes (limitOr tokenLimit) knowledgeDir
              "1-aggregated-knowledge.txt" (aggregatedKnowledge output) [] db Hok)
    as (f1 & d1' & E1 & W1 & M1 & H1 & S1).
  rewrite (bind_returns _ _ _ _ _ E1).
  destruct (saveFile_writes (limitOr tokenLimit) rulesDir "2-unified-rules.txt"
              (unifiedRules output) ([] ++ map fst f1) d1' Hok)
    as (f2 & d2' & E2 & W2 & M2 & H2 & S2).
  rewrite (bind_returns _ _ _ _ _ E2).
  destruct (saveFile_writes (limitOr tokenLimit) rulesDir "3-master-instructions.txt"
              (masterInstructions output) (([] ++ map fst f1) ++ map fst f2) d2' Hok)
    as (f3 & d3' & E3 & W3 & M3 & H3 & S3).
  rewrite (bind_returns _ _ _ _ _ E3).
  exists f1, f2, f3, d3'.
  split; [|split; [|split; [|split; [|split; [|split; [|split; [|split; [|split]]]]]]]].
  - unfold mret, M_ret, Eff.ret. by rewrite !map_app, app_nil_l, app_assoc.
  - rewrite M3, M2, M1, Mb, Ma. by rewrite <- app_assoc.
  - rewrite W3, W2, W1, Wb, Wa. by rewrite <- !app_assoc.
  - exact H1.
  - exact H2.
  - exact H3.
  - exact S1.
  - exact S2.
  - exact S3.
  - by intros [-> | ->].
Qed.

End Saving.

(** A disk that takes everything; paths are joined with a slash. *)
Definition plainDisk : Fs :=
  {| join := fun a b => a +:+ "/" +:+ b;
     mkdirError := fun _ => None;
     writeError := fun _ => None |}.

Definition emptyDisk : Disk := {| calls := 0; made := []; written := [] |}.

(** "## a\n## b\n## c\n": three sections of two tokens each. *)
Definition threeSections : jsstring :=
  [0x23; 0x23; 0x20; 0x61; 0x0A; 0x23; 0x23; 0x20; 0x62; 0x0A;
   0x23; 0x23; 0x20; 0x63; 0x0A]%N.

Definition smallOutput : Output :=
  {| aggregatedKnowledge := threeSections; unifiedRules := [];
     masterInstructions := threeSections |}.

Example second_part_name :
  replaceTxt ("-part" +:+ pretty (1 + 1)%nat +:+ ".txt") "1-aggregated-knowledge.txt"
  = "1-aggregated-knowledge-part2.txt".
Proof. by vm_compute. Qed.

Example split_in_three :
  map fst (written (snd (saveCombinedOutput plainDisk smallOutput (Some 3) "out"
                           emptyDisk)))
  = ["out/knowledge/1-aggregated-knowledge-part1.txt";
     "out/knowledge/1-aggregated-knowledge-part2.txt";
     "out/knowledge/1-aggregated-knowledge-part3.txt";
     "out/rules/2-unified-rules.txt";
     "out/rules/3-master-instructions-part1.txt";
     "out/rules/3-master-instructions-part2.txt";
     "out/rules/3-master-instructions-part3.txt"].
Proof. by vm_compute. Qed.

Lemma saveCombinedOutput_writes_everything_witness :
  diskAccepts plainDisk
  /\ exists knowledge rules instructions d',
       saveCombinedOutput plainDisk smallOutput (Some 3) "out" emptyDisk
         = (Returned ("out", map fst (knowledge ++ rules ++ instructions)), d')
       /\ made d' = made emptyDisk ++ [join plainDisk "out" "knowledge";
                                       join plainDisk "out" "rules"]
       /\ written d' = written emptyDisk ++ knowledge ++ rules ++ instructions
       /\ holds plainDisk (join plainDisk "out" "knowledge")
                (aggregatedKnowledge smallOutput) knowledge
       /\ holds plainDisk (join plainDisk "out" "rules")
                (unifiedRules smallOutput) rules
       /\ holds plainDisk (join plainDisk "out" "rules")
                (masterInstructions smallOutput) instructions
       /\ (estimateTokens (aggregatedKnowledge smallOutput) <= limitOr (Some 3) ->
           knowledge = [(join plainDisk (join plainDisk "out" "knowledge")
                              "1-aggregated-knowledge.txt",
                         aggregatedKnowledge smallOutput)])
       /\ (estimateTokens (unifiedRules smallOutput) <= limitOr (Some 3) ->
           rules = [(join plainDisk (join plainDisk "out" "rules")
                          "2-unified-rules.txt", unifiedRules smallOutput)])
       /\ (estimateTokens (masterInstructions smallOutput) <= limitOr (Some 3) ->
           instructions = [(join plainDisk (join plainDisk "out" "rules")
                                 "3-master-instructions.txt",
                            masterInstructions smallOutput)])
       /\ (Some 3 = None \/ Some 3 = Some 0 -> limitOr (Some 3) = 50000).
Proof.
  assert (H : diskAccepts plainDisk) by (by split).
  split; [exact H|].
  exact (saveCombinedOutput_writes_everything plainDisk smallOutput (Some 3) "out"
           emptyDisk H).
Defined.

End CombinedOutput.
